(** * gsplat: tile compositor (forward) and packed projection (backward)

    A shallow embedding of
      - [src/gsplat/cuda/csrc/rasterize_to_pixels_fwd.cu]
      - [src/gsplat/cuda/csrc/fully_fused_projection_packed_bwd.cu]

    The kernels are written against an interface of scalar operations
    ([Scalar]) that lists exactly the operations the sources apply to
    [float] values.  Two interpretations are given: IEEE-754 binary32 built
    on the Standard Library's [SpecFloat] (used to run the kernels on
    concrete inputs) and exact rationals (used where a statement needs
    algebraic laws that rounding only satisfies approximately). *)

From Stdlib Require Import ZArith List Bool Lia QArith Lqa Permutation.
From Stdlib Require Import Floats.SpecFloat.
From stdpp Require Import base numbers list strings pretty.

Local Open Scope Z_scope.

(** ** Scalar operations used by the sources *)

Class Scalar : Type := {
  F : Type;
  (** literals of the sources *)
  lit_0 : F;          (* 0.f *)
  lit_1 : F;          (* 1.f, 1.0f *)
  lit_0_5 : F;        (* 0.5f *)
  lit_255 : F;        (* 255.f *)
  lit_0_999 : F;      (* 0.999f *)
  lit_1e_4 : F;       (* 1e-4, a double literal *)
  (** [(float)j] for an unsigned 32-bit [j] *)
  of_u32 : Z -> F;
  fadd : F -> F -> F;
  fsub : F -> F -> F;
  fmul : F -> F -> F;
  fdiv : F -> F -> F;
  fneg : F -> F;
  (** [min(float, float)] of the device library *)
  fmin : F -> F -> F;
  (** the [__expf] intrinsic *)
  expf : F -> F;
  flt : F -> F -> bool;
  fle : F -> F -> bool;
}.

(** ** IEEE-754 binary32 *)

Module B32.

Definition prec : Z := 24.
Definition emax : Z := 128.

Definition add := SFadd prec emax.
Definition sub := SFsub prec emax.
Definition mul := SFmul prec emax.
Definition div := SFdiv prec emax.

(** The integer [m] rounded to binary32. *)
Definition of_Z (m : Z) : spec_float := binary_normalize prec emax m 0 false.

(** The decimal literal [n / d] rounded to binary32 (a correctly rounded
    quotient of two exactly representable integers). *)
Definition dec (n d : Z) : spec_float := div (of_Z n) (of_Z d).

(** The double literal [n / d]: rounded to binary64. *)
Definition dec64 (n d : Z) : spec_float :=
  SFdiv 53 1024 (binary_normalize 53 1024 n 0 false)
                (binary_normalize 53 1024 d 0 false).

(** The conversion of [float] to [double], which is exact.  [SFcompare]
    orders finite values by exponent first and so needs both operands in
    one format: comparisons convert to binary64 first, as the usual
    arithmetic conversions of C++ do for [next_T <= 1e-4]. *)
Definition to_double (v : spec_float) : spec_float :=
  match v with
  | S754_finite s m e =>
    binary_normalize 53 1024 (cond_Zopp s (Zpos m)) e false
  | _ => v
  end.

Definition ltb (u v : spec_float) : bool := SFltb (to_double u) (to_double v).
Definition leb (u v : spec_float) : bool := SFleb (to_double u) (to_double v).

(** [fminf]: when one argument is not a number the other is returned. *)
Definition min (a b : spec_float) : spec_float :=
  match a, b with
  | S754_nan, _ => b
  | _, S754_nan => a
  | _, _ => if ltb b a then b else a
  end.

Fixpoint sq_iter (n : nat) (v : spec_float) : spec_float :=
  match n with
  | O => v
  | S n' => sq_iter n' (mul v v)
  end.

(** Stand-in for the [__expf] intrinsic, whose result bits are fixed by the
    hardware and not by the source: [(1 + v / 4096) ^ 4096] in binary32
    arithmetic, clamped where binary32 exponentials leave the normal range.
    It is exact at zero. *)
Definition exp_approx (v : spec_float) : spec_float :=
  match v with
  | S754_nan => S754_nan
  | _ =>
    if ltb v (of_Z (-80)) then S754_zero false
    else if ltb (of_Z 80) v then S754_infinity false
    else sq_iter 12 (add (of_Z 1) (div v (of_Z 4096)))
  end.

End B32.

Definition binary32 : Scalar := {|
  F := spec_float;
  lit_0 := B32.of_Z 0;
  lit_1 := B32.of_Z 1;
  lit_0_5 := B32.dec 1 2;
  lit_255 := B32.of_Z 255;
  lit_0_999 := B32.dec 999 1000;
  lit_1e_4 := B32.dec64 1 10000;
  of_u32 := B32.of_Z;
  fadd := B32.add;
  fsub := B32.sub;
  fmul := B32.mul;
  fdiv := B32.div;
  fneg := SFopp;
  fmin := B32.min;
  expf := B32.exp_approx;
  flt := B32.ltb;
  fle := B32.leb;
|}.

(** ** Exact rational arithmetic *)

Module Exact.

Definition ltb (a b : Q) : bool := negb (Qle_bool b a).

(** Stand-in for the exponential, which is not rational: the quadratic
    Taylor polynomial for non-negative arguments and its reciprocal form for
    negative ones.  It is exact at zero. *)
Definition exp_approx (v : Q) : Q :=
  if Qle_bool 0 v then (1 + v + v * v / 2)%Q
  else (1 / (1 - v + v * v / 2))%Q.

End Exact.

Definition exactQ : Scalar := {|
  F := Q;
  lit_0 := 0%Q;
  lit_1 := 1%Q;
  lit_0_5 := (1 # 2)%Q;
  lit_255 := 255%Q;
  lit_0_999 := (999 # 1000)%Q;
  lit_1e_4 := (1 # 10000)%Q;
  of_u32 := inject_Z;
  fadd := Qplus;
  fsub := Qminus;
  fmul := Qmult;
  fdiv := Qdiv;
  fneg := Qopp;
  fmin := fun a b => if Exact.ltb b a then b else a;
  expf := Exact.exp_approx;
  flt := Exact.ltb;
  fle := Qle_bool;
|}.

(** ** Machine integers *)

(** Wrap-around of the 32-bit unsigned and signed integer types. *)
Definition u32 (z : Z) : Z := z mod 2 ^ 32.
Definition i32 (z : Z) : Z := (z + 2 ^ 31) mod 2 ^ 32 - 2 ^ 31.

(** ** Host side: tensors, exceptions and kernel launches *)

Module Host.

Record tensor (A : Type) := {
  sizes : list Z;
  is_cuda : bool;
  is_contiguous : bool;
  data_ptr : Z -> A;
}.
Arguments sizes {A} _.
Arguments is_cuda {A} _.
Arguments is_contiguous {A} _.
Arguments data_ptr {A} _ _.

(** How a call of an entry point ends. *)
Inductive outcome (A : Type) :=
| Returned (v : A)
| Thrown (msg : string)    (* a [c10::Error] from [TORCH_CHECK] / [AT_ERROR] *)
| Aborted (msg : string).  (* [abort()] from a failed [assert] *)
Arguments Returned {A} v.
Arguments Thrown {A} msg.
Arguments Aborted {A} msg.

(** Host code threads the trace of device events (most recent last) and may
    end early.  [E] is the type of events. *)
Definition M (E A : Type) : Type := list E -> list E * outcome A.

Definition ret {E A} (v : A) : M E A := fun tr => (tr, Returned v).
Definition bind {E A B} (c : M E A) (k : A -> M E B) : M E B :=
  fun tr =>
    match c tr with
    | (tr', Returned v) => k v tr'
    | (tr', Thrown msg) => (tr', Thrown msg)
    | (tr', Aborted msg) => (tr', Aborted msg)
    end.
Definition throw {E A} (msg : string) : M E A := fun tr => (tr, Thrown msg).
Definition abort {E A} (msg : string) : M E A := fun tr => (tr, Aborted msg).
Definition emit {E} (e : E) : M E unit := fun tr => (tr ++ [e], Returned tt).
Definition run {E A} (c : M E A) : list E * outcome A := c [].

Definition dim {A} (t : tensor A) : Z := Z.of_nat (length (sizes t)).

(** [t.size(k)]: negative [k] counts from the end; a [k] outside the
    tensor's dimensions raises. *)
Definition size {E A} (t : tensor A) (k : Z) : M E Z :=
  let k' := if k <? 0 then dim t + k else k in
  if (0 <=? k') && (k' <? dim t)
  then ret (nth (Z.to_nat k') (sizes t) 0)
  else throw "Dimension out of range".

(** [o.value()] of an optional. *)
Definition value {E A} (o : option A) : M E A :=
  match o with
  | Some v => ret v
  | None => throw "bad optional access"
  end.

(** [assert(c)] of <cassert>: compiled out when [NDEBUG] is defined,
    otherwise a false [c] prints the expression and aborts the process. *)
Definition assert {E} (NDEBUG : bool) (expr : string) (c : bool) : M E unit :=
  if NDEBUG then ret tt
  else if c then ret tt
  else abort ("Assertion `" +:+ expr +:+ "' failed.").

End Host.

Notation "x <- c ;; k" := (Host.bind c (fun x => k))
  (at level 100, c at next level, right associativity).
Notation "c ;;; k" := (Host.bind c (fun _ => k))
  (at level 100, right associativity).

(** ** rasterize_to_pixels_fwd.cu *)

Module Fwd.

Section Kernel.
Context {Sc : Scalar}.

Record float2 := mk_float2 { f2x : F; f2y : F }.
Record float3 := mk_float3 { f3x : F; f3y : F; f3z : F }.

(** The kernel's arguments.  Device arrays are read through total lookup
    functions on the element index (a read outside an array is undefined
    behaviour in the source); a null [backgrounds] pointer is [None]. *)
Record kernel_args := {
  C : Z;
  N : Z;
  n_isects : Z;
  packed : bool;
  means2d : Z -> float2;
  conics : Z -> float3;
  colors : Z -> F;
  opacities : Z -> F;
  backgrounds : option (Z -> F);
  image_width : Z;
  image_height : Z;
  tile_size : Z;
  tile_width : Z;
  tile_height : Z;
  tile_offsets : Z -> Z;
  flatten_ids : Z -> Z;
}.

(** The block's shared arrays [id_batch], [xy_opacity_batch], [conic_batch]. *)
Record shared_mem := {
  id_batch : Z -> Z;
  xy_opacity_batch : Z -> float3;
  conic_batch : Z -> float3;
}.

(** The mutable locals of one thread. *)
Record pix_state := {
  T : F;
  cur_idx : Z;
  pix_out : list F;
  done : bool;
}.

(** What an iteration of the inner loop does next. *)
Inductive ctl := Next | Break.

(** One block of a launch: the kernel's arguments, the template parameter
    and [block.group_index()]. *)
Record block := {
  args : kernel_args;
  COLOR_DIM : Z;
  bx : Z;
  by_ : Z;
  bz : Z;
}.

(** [block.thread_index()]. *)
Record thread_index := { tx : Z; ty : Z }.

Variable B : block.
Local Abbreviation a := (args B).

Definition camera_id : Z := i32 (bx B).
Definition tile_id : Z := i32 (u32 (by_ B * tile_width a + bz B)).
Definition block_size : Z := u32 (tile_size a * tile_size a).

(** [tile_offsets] after [tile_offsets += camera_id * tile_height * tile_width]. *)
Definition tile_offsets_cam (k : Z) : Z :=
  tile_offsets a (u32 (camera_id * tile_height a * tile_width a) + k).

(** [backgrounds] after [backgrounds += camera_id * COLOR_DIM]. *)
Definition backgrounds_cam : option (Z -> F) :=
  match backgrounds a with
  | Some bg => Some (fun k => bg (u32 (camera_id * COLOR_DIM B) + k))
  | None => None
  end.

Definition range_start : Z := tile_offsets_cam tile_id.
Definition range_end : Z :=
  if (u32 camera_id =? u32 (C a - 1))
     && (u32 tile_id =? u32 (tile_width a * tile_height a - 1))
  then i32 (n_isects a)
  else tile_offsets_cam (tile_id + 1).
Definition num_batches : Z :=
  u32 (range_end - range_start + block_size - 1) / block_size.

Definition batch_start (b : Z) : Z := u32 (range_start + block_size * b).

(** The guarded load of one record by the thread of rank [tr], followed by
    [block.sync()]: every slot whose thread passes the guard is rewritten,
    the others keep what the previous batch left. *)
Definition load_batch (b : Z) (sh : shared_mem) : shared_mem :=
  let loads tr :=
    (0 <=? tr) && (tr <? block_size)
    && (u32 (batch_start b + tr) <? u32 range_end) in
  let g tr := flatten_ids a (u32 (batch_start b + tr)) in
  {| id_batch tr := if loads tr then g tr else id_batch sh tr;
     xy_opacity_batch tr :=
       if loads tr
       then mk_float3 (f2x (means2d a (g tr))) (f2y (means2d a (g tr)))
                      (opacities a (g tr))
       else xy_opacity_batch sh tr;
     conic_batch tr := if loads tr then conics a (g tr) else conic_batch sh tr |}.

Definition batch_size (b : Z) : Z :=
  Z.min block_size (u32 (range_end - batch_start b)).

Section Thread.
Variable ti : thread_index.

Definition i : Z := u32 (by_ B * tile_size a + ty ti).
Definition j : Z := u32 (bz B * tile_size a + tx ti).
Definition px : F := fadd (of_u32 j) lit_0_5.
Definition py : F := fadd (of_u32 i) lit_0_5.
Definition pix_id : Z := i32 (u32 (i * image_width a + j)).
Definition inside : bool := (i <? image_height a) && (j <? image_width a).

Definition delta (xy_opac : float3) : float2 :=
  mk_float2 (fsub (f3x xy_opac) px) (fsub (f3y xy_opac) py).

Definition sigma (conic xy_opac : float3) : F :=
  let d := delta xy_opac in
  fadd (fmul lit_0_5
          (fadd (fmul (fmul (f3x conic) (f2x d)) (f2x d))
                (fmul (fmul (f3z conic) (f2y d)) (f2y d))))
       (fmul (fmul (f3y conic) (f2x d)) (f2y d)).

Definition alpha (conic xy_opac : float3) : F :=
  fmin lit_0_999 (fmul (f3z xy_opac) (expf (fneg (sigma conic xy_opac)))).

(** The test of the [continue] branch. *)
Definition skipped (conic xy_opac : float3) : bool :=
  flt (sigma conic xy_opac) lit_0
  || flt (alpha conic xy_opac) (fdiv lit_1 lit_255).

Definition next_T (st : pix_state) (conic xy_opac : float3) : F :=
  fmul (T st) (fsub lit_1 (alpha conic xy_opac)).

(** [pix_out[k] += c_ptr[k] * vis] for [k < COLOR_DIM], with
    [c_ptr = colors + g * COLOR_DIM]. *)
Definition accumulate (g : Z) (vis : F) (po : list F) : list F :=
  imap (fun k p =>
          fadd p (fmul (colors a (u32 (g * COLOR_DIM B) + Z.of_nat k)) vis)) po.

(** One iteration of the inner loop on the record held in the shared
    arrays at slot [t] (its body, after the loop test has passed). *)
Definition record_step (sh : shared_mem) (b t : Z) (st : pix_state)
  : ctl * pix_state :=
  let conic := conic_batch sh t in
  let xy_opac := xy_opacity_batch sh t in
  if skipped conic xy_opac then (Next, st)
  else if fle (next_T st conic xy_opac) lit_1e_4
  then (Break, {| T := T st; cur_idx := cur_idx st;
                  pix_out := pix_out st; done := true |})
  else
    let g := id_batch sh t in
    let vis := fmul (alpha conic xy_opac) (T st) in
    (Next, {| T := next_T st conic xy_opac;
              cur_idx := u32 (batch_start b + t);
              pix_out := accumulate g vis (pix_out st);
              done := done st |}).

(** [for (t = 0; (t < batch_size) && !done; ++t)], with [n] iterations left. *)
Fixpoint batch_loop (sh : shared_mem) (b : Z) (n : nat) (t : Z)
    (st : pix_state) : pix_state :=
  match n with
  | O => st
  | S n' =>
    if done st then st
    else match record_step sh b t st with
         | (Next, st') => batch_loop sh b n' (t + 1) st'
         | (Break, st') => st'
         end
  end.

Definition process_batch (sh : shared_mem) (b : Z) (st : pix_state) : pix_state :=
  batch_loop sh b (Z.to_nat (batch_size b)) 0 st.

(** The outer loop as one thread runs it while the tile-wide exit is not
    taken: load, barrier, inner loop. *)
Fixpoint thread_batches (n : nat) (b : Z) (sh : shared_mem) (st : pix_state)
  : pix_state :=
  match n with
  | O => st
  | S n' =>
    let sh' := load_batch b sh in
    thread_batches n' (b + 1) sh' (process_batch sh' b st)
  end.

Definition init_state : pix_state :=
  {| T := lit_1; cur_idx := 0;
     pix_out := replicate (Z.to_nat (COLOR_DIM B)) lit_0;
     done := negb inside |}.

(** What the thread stores for its pixel. *)
Record pixel := {
  render_alpha : F;
  render_color : list F;
  last_id : Z;
}.

(** The stores under [if (inside)]; [None] when the thread owns no pixel. *)
Definition finalize (st : pix_state) : option pixel :=
  if inside then
    Some {| render_alpha := fsub lit_1 (T st);
            render_color :=
              imap (fun k p =>
                      match backgrounds_cam with
                      | None => p
                      | Some bg => fadd p (fmul (T st) (bg (Z.of_nat k)))
                      end) (pix_out st);
            last_id := i32 (cur_idx st) |}
  else None.

End Thread.

(** One thread of the block: its index and its locals. *)
Record thread := {
  th_idx : thread_index;
  th_st : pix_state;
}.

(** The threads of a [tile_size x tile_size] block in rank order
    ([thread_rank = y * tile_size + x]), each with its initial locals. *)
Definition block_threads : list thread :=
  flat_map (fun y =>
    map (fun x => {| th_idx := {| tx := x; ty := y |};
                     th_st := init_state {| tx := x; ty := y |} |})
        (seqZ 0 (tile_size a)))
    (seqZ 0 (tile_size a)).

(** [__syncthreads_count(done)]. *)
Definition syncthreads_count (ths : list thread) : Z :=
  Z.of_nat (length (List.filter (fun th => done (th_st th)) ths)).

Definition thread_batch (sh : shared_mem) (b : Z) (th : thread) : thread :=
  {| th_idx := th_idx th;
     th_st := process_batch (th_idx th) sh b (th_st th) |}.

(** [for (b = 0; b < num_batches; ++b)] run by the whole block in lock
    step, with [n] iterations left: the tile-wide early exit, the
    cooperative load and barrier, then every thread's inner loop. *)
Fixpoint batches_loop (n : nat) (b : Z) (sh : shared_mem) (ths : list thread)
  : list thread :=
  match n with
  | O => ths
  | S n' =>
    if block_size <=? syncthreads_count ths then ths
    else
      let sh' := load_batch b sh in
      batches_loop n' (b + 1) sh' (map (thread_batch sh' b) ths)
  end.

(** The kernel on one block; [sh0] is the content of the shared arrays at
    entry, which the source leaves uninitialised. *)
Definition run_block (sh0 : shared_mem) : list thread :=
  batches_loop (Z.to_nat num_batches) 0 sh0 block_threads.

Definition block_output (sh0 : shared_mem) : list (option pixel) :=
  map (fun th => finalize (th_idx th) (th_st th)) (run_block sh0).

End Kernel.
End Fwd.

(** *** The entry point [rasterize_to_pixels_fwd_tensor] *)

Module FwdHost.
Import Host.

Section Entry.
Context {Sc : Scalar}.

(** [CHECK_INPUT] is a macro of helpers.cuh, which is not part of the
    sources: a parameter that says with which message, if any, the check of
    a tensor raises. *)
Variable CHECK_INPUT : forall A, tensor A -> option string.
(** Whether [cudaFuncSetAttribute] on the kernel instantiated at a colour
    dimension, asked for a number of bytes of shared memory, succeeds. *)
Variable cudaFuncSetAttribute : Z -> Z -> bool.

Inductive event :=
| Empty (shape : list Z)                 (* [torch::empty] *)
| SetAttribute (COLOR_DIM bytes : Z)
| Launch (COLOR_DIM : Z) (blocks threads : Z * Z * Z) (bytes : Z)
         (args : Fwd.kernel_args).

Definition check {A} (t : tensor A) : M event unit :=
  match CHECK_INPUT A t with
  | Some msg => throw msg
  | None => ret tt
  end.

(** The [float] data of a tensor read as an array of [float2], [float3]. *)
Definition as_float2 (p : Z -> F) (k : Z) : Fwd.float2 :=
  Fwd.mk_float2 (p (2 * k)) (p (2 * k + 1)).
Definition as_float3 (p : Z -> F) (k : Z) : Fwd.float3 :=
  Fwd.mk_float3 (p (3 * k)) (p (3 * k + 1)) (p (3 * k + 2)).

(** The body shared by every [case] of the switch: set the attribute, raise
    when that fails, launch the kernel instantiated at [COLOR_DIM]. *)
Definition case_body (COLOR_DIM : Z) (blocks threads : Z * Z * Z)
    (shared_mem : Z) (args : Fwd.kernel_args) : M event unit :=
  emit (SetAttribute COLOR_DIM shared_mem) ;;;
  (if negb (cudaFuncSetAttribute COLOR_DIM shared_mem)
   then throw ("Failed to set maximum shared memory size (requested "
               +:+ pretty shared_mem +:+ " bytes), try lowering tile_size.")
   else ret tt) ;;;
  emit (Launch COLOR_DIM blocks threads shared_mem args).

(** The three tensors returned, by their shapes; their elements are what
    the launched kernel stores ([Fwd.block_output]). *)
Record result := {
  renders : list Z;
  alphas : list Z;
  last_ids : list Z;
}.

(** The [switch (channels)]: one [case] per supported colour dimension,
    each running the same body at its own instantiation of the kernel. *)
Definition dispatch (case : Z -> M event unit) (channels : Z) : M event unit :=
  match channels with
  | 1 => case 1
  | 2 => case 2
  | 3 => case 3
  | 4 => case 4
  | 5 => case 5
  | 8 => case 8
  | 9 => case 9
  | 16 => case 16
  | 17 => case 17
  | 32 => case 32
  | 33 => case 33
  | 64 => case 64
  | 65 => case 65
  | 128 => case 128
  | 129 => case 129
  | 256 => case 256
  | 257 => case 257
  | 512 => case 512
  | 513 => case 513
  | _ => throw ("Unsupported number of channels: " +:+ pretty channels)
  end.

Definition rasterize_to_pixels_fwd_tensor
    (means2d conics colors opacities : tensor F)
    (backgrounds : option (tensor F))
    (image_width image_height tile_size : Z)
    (tile_offsets flatten_ids : tensor Z) : M event result :=
  check means2d ;;;
  check conics ;;;
  check colors ;;;
  check opacities ;;;
  check tile_offsets ;;;
  check flatten_ids ;;;
  match backgrounds with
  | Some bg => check bg
  | None => ret tt
  end ;;;
  let packed := dim means2d =? 2 in
  C <- size tile_offsets 0 ;;
  let C := u32 C in
  N <- (if packed then ret 0 else size means2d 1) ;;
  let N := u32 N in
  channels <- size colors (-1) ;;
  let channels := u32 channels in
  tile_height <- size tile_offsets 1 ;;
  let tile_height := u32 tile_height in
  tile_width <- size tile_offsets 2 ;;
  let tile_width := u32 tile_width in
  n_isects <- size flatten_ids 0 ;;
  let n_isects := u32 n_isects in
  let threads := (tile_size, tile_size, 1) in
  let blocks := (C, tile_height, tile_width) in
  let renders := [C; image_height; image_width; channels] in
  let alphas := [C; image_height; image_width; 1] in
  let last_ids := [C; image_height; image_width] in
  emit (Empty renders) ;;;
  emit (Empty alphas) ;;;
  emit (Empty last_ids) ;;;
  let shared_mem := u32 (tile_size * tile_size * (4 + 12 + 12)) in
  let args :=
    {| Fwd.C := C; Fwd.N := N; Fwd.n_isects := n_isects; Fwd.packed := packed;
       Fwd.means2d := as_float2 (data_ptr means2d);
       Fwd.conics := as_float3 (data_ptr conics);
       Fwd.colors := data_ptr colors;
       Fwd.opacities := data_ptr opacities;
       Fwd.backgrounds := data_ptr <$> backgrounds;
       Fwd.image_width := image_width; Fwd.image_height := image_height;
       Fwd.tile_size := tile_size;
       Fwd.tile_width := tile_width; Fwd.tile_height := tile_height;
       Fwd.tile_offsets := data_ptr tile_offsets;
       Fwd.flatten_ids := data_ptr flatten_ids |} in
  dispatch (fun COLOR_DIM =>
              case_body COLOR_DIM blocks threads shared_mem args) channels ;;;
  ret {| renders := renders; alphas := alphas; last_ids := last_ids |}.

(** An event that runs a kernel. *)
Definition is_launch (e : event) : bool :=
  match e with
  | Launch _ _ _ _ _ => true
  | _ => false
  end.

(** The channel count the entry point dispatches on: the last size of
    [colors], converted to [uint32_t]. *)
Definition channel_count (colors : tensor F) : Z :=
  u32 (List.last (sizes colors) 0).

(** Every [CHECK_INPUT] of the entry point passes, and the tensors have the
    dimensions whose sizes the entry point reads. *)
Definition inputs_ok (means2d conics colors opacities : tensor F)
    (backgrounds : option (tensor F)) (tile_offsets flatten_ids : tensor Z)
  : Prop :=
  CHECK_INPUT F means2d = None /\ CHECK_INPUT F conics = None
  /\ CHECK_INPUT F colors = None /\ CHECK_INPUT F opacities = None
  /\ CHECK_INPUT Z tile_offsets = None /\ CHECK_INPUT Z flatten_ids = None
  /\ (forall bg, backgrounds = Some bg -> CHECK_INPUT F bg = None)
  /\ (length (sizes means2d) = 2 \/ length (sizes means2d) = 3)%nat
  /\ length (sizes tile_offsets) = 3%nat
  /\ (1 <= length (sizes colors))%nat
  /\ length (sizes flatten_ids) = 1%nat.

End Entry.
End FwdHost.

(** ** fully_fused_projection_packed_bwd.cu *)

Module Bwd.

Section Kernel.
Context {Sc : Scalar}.

(** [glm] vectors and matrices, by their components: [v i] is [v[i]] and
    [m c r] is [m[c][r]] (column first). *)
Definition vec : Type := nat -> F.
Definition mat : Type := nat -> nat -> F.

Definition vec2_of (v0 v1 : F) : vec :=
  fun i => match i with O => v0 | _ => v1 end.
Definition vec3_of (v0 v1 v2 : F) : vec :=
  fun i => match i with O => v0 | 1%nat => v1 | _ => v2 end.
Definition vec4_of (v0 v1 v2 v3 : F) : vec :=
  fun i => match i with O => v0 | 1%nat => v1 | 2%nat => v2 | _ => v3 end.
(** [glm::mat2(a, b, c, d)] and [glm::mat3(...)] list their columns. *)
Definition mat2_of (m00 m01 m10 m11 : F) : mat :=
  fun c => match c with O => vec2_of m00 m01 | _ => vec2_of m10 m11 end.
Definition mat3_of (m00 m01 m02 m10 m11 m12 m20 m21 m22 : F) : mat :=
  fun c => match c with
           | O => vec3_of m00 m01 m02
           | 1%nat => vec3_of m10 m11 m12
           | _ => vec3_of m20 m21 m22
           end.
(** [glm::vec3(0.f)], [glm::mat3(0.f)]. *)
Definition vec_zero : vec := fun _ => lit_0.
Definition mat_zero : mat := fun _ _ => lit_0.

(** The device helpers of helpers.cuh and utils.cuh, which are not part of
    the sources: each is a parameter.  A helper that writes through
    reference arguments takes their values at the call and returns their
    values after it. *)
Record helpers := {
  inverse_vjp : mat -> mat -> mat -> mat;
  add_blur_vjp : F -> mat -> F -> F -> mat -> mat;
  quat_scale_to_covar_preci : vec -> vec -> mat;
  pos_world_to_cam : mat -> vec -> vec -> vec;
  covar_world_to_cam : mat -> mat -> mat;
  persp_proj_vjp :
    vec -> mat -> F -> F -> F -> F -> Z -> Z -> mat -> vec ->
    vec -> mat -> vec * mat;
  pos_world_to_cam_vjp :
    mat -> vec -> vec -> vec -> mat -> vec -> vec -> mat * vec * vec;
  covar_world_to_cam_vjp : mat -> mat -> mat -> mat -> mat -> mat * mat;
  quat_to_rotmat : vec -> mat;
  quat_scale_to_covar_vjp :
    vec -> vec -> mat -> mat -> vec -> vec -> vec * vec;
  (** what an uninitialised [glm::vec4] / [glm::vec3] local holds *)
  indeterminate : vec;
}.

(** The kernel's read-only arguments; a null pointer is [None]. *)
Record kernel_args := {
  C : Z;
  N : Z;
  nnz : Z;
  means : Z -> F;
  covars : option (Z -> F);
  quats : option (Z -> F);
  scales : option (Z -> F);
  viewmats : Z -> F;
  Ks : Z -> F;
  image_width : Z;
  image_height : Z;
  eps2d : F;
  camera_ids : Z -> Z;
  gaussian_ids : Z -> Z;
  conics : Z -> F;
  compensations : option (Z -> F);
  v_means2d : Z -> F;
  v_depths : Z -> F;
  v_conics : Z -> F;
  v_compensations : option (Z -> F);
  sparse_grad : bool;
}.

(** The gradient buffers the kernel writes; a null pointer is [None]. *)
Record grads := {
  v_means : option (list F);
  v_covars : option (list F);
  v_quats : option (list F);
  v_scales : option (list F);
  v_viewmats : option (list F);
}.

Definition non_null {A} (p : option A) : bool :=
  match p with Some _ => true | None => false end.

Inductive buffer := BMeans | BCovars | BQuats | BScales | BViewmats.

(** A write to global memory: a plain store or an [atomicAdd]. *)
Inductive op :=
| Store (b : buffer) (addr : Z) (v : F)
| AtomicAdd (b : buffer) (addr : Z) (v : F).

(** What a thread holds when it reaches the write-out (line 125). *)
Record locals := {
  idx : Z;
  cid : Z;
  gid : Z;
  v_mean : vec;
  v_covar : mat;
  v_R : mat;
  v_t : vec;
  quat : vec;
  scale : vec;
}.

Variable H : helpers.
Variable k : kernel_args.

(** Lines 52-123 for the thread of grid rank [i] ([i < nnz]).  [None] when
    the thread reads through a null pointer. *)
Definition thread_locals (i : Z) : option locals :=
  let cid := camera_ids k i in
  let gid := gaussian_ids k i in
  let means' j := means k (gid * 3 + j) in
  let viewmats' j := viewmats k (cid * 16 + j) in
  let Ks' j := Ks k (cid * 9 + j) in
  let conics' j := conics k (u32 (i * 3) + j) in
  let v_means2d' j := v_means2d k (u32 (i * 2) + j) in
  let v_depths' j := v_depths k (i + j) in
  let v_conics' j := v_conics k (u32 (i * 3) + j) in
  let covar2d_inv := mat2_of (conics' 0) (conics' 1) (conics' 1) (conics' 2) in
  let v_covar2d_inv :=
    mat2_of (v_conics' 0) (fmul (v_conics' 1) lit_0_5)
            (fmul (v_conics' 1) lit_0_5) (v_conics' 2) in
  let v_covar2d := inverse_vjp H covar2d_inv v_covar2d_inv mat_zero in
  v_covar2d ←
    match v_compensations k with
    | Some v_comp =>
      comp ← compensations k;
      Some (add_blur_vjp H (eps2d k) covar2d_inv (comp i) (v_comp i) v_covar2d)
    | None => Some v_covar2d
    end;
  let R := mat3_of (viewmats' 0) (viewmats' 4) (viewmats' 8)
                   (viewmats' 1) (viewmats' 5) (viewmats' 9)
                   (viewmats' 2) (viewmats' 6) (viewmats' 10) in
  let t := vec3_of (viewmats' 3) (viewmats' 7) (viewmats' 11) in
  '(covar, quat, scale) ←
    match covars k with
    | Some cov =>
      let covars' j := cov (gid * 6 + j) in
      Some (mat3_of (covars' 0) (covars' 1) (covars' 2)
                    (covars' 1) (covars' 3) (covars' 4)
                    (covars' 2) (covars' 4) (covars' 5),
            indeterminate H, indeterminate H)
    | None =>
      q ← quats k;
      s ← scales k;
      let quat := vec4_of (q (gid * 4)) (q (gid * 4 + 1))
                          (q (gid * 4 + 2)) (q (gid * 4 + 3)) in
      let scale := vec3_of (s (gid * 3)) (s (gid * 3 + 1)) (s (gid * 3 + 2)) in
      Some (quat_scale_to_covar_preci H quat scale, quat, scale)
    end;
  let mean := vec3_of (means' 0) (means' 1) (means' 2) in
  let mean_c := pos_world_to_cam H R t mean in
  let covar_c := covar_world_to_cam H R covar in
  let fx := Ks' 0 in
  let cx := Ks' 2 in
  let fy := Ks' 4 in
  let cy := Ks' 5 in
  let '(v_mean_c, v_covar_c) :=
    persp_proj_vjp H mean_c covar_c fx fy cx cy
                   (image_width k) (image_height k) v_covar2d
                   (vec2_of (v_means2d' 0) (v_means2d' 1))
                   vec_zero mat_zero in
  let v_mean_c :=
    vec3_of (v_mean_c 0%nat) (v_mean_c 1%nat)
            (fadd (v_mean_c 2%nat) (v_depths' 0)) in
  let '(v_R, v_t, v_mean) :=
    pos_world_to_cam_vjp H R t mean v_mean_c mat_zero vec_zero vec_zero in
  let '(v_R, v_covar) :=
    covar_world_to_cam_vjp H R covar v_covar_c v_R mat_zero in
  Some {| idx := i; cid := cid; gid := gid;
          v_mean := v_mean; v_covar := v_covar; v_R := v_R; v_t := v_t;
          quat := quat; scale := scale |}.

(** [quat_scale_to_covar_vjp] as both layouts call it. *)
Definition v_quat_scale (l : locals) : vec * vec :=
  let rotmat := quat_to_rotmat H (quat l) in
  quat_scale_to_covar_vjp H (quat l) (scale l) rotmat (v_covar l)
                          vec_zero vec_zero.

(** The six values written for a covariance gradient [m]. *)
Definition covar_entries (m : mat) : list F :=
  [ m 0%nat 0%nat;
    fadd (m 0%nat 1%nat) (m 1%nat 0%nat);
    fadd (m 0%nat 2%nat) (m 2%nat 0%nat);
    m 1%nat 1%nat;
    fadd (m 1%nat 2%nat) (m 2%nat 1%nat);
    m 2%nat 2%nat ].

Definition vec_entries (n : nat) (v : vec) : list F := map v (seq 0 n).

(** The sixteen slots of a camera's row-major 4x4 block that the kernel
    touches: for each row [i < 3], [v_R[j][i]] at column [j < 3] and
    [v_t[i]] at column 3.  Given as (offset, value) pairs. *)
Definition viewmat_entries (vR : mat) (vt : vec) : list (Z * F) :=
  flat_map (fun i =>
    map (fun j => (Z.of_nat (i * 4 + j), vR j i)) (seq 0 3)
    ++ [(Z.of_nat (i * 4 + 3), vt i)]) (seq 0 3).

(** Sparse layout (lines 127-157): the thread stores its own values at
    the slots of its record. *)
Definition sparse_ops (g : grads) (l : locals) : list op :=
  (if non_null (v_means g)
   then imap (fun j v => Store BMeans (u32 (idx l * 3) + Z.of_nat j) v)
             (vec_entries 3 (v_mean l))
   else [])
  ++
  (if non_null (v_covars g)
   then imap (fun j v => Store BCovars (u32 (idx l * 6) + Z.of_nat j) v)
             (covar_entries (v_covar l))
   else
     let '(v_quat, v_scale) := v_quat_scale l in
     imap (fun j v => Store BQuats (u32 (idx l * 4) + Z.of_nat j) v)
          (vec_entries 4 v_quat)
     ++ imap (fun j v => Store BScales (u32 (idx l * 3) + Z.of_nat j) v)
             (vec_entries 3 v_scale)).

(** [cg::labeled_partition(warp, label)]: the group of a lane is the lanes
    of its warp that carry its label, in lane order. *)
Definition group (label : locals -> Z) (warp : list locals) (me : locals)
  : list locals :=
  List.filter (fun l => label l =? label me) warp.

(** [thread_rank() == 0] within the group. *)
Definition is_leader (label : locals -> Z) (warp : list locals) (me : locals)
  : bool :=
  match group label warp me with
  | l :: _ => idx l =? idx me
  | [] => false
  end.

(** Modelled from the spec: the helper [warpSum] of utils.cuh, which is not
    part of the sources, "performing an intra-group reduction (sum) of each
    unit's locally computed gradient across that group".  The sum of a
    non-empty group's values, taken in lane order. *)
Definition sum1 (vs : list F) : F :=
  match vs with
  | [] => lit_0
  | v :: vs' => foldl fadd v vs'
  end.

(** Modelled from the spec: [warpSum] on a vector and on a matrix leaves
    in every lane of the group the component-wise sum over the group. *)
Definition warpSum_vec (f : locals -> vec) (grp : list locals) : vec :=
  fun i => sum1 (map (fun l => f l i) grp).
Definition warpSum_mat (f : locals -> mat) (grp : list locals) : mat :=
  fun c r => sum1 (map (fun l => f l c r) grp).

(** Dense layout (lines 159-204): the group's sum, added atomically by
    the group's first lane at the slots of the primitive. *)
Definition dense_ops (g : grads) (warp : list locals) (l : locals) : list op :=
  let grp := group gid warp l in
  let leader := is_leader gid warp l in
  (if non_null (v_means g)
   then
     let s := warpSum_vec v_mean grp in
     if leader
     then imap (fun j v => AtomicAdd BMeans (gid l * 3 + Z.of_nat j) v)
               (vec_entries 3 s)
     else []
   else [])
  ++
  (if non_null (v_covars g)
   then
     let s := warpSum_mat v_covar grp in
     if leader
     then imap (fun j v => AtomicAdd BCovars (gid l * 6 + Z.of_nat j) v)
               (covar_entries s)
     else []
   else
     let sq := warpSum_vec (fun l' => fst (v_quat_scale l')) grp in
     let ss := warpSum_vec (fun l' => snd (v_quat_scale l')) grp in
     if leader
     then imap (fun j v => AtomicAdd BQuats (gid l * 4 + Z.of_nat j) v)
               (vec_entries 4 sq)
          ++ imap (fun j v => AtomicAdd BScales (gid l * 3 + Z.of_nat j) v)
                  (vec_entries 3 ss)
     else []).

(** Lines 206-222: [v_viewmats], whatever [sparse_grad] is. *)
Definition viewmat_ops (g : grads) (warp : list locals) (l : locals) : list op :=
  if non_null (v_viewmats g)
  then
    let grp := group cid warp l in
    let sR := warpSum_mat v_R grp in
    let st := warpSum_vec v_t grp in
    if is_leader cid warp l
    then map (fun e => AtomicAdd BViewmats (cid l * 16 + fst e) (snd e))
             (viewmat_entries sR st)
    else []
  else [].

(** The writes of one thread, in program order. *)
Definition thread_ops (g : grads) (warp : list locals) (l : locals) : list op :=
  (if sparse_grad k then sparse_ops g l else dense_ops g warp l)
  ++ viewmat_ops g warp l.

(** [N_THREADS] is a macro of helpers.cuh: a parameter. *)
Variable N_THREADS : Z.
(** The number of blocks of the launch. *)
Variable n_blocks : Z.

(** The grid ranks of the lanes of tile [w] of block [b] that pass
    [idx >= nnz] without returning. *)
Definition warp_lanes (b w : Z) : list Z :=
  List.filter (fun i => i <? nnz k)
    (map (fun r => u32 (b * N_THREADS + r))
         (seqZ (32 * w) (Z.min 32 (N_THREADS - 32 * w)))).

(** The warps of the grid: [cg::tiled_partition<32>] of every block. *)
Definition warps : list (list Z) :=
  flat_map (fun b => map (warp_lanes b) (seqZ 0 ((N_THREADS + 31) / 32)))
           (seqZ 0 n_blocks).

Definition warp_ops (g : grads) (lanes : list Z) : option (list op) :=
  ls ← mapM thread_locals lanes;
  Some (flat_map (thread_ops g ls) ls).

(** Every write of the launch, warp by warp and lane by lane. *)
Definition kernel_ops (g : grads) : option (list op) :=
  ops ← mapM (warp_ops g) warps;
  Some (concat ops).

Definition write (addr : Z) (f : F -> F) (b : option (list F))
  : option (list F) :=
  if addr <? 0 then b else alter f (Z.to_nat addr) <$> b.

(** The effect of one write.  A write outside its buffer, or through a null
    pointer, is undefined behaviour in the source; it changes nothing
    here. *)
Definition apply_op (g : grads) (o : op) : grads :=
  let '(b, addr, f) :=
    match o with
    | Store b addr v => (b, addr, fun _ : F => v)
    | AtomicAdd b addr v => (b, addr, fun old => fadd old v)
    end in
  match b with
  | BMeans => {| v_means := write addr f (v_means g); v_covars := v_covars g;
                 v_quats := v_quats g; v_scales := v_scales g;
                 v_viewmats := v_viewmats g |}
  | BCovars => {| v_means := v_means g; v_covars := write addr f (v_covars g);
                  v_quats := v_quats g; v_scales := v_scales g;
                  v_viewmats := v_viewmats g |}
  | BQuats => {| v_means := v_means g; v_covars := v_covars g;
                 v_quats := write addr f (v_quats g); v_scales := v_scales g;
                 v_viewmats := v_viewmats g |}
  | BScales => {| v_means := v_means g; v_covars := v_covars g;
                  v_quats := v_quats g; v_scales := write addr f (v_scales g);
                  v_viewmats := v_viewmats g |}
  | BViewmats => {| v_means := v_means g; v_covars := v_covars g;
                    v_quats := v_quats g; v_scales := v_scales g;
                    v_viewmats := write addr f (v_viewmats g) |}
  end.

(** The launch: the writes of all threads take effect one by one in the
    order [schedule] puts them (the hardware's interleaving, any
    permutation of the writes).  [None] when a thread faults. *)
Definition kernel (schedule : list op -> list op) (g : grads) : option grads :=
  ops ← kernel_ops g;
  Some (foldl apply_op g (schedule ops)).

End Kernel.
End Bwd.

(** *** The entry point [fully_fused_projection_packed_bwd_tensor] *)

Module BwdHost.
Import Host.

Section Entry.
Context {Sc : Scalar}.

(** [CHECK_INPUT] and [N_THREADS] are macros of helpers.cuh, which is not
    part of the sources; whether [NDEBUG] is defined is fixed by the build.
    All three are parameters, as are the device helpers and the order in
    which the hardware lets the writes of a launch take effect. *)
Variable CHECK_INPUT : forall A, tensor A -> option string.
Variable N_THREADS : Z.
Variable NDEBUG : bool.
Variable H : Bwd.helpers.
Variable schedule : list Bwd.op -> list Bwd.op.

Inductive event :=
| Zeros (shape : list Z)                 (* [torch::zeros], [torch::zeros_like] *)
| Launch (blocks threads : Z) (args : Bwd.kernel_args).

Definition check {A} (t : tensor A) : M event unit :=
  match CHECK_INPUT A t with
  | Some msg => throw msg
  | None => ret tt
  end.

Definition numel (shape : list Z) : Z := foldr Z.mul 1 shape.

(** A zero-filled tensor of a shape: the event and the buffer. *)
Definition zeros (shape : list Z) : M event (list Z * list F) :=
  emit (Zeros shape) ;;;
  ret (shape, replicate (Z.to_nat (numel shape)) lit_0).

(** A returned tensor: its shape and elements; [None] is an undefined
    tensor. *)
Definition out_tensor : Type := option (list Z * list F).

Record result := {
  r_means : out_tensor;
  r_covars : out_tensor;
  r_quats : out_tensor;
  r_scales : out_tensor;
  r_viewmats : out_tensor;
  (** [true] when a thread of the launch read through a null pointer (the
      elements above are then those before the launch). *)
  r_fault : bool;
}.

Definition fully_fused_projection_packed_bwd_tensor
    (means : tensor F) (covars quats scales : option (tensor F))
    (viewmats Ks : tensor F)
    (image_width image_height : Z) (eps2d : F)
    (camera_ids gaussian_ids : tensor Z) (conics : tensor F)
    (compensations : option (tensor F))
    (v_means2d v_depths v_conics : tensor F)
    (v_compensations : option (tensor F))
    (viewmats_requires_grad sparse_grad : bool) : M event result :=
  check means ;;;
  match covars with
  | Some c => check c
  | None =>
    assert NDEBUG "quats.has_value() && scales.has_value()"
           (Bwd.non_null quats && Bwd.non_null scales) ;;;
    q <- value quats ;; check q ;;;
    s <- value scales ;; check s
  end ;;;
  check viewmats ;;;
  check Ks ;;;
  check camera_ids ;;;
  check gaussian_ids ;;;
  check conics ;;;
  check v_means2d ;;;
  check v_depths ;;;
  check v_conics ;;;
  match compensations with
  | Some c => check c
  | None => ret tt
  end ;;;
  match v_compensations with
  | Some vc =>
    check vc ;;;
    assert NDEBUG "compensations.has_value()" (Bwd.non_null compensations)
  | None => ret tt
  end ;;;
  N <- size means 0 ;;
  let N := u32 N in
  C <- size viewmats 0 ;;
  let C := u32 C in
  nnz <- size camera_ids 0 ;;
  let nnz := u32 nnz in
  v_means <- zeros (if sparse_grad then [nnz; 3] else sizes means) ;;
  v_covars <-
    match covars with
    | Some c => t <- zeros (if sparse_grad then [nnz; 6] else sizes c) ;; ret (Some t)
    | None => ret None
    end ;;
  v_quats_scales <-
    match covars with
    | Some _ => ret (None, None)
    | None =>
      q <- value quats ;;
      vq <- zeros (if sparse_grad then [nnz; 4] else sizes q) ;;
      s <- value scales ;;
      vs <- zeros (if sparse_grad then [nnz; 3] else sizes s) ;;
      ret (Some vq, Some vs)
    end ;;
  v_viewmats <-
    (if viewmats_requires_grad
     then t <- zeros (if sparse_grad then [C; 4; 4] else sizes viewmats) ;;
          ret (Some t)
     else ret None) ;;
  let g0 :=
    {| Bwd.v_means := Some (snd v_means);
       Bwd.v_covars := snd <$> v_covars;
       Bwd.v_quats := snd <$> fst v_quats_scales;
       Bwd.v_scales := snd <$> snd v_quats_scales;
       Bwd.v_viewmats := snd <$> v_viewmats |} in
  g <-
    (if nnz =? 0 then ret (Some g0)
     else
       qp <- (match covars with
              | Some _ => ret None
              | None => q <- value quats ;; ret (Some (data_ptr q))
              end) ;;
       sp <- (match covars with
              | Some _ => ret None
              | None => s <- value scales ;; ret (Some (data_ptr s))
              end) ;;
       let args :=
         {| Bwd.C := C; Bwd.N := N; Bwd.nnz := nnz;
            Bwd.means := data_ptr means;
            Bwd.covars := data_ptr <$> covars;
            Bwd.quats := qp;
            Bwd.scales := sp;
            Bwd.viewmats := data_ptr viewmats;
            Bwd.Ks := data_ptr Ks;
            Bwd.image_width := image_width;
            Bwd.image_height := image_height;
            Bwd.eps2d := eps2d;
            Bwd.camera_ids := data_ptr camera_ids;
            Bwd.gaussian_ids := data_ptr gaussian_ids;
            Bwd.conics := data_ptr conics;
            Bwd.compensations := data_ptr <$> compensations;
            Bwd.v_means2d := data_ptr v_means2d;
            Bwd.v_depths := data_ptr v_depths;
            Bwd.v_conics := data_ptr v_conics;
            Bwd.v_compensations := data_ptr <$> v_compensations;
            Bwd.sparse_grad := sparse_grad |} in
       let blocks := u32 (nnz + N_THREADS - 1) / N_THREADS in
       emit (Launch blocks N_THREADS args) ;;;
       ret (Bwd.kernel H args N_THREADS blocks schedule g0)) ;;
  let out (t : out_tensor) (d : option (list F)) : out_tensor :=
    match t, d with
    | Some (shape, _), Some data => Some (shape, data)
    | _, _ => t
    end in
  let g' := default g0 g in
  ret {| r_means := out (Some v_means) (Bwd.v_means g');
         r_covars := out v_covars (Bwd.v_covars g');
         r_quats := out (fst v_quats_scales) (Bwd.v_quats g');
         r_scales := out (snd v_quats_scales) (Bwd.v_scales g');
         r_viewmats := out v_viewmats (Bwd.v_viewmats g');
         r_fault := negb (Bwd.non_null g) |}.

(** Every [CHECK_INPUT] of the entry point passes and the shape
    parameters, covariances or else quaternions and scales, are there. *)
Definition checks_ok (means : tensor F) (covars quats scales : option (tensor F))
    (viewmats Ks : tensor F) (camera_ids gaussian_ids : tensor Z)
    (conics : tensor F) (compensations : option (tensor F))
    (v_means2d v_depths v_conics : tensor F)
    (v_compensations : option (tensor F)) : Prop :=
  CHECK_INPUT F means = None
  /\ match covars with
     | Some c => CHECK_INPUT F c = None
     | None =>
       exists q s, quats = Some q /\ scales = Some s
                   /\ CHECK_INPUT F q = None /\ CHECK_INPUT F s = None
     end
  /\ CHECK_INPUT F viewmats = None /\ CHECK_INPUT F Ks = None
  /\ CHECK_INPUT Z camera_ids = None /\ CHECK_INPUT Z gaussian_ids = None
  /\ CHECK_INPUT F conics = None
  /\ CHECK_INPUT F v_means2d = None /\ CHECK_INPUT F v_depths = None
  /\ CHECK_INPUT F v_conics = None
  /\ (forall c, compensations = Some c -> CHECK_INPUT F c = None)
  /\ (forall vc, v_compensations = Some vc -> CHECK_INPUT F vc = None).

Definition is_launch (e : event) : bool :=
  match e with
  | Launch _ _ _ => true
  | _ => false
  end.

End Entry.
End BwdHost.
(** ** Laws of the scalar operations

    The statements below that depend on arithmetic name the laws they
    use.  [OrderLaws] collects what the proofs need of comparison and
    rounding: comparisons that are false on NaN, monotone rounding, and
    the constants as bounds.  [UnitLaws] states identities that rounding
    keeps up to the sign of zero, [SumLaws] reads sums up to the order of
    their terms, and [FormLaws] states how negation passes through
    differences and products.  [ExactFacts] proves every class for the
    rationals and [FloatFacts] proves [FormLaws] for binary32. *)

(** The threshold [1.f / 255.f] of the negligible-contribution test. *)
Definition lit_inv_255 {Sc : Scalar} : F := fdiv lit_1 lit_255.

Class OrderLaws (Sc : Scalar) : Prop := {
  fle_trans : forall x y z, fle x y = true -> fle y z = true -> fle x z = true;
  (** Only numbers compare: an operand of a true comparison is a number,
      and a number is below or equal to itself. *)
  fle_number_l : forall x y, fle x y = true -> fle x x = true;
  fle_number_r : forall x y, fle x y = true -> fle y y = true;
  (** Numbers are totally ordered. *)
  flt_false_fle : forall x y,
    fle x x = true -> fle y y = true -> flt x y = false -> fle y x = true;
  fle_false_flt : forall x y,
    fle x x = true -> fle y y = true -> fle x y = false -> flt y x = true;
  flt_fle : forall x y, flt x y = true -> fle x y = true;
  flt_irrefl : forall x, flt x x = false;
  flt_fle_trans : forall x y z,
    flt x y = true -> fle y z = true -> flt x z = true;
  (** [min] returns its first argument or something below it, and a
      number when its first argument is one. *)
  fmin_le_l : forall c x, fle c c = true -> fle (fmin c x) c = true;
  (** The literals. *)
  lit_0_le_inv_255 : fle lit_0 lit_inv_255 = true;
  lit_0_999_le_1 : fle lit_0_999 lit_1 = true;
  lit_0_le_1 : fle lit_0 lit_1 = true;
  lit_1e_4_lt_1 : flt lit_1e_4 lit_1 = true;
  lit_0_le_1e_4 : fle lit_0 lit_1e_4 = true;
  (** Rounded subtraction from one and rounded multiplication on the unit
      interval. *)
  fsub_unit : forall x,
    fle lit_0 x = true -> fle x lit_1 = true ->
    fle lit_0 (fsub lit_1 x) = true /\ fle (fsub lit_1 x) lit_1 = true;
  fsub_anti : forall x y,
    fle lit_0 x = true -> fle x y = true -> fle y lit_1 = true ->
    fle (fsub lit_1 y) (fsub lit_1 x) = true;
  fmul_contract : forall x f,
    fle lit_0 x = true -> fle x lit_1 = true ->
    fle lit_0 f = true -> fle f lit_1 = true ->
    fle lit_0 (fmul x f) = true /\ fle (fmul x f) x = true;
  (** A value above the cut-off strictly shrinks when it is multiplied by
      one minus an opacity that passed the negligible-contribution test. *)
  fmul_shrinks : forall x al,
    flt lit_1e_4 x = true -> fle x lit_1 = true ->
    fle lit_inv_255 al = true -> fle al lit_0_999 = true ->
    flt (fmul x (fsub lit_1 al)) x = true;
}.

(** Neutral elements, and the difference of one with itself. *)
Class UnitLaws (Sc : Scalar) : Prop := {
  fsub_1_1 : fsub lit_1 lit_1 = lit_0;
  fadd_0_l : forall x, fadd lit_0 x = x;
  fmul_1_l : forall x, fmul lit_1 x = x;
}.

(** Addition is a commutative monoid: sums are taken up to their order. *)
Class SumLaws (Sc : Scalar) : Prop := {
  fadd_comm : forall x y, fadd x y = fadd y x;
  fadd_assoc : forall x y z, fadd x (fadd y z) = fadd (fadd x y) z;
  fadd_zero_l : forall x, fadd lit_0 x = x;
}.

(** A zero of either sign. *)
Definition is_zero {Sc : Scalar} (x : F) : Prop :=
  fle x lit_0 = true /\ fle lit_0 x = true.

(** The same number: the same value, or two zeros (which differ in sign
    at most). *)
Definition same_number {Sc : Scalar} (x y : F) : Prop :=
  x = y \/ (is_zero x /\ is_zero y).

(** A value that multiplication by zero leaves as it is: a zero of either
    sign, or not a number. *)
Definition absorbed {Sc : Scalar} (x : F) : Prop := fmul x lit_0 = x.

(** How negation passes through differences and products, which makes a
    quadratic form even.  Swapping the operands of a difference negates
    it, unless both differences are the literal zero (in binary32 the
    difference of equal numbers is [+0] either way); a value absorbed by
    zero changes a sum by the sign of a zero at most. *)
Class FormLaws (Sc : Scalar) : Prop := {
  fsub_swap : forall x y,
    fsub x y = fneg (fsub y x) \/ (fsub x y = lit_0 /\ fsub y x = lit_0);
  fmul_neg_l : forall x y, fmul (fneg x) y = fneg (fmul x y);
  fmul_neg_r : forall x y, fmul x (fneg y) = fneg (fmul x y);
  fneg_involutive : forall x, fneg (fneg x) = x;
  fmul_0_absorbed : forall x, absorbed (fmul x lit_0);
  fmul_absorbed_l : forall z y, absorbed z -> absorbed (fmul z y);
  fadd_absorbed_sign : forall s z,
    absorbed z -> same_number (fadd s z) (fadd s (fneg z));
}.


(** ** Definitions that follow the specification's words *)

Module Spec.
Section Spec.
Context {Sc : Scalar}.

(** "[sigma = 0.5*(conic.x*dx^2 + conic.z*dy^2) + conic.y*dx*dy] where
    [dx,dy] is pixel-center minus 2D mean", with [dx^2] written as the
    product [dx*dx] and the products taken from left to right, as C++
    reads the expression. *)
Definition sigma_spec (conic : Fwd.float3) (px py : F) (mean : Fwd.float2) : F :=
  let dx := fsub px (Fwd.f2x mean) in
  let dy := fsub py (Fwd.f2y mean) in
  fadd (fmul lit_0_5
          (fadd (fmul (fmul (Fwd.f3x conic) dx) dx)
                (fmul (fmul (Fwd.f3z conic) dy) dy)))
       (fmul (fmul (Fwd.f3y conic) dx) dy).

(** The sum of a list of scalars, front to back (the reference order for
    "the sum of sparse mode's per-record results grouped by primitive
    id"). *)
Definition fsum (vs : list F) : F := foldr fadd lit_0 vs.

(** The supported channel counts as the specification enumerates them. *)
Definition supported_channels : list Z :=
  [1; 2; 3; 4; 5; 8; 9; 16; 17; 32; 33; 64; 65; 128; 129; 256; 257; 512; 513].

End Spec.
End Spec.

(** ** Predicates used by the statements *)

Module FwdProp.
Import Fwd.
Section Props.
Context {Sc : Scalar}.
Variable B : block.
Local Abbreviation a := (args B).

(** The tile's range is a range of a 32-bit table and the block is not
    empty: what the tile-binning stage hands over. *)
Definition range_ok : Prop :=
  0 <= range_start B <= range_end B
  /\ range_end B < 2 ^ 31
  /\ 0 < tile_size a < 2 ^ 15.

(** The record at index [idx] of the flattened, depth-sorted list as the
    batch load stages it in shared memory. *)
Definition record_conic (idx : Z) : float3 := conics a (flatten_ids a idx).
Definition record_xy_opac (idx : Z) : float3 :=
  let g := flatten_ids a idx in
  mk_float3 (f2x (means2d a g)) (f2y (means2d a g)) (opacities a g).
Definition record_mean (idx : Z) : float2 := means2d a (flatten_ids a idx).

(** Every record of the tile's range fails the test of line 120 at the
    pixel of thread [ti]. *)
Definition all_skipped (ti : thread_index) : Prop :=
  forall idx,
    range_start B <= idx < range_end B ->
    skipped B ti (record_conic idx) (record_xy_opac idx) = true.

(** A transmittance on the unit interval. *)
Definition unit_T (st : pix_state) : Prop :=
  fle lit_0 (T st) = true /\ fle (T st) lit_1 = true.

(** A transmittance strictly above the cut-off (and at most one). *)
Definition above_cutoff (st : pix_state) : Prop :=
  flt lit_1e_4 (T st) = true /\ fle (T st) lit_1 = true.

(** The record left colour, transmittance and last-contributor index as
    they were. *)
Definition no_contribution (st st' : pix_state) : Prop :=
  T st' = T st /\ pix_out st' = pix_out st /\ cur_idx st' = cur_idx st.

(** From [st] to [st'] the transmittance did not grow and the coverage
    [1 - T] did not shrink. *)
Definition descends (st st' : pix_state) : Prop :=
  unit_T st'
  /\ fle (T st') (T st) = true
  /\ fle (fsub lit_1 (T st)) (fsub lit_1 (T st')) = true.

(** What the whole kernel makes of one thread of the block. *)
Definition thread_run (sh0 : shared_mem) (th : thread) : thread :=
  {| th_idx := th_idx th;
     th_st := thread_batches B (th_idx th)
                (Z.to_nat (num_batches B)) 0 sh0 (th_st th) |}.

End Props.

(** The claim that a record contributes nothing exactly when it fails the
    test of line 120, as the specification's reader would state it. *)
Definition skip_iff_claim (Sc : Scalar) : Prop :=
  forall (B : block) (ti : thread_index) sh b t st,
    done st = false ->
    (no_contribution st (snd (record_step B ti sh b t st))
     <-> skipped B ti (conic_batch sh t) (xy_opacity_batch sh t) = true).

(** The bound on the reported coverage as the specification's reader
    would state it: a pixel written from a transmittance strictly above
    the cut-off has coverage strictly below [1 - 1e-4]. *)
Definition coverage_below_claim (Sc : Scalar) : Prop :=
  forall (B : block) (ti : thread_index) st p,
    above_cutoff st -> finalize B ti st = Some p ->
    flt (render_alpha p) (fsub lit_1 lit_1e_4) = true.

End FwdProp.

(** ** A small scene

    One camera, one tile of 2 x 2 pixels and two records, both centred on
    the first pixel with opacity one and conic [(64, 0, 64)]: at the
    centre [sigma = 0] and [alpha = 0.999]; one pixel away the opacity is
    below the threshold. *)

Module Scene.
Import Fwd.
Section Scene.
Context {Sc : Scalar}.

Definition scene_args : kernel_args := {|
  C := 1; N := 2; n_isects := 2; packed := false;
  means2d := fun _ => mk_float2 lit_0_5 lit_0_5;
  conics := fun _ => mk_float3 (of_u32 64) lit_0 (of_u32 64);
  colors := fun _ => lit_1;
  opacities := fun _ => lit_1;
  backgrounds := Some (fun _ => lit_0_5);
  image_width := 2; image_height := 2; tile_size := 2;
  tile_width := 1; tile_height := 1;
  tile_offsets := fun _ => 0;
  flatten_ids := fun idx => idx;
|}.

Definition scene : block :=
  {| args := scene_args; COLOR_DIM := 3; bx := 0; by_ := 0; bz := 0 |}.

(** The shared arrays before the first load hold nothing of interest. *)
Definition sh0 : shared_mem := {|
  id_batch := fun _ => 0;
  xy_opacity_batch := fun _ => mk_float3 lit_0 lit_0 lit_0;
  conic_batch := fun _ => mk_float3 lit_0 lit_0 lit_0;
|}.

Definition sh1 : shared_mem := load_batch scene 0 sh0.

(** The thread of the first pixel and of the pixel diagonally opposite. *)
Definition centre : thread_index := {| tx := 0; ty := 0 |}.
Definition corner : thread_index := {| tx := 1; ty := 1 |}.

(** The first pixel after the first record. *)
Definition st1 : pix_state :=
  snd (record_step scene centre sh1 0 0 (init_state scene centre)).

End Scene.
End Scene.

(** ** A scene that ends just above the cut-off

    The scene above with opacities 0.99 and 0.989998 in binary32: at the
    first pixel [sigma = 0], so the two records leave the transmittance at
    [0.01 * 0.010002], just above [1e-4]. *)

Module CutoffScene.
Import Fwd.
Section Scene.
#[local] Existing Instance binary32.

Definition scene_args : kernel_args := {|
  C := 1; N := 2; n_isects := 2; packed := false;
  means2d := fun _ => mk_float2 lit_0_5 lit_0_5;
  conics := fun _ => mk_float3 (of_u32 64) lit_0 (of_u32 64);
  colors := fun _ => lit_1;
  opacities := fun g => if g =? 0 then B32.dec 99 100
                        else B32.dec 989998 1000000;
  backgrounds := Some (fun _ => lit_0_5);
  image_width := 2; image_height := 2; tile_size := 2;
  tile_width := 1; tile_height := 1;
  tile_offsets := fun _ => 0;
  flatten_ids := fun idx => idx;
|}.

Definition scene : block :=
  {| args := scene_args; COLOR_DIM := 3; bx := 0; by_ := 0; bz := 0 |}.

(** The first pixel at the end of its run of the kernel. *)
Definition final : pix_state :=
  thread_batches scene Scene.centre (Z.to_nat (num_batches scene)) 0
                 Scene.sh0 (init_state scene Scene.centre).

End Scene.
End CutoffScene.

(** ** Predicates on the backward kernel *)

Module BwdProp.
Import Bwd.
Section Props.
Context {Sc : Scalar}.

Definition buf (b : buffer) (g : grads) : option (list F) :=
  match b with
  | BMeans => v_means g
  | BCovars => v_covars g
  | BQuats => v_quats g
  | BScales => v_scales g
  | BViewmats => v_viewmats g
  end.

Definition buffer_eqb (b b' : buffer) : bool :=
  match b, b' with
  | BMeans, BMeans | BCovars, BCovars | BQuats, BQuats
  | BScales, BScales | BViewmats, BViewmats => true
  | _, _ => false
  end.

(** The values that the writes [ops] add atomically to slot [p] of buffer
    [b], and those they store there, in the order of [ops]. *)
Definition adds_to (b : buffer) (p : Z) (ops : list op) : list F :=
  flat_map (fun o =>
    match o with
    | AtomicAdd b' p' v => if buffer_eqb b b' && (p =? p') then [v] else []
    | Store _ _ _ => []
    end) ops.
Definition stores_to (b : buffer) (p : Z) (ops : list op) : list F :=
  flat_map (fun o =>
    match o with
    | Store b' p' v => if buffer_eqb b b' && (p =? p') then [v] else []
    | AtomicAdd _ _ _ => []
    end) ops.

(** What slot [p] of buffer [b] holds after [ops], when it held [x]. *)
Definition slot_after (b : buffer) (p : Z) (ops : list op) (x : F) : F :=
  foldl (fun acc o =>
    match o with
    | Store b' p' v => if buffer_eqb b b' && (p =? p') then v else acc
    | AtomicAdd b' p' v =>
      if buffer_eqb b b' && (p =? p') then fadd acc v else acc
    end) x ops.

(** The kernel's arguments with the layout flag set. *)
Definition with_layout (sparse : bool) (k : kernel_args) : kernel_args :=
  {| C := C k; N := N k; nnz := nnz k; means := means k; covars := covars k;
     quats := quats k; scales := scales k; viewmats := viewmats k; Ks := Ks k;
     image_width := image_width k; image_height := image_height k;
     eps2d := eps2d k; camera_ids := camera_ids k;
     gaussian_ids := gaussian_ids k; conics := conics k;
     compensations := compensations k; v_means2d := v_means2d k;
     v_depths := v_depths k; v_conics := v_conics k;
     v_compensations := v_compensations k; sparse_grad := sparse |}.

(** The optional inputs are there when the kernel reads them: the forward
    compensations when their gradient is given, quaternions and scales when
    no covariance is. *)
Definition no_null_read (k : kernel_args) : Prop :=
  (non_null (v_compensations k) = true -> non_null (compensations k) = true)
  /\ (non_null (covars k) = false ->
      non_null (quats k) = true /\ non_null (scales k) = true).

(** The launch covers the records with a grid whose ranks fit 32 bits, and
    the record slots of the sparse layout do too. *)
Definition launch_ok (k : kernel_args) (N_THREADS n_blocks : Z) : Prop :=
  0 < N_THREADS /\ 0 <= nnz k /\ nnz k + N_THREADS <= 2 ^ 32
  /\ 6 * nnz k <= 2 ^ 32
  /\ n_blocks = u32 (nnz k + N_THREADS - 1) / N_THREADS.

(** The buffers as the entry point hands them to the kernel: zero-filled,
    with [rows] rows for the primitives' gradients ([nnz] in the sparse
    layout, [N] in the dense one) and one 4x4 block per camera when the
    extrinsics' gradient is asked for. *)
Definition zero_grads (k : kernel_args) (rows : Z) (with_viewmats : bool)
  : grads :=
  let zeros n := replicate (Z.to_nat n) lit_0 in
  {| v_means := Some (zeros (rows * 3));
     v_covars := if non_null (covars k) then Some (zeros (rows * 6)) else None;
     v_quats := if non_null (covars k) then None else Some (zeros (rows * 4));
     v_scales := if non_null (covars k) then None else Some (zeros (rows * 3));
     v_viewmats := if with_viewmats then Some (zeros (C k * 16)) else None |}.

(** A thread's locals, when it reads no null pointer. *)
Definition locals_zero : locals :=
  {| idx := 0; cid := 0; gid := 0; v_mean := vec_zero; v_covar := mat_zero;
     v_R := mat_zero; v_t := vec_zero; quat := vec_zero; scale := vec_zero |}.
Definition record_locals (H : helpers) (k : kernel_args) (i : Z) : locals :=
  default locals_zero (thread_locals H k i).

(** "The sum of sparse mode's per-record results grouped by primitive
    id": the sum, over the records [i] of primitive [g] in record order,
    of component [j] of record [i]'s row in the sparse buffer. *)
Definition grouped_sum (k : kernel_args) (stride : Z) (sparse : list F)
    (g j : Z) : F :=
  Spec.fsum
    (map (fun i => default lit_0 (sparse !! Z.to_nat (i * stride + j)))
         (List.filter (fun i => gaussian_ids k i =? g) (seqZ 0 (nnz k)))).

(** The twelve values a record contributes to its camera's 4x4 block, in
    slot order (rows of [v_R] transposed, each followed by its [v_t]). *)
Definition viewmat_values (vR : mat) (vt : vec) : list F :=
  map snd (viewmat_entries vR vt).

(** The sum over the records of camera [c], in record order, of value [j]
    of their contribution to the camera's block. *)
Definition camera_sum (H : helpers) (k : kernel_args) (c : Z) (j : nat) : F :=
  Spec.fsum
    (map (fun i => default lit_0
                     (viewmat_values (v_R (record_locals H k i))
                                     (v_t (record_locals H k i)) !! j))
         (List.filter (fun i => camera_ids k i =? c) (seqZ 0 (nnz k)))).

(** A field of the gradient as the write-out treats it: its buffer, the
    stride of a row, the label that groups lanes (and names the row in the
    dense layout), the values one record contributes to its row, and the
    values a group contributes once [warpSum] has run. *)
Record channel := {
  ch_buf : buffer;
  ch_stride : Z;
  ch_label : locals -> Z;
  ch_one : locals -> list F;
  ch_group : list locals -> list F;
}.

Definition ch_means : channel :=
  {| ch_buf := BMeans; ch_stride := 3; ch_label := gid;
     ch_one := fun l => vec_entries 3 (v_mean l);
     ch_group := fun grp => vec_entries 3 (warpSum_vec v_mean grp) |}.
Definition ch_covars : channel :=
  {| ch_buf := BCovars; ch_stride := 6; ch_label := gid;
     ch_one := fun l => covar_entries (v_covar l);
     ch_group := fun grp => covar_entries (warpSum_mat v_covar grp) |}.
Definition ch_quats (H : helpers) : channel :=
  {| ch_buf := BQuats; ch_stride := 4; ch_label := gid;
     ch_one := fun l => vec_entries 4 (fst (v_quat_scale H l));
     ch_group := fun grp =>
       vec_entries 4 (warpSum_vec (fun l => fst (v_quat_scale H l)) grp) |}.
Definition ch_scales (H : helpers) : channel :=
  {| ch_buf := BScales; ch_stride := 3; ch_label := gid;
     ch_one := fun l => vec_entries 3 (snd (v_quat_scale H l));
     ch_group := fun grp =>
       vec_entries 3 (warpSum_vec (fun l => snd (v_quat_scale H l)) grp) |}.
Definition ch_viewmats : channel :=
  {| ch_buf := BViewmats; ch_stride := 16; ch_label := cid;
     ch_one := fun l => viewmat_values (v_R l) (v_t l);
     ch_group := fun grp =>
       viewmat_values (warpSum_mat v_R grp) (warpSum_vec v_t grp) |}.

(** The atomic adds of a lane for a channel in the dense layout, and the
    stores of a record in the sparse one. *)
Definition leader_adds (ch : channel) (warp : list locals) (l : locals)
  : list op :=
  if is_leader (ch_label ch) warp l
  then imap (fun j v =>
               AtomicAdd (ch_buf ch)
                         (ch_label ch l * ch_stride ch + Z.of_nat j) v)
            (ch_group ch (group (ch_label ch) warp l))
  else [].
Definition record_stores (ch : channel) (l : locals) : list op :=
  imap (fun j v =>
          Store (ch_buf ch) (u32 (idx l * ch_stride ch) + Z.of_nat j) v)
       (ch_one ch l).

(** A channel of [n] values per row: rows hold that many values, within
    the stride, and what a group contributes is, value by value, the sum
    of what its records contribute. *)
Definition channel_ok (ch : channel) (n : nat) : Prop :=
  0 <= Z.of_nat n <= ch_stride ch
  /\ (forall l, length (ch_one ch l) = n)
  /\ (forall grp, length (ch_group ch grp) = n)
  /\ (forall grp j, (j < n)%nat ->
        ch_group ch grp !! j
        = Some (Spec.fsum (map (fun l => default lit_0 (ch_one ch l !! j)) grp))).

(** The sum over the records [i] of [idxs] that carry label [base], in
    order, of value [j] of what record [i] contributes to channel [ch]. *)
Definition channel_sum (ch : channel) (loc : Z -> locals) (idxs : list Z)
    (base : Z) (j : nat) : F :=
  Spec.fsum
    (map (fun i => default lit_0 (ch_one ch (loc i) !! j))
         (List.filter (fun i => ch_label ch (loc i) =? base) idxs)).

(** The channels a launch writes among the primitives' gradients, given
    the buffers it was handed: the means, then the covariances or else
    quaternions and scales. *)
Inductive active (H : helpers) (g : grads) : channel -> Prop :=
| active_means : non_null (v_means g) = true -> active H g ch_means
| active_covars : non_null (v_covars g) = true -> active H g ch_covars
| active_quats : non_null (v_covars g) = false -> active H g (ch_quats H)
| active_scales : non_null (v_covars g) = false -> active H g (ch_scales H).

(** Every record names a camera below [C] and a primitive below [N], so
    that no write of the dense layout leaves its buffer. *)
Definition ids_in_range (k : kernel_args) : bool :=
  forallb (fun i => (0 <=? camera_ids k i) && (camera_ids k i <? C k)
                    && (0 <=? gaussian_ids k i) && (gaussian_ids k i <? N k))
          (seqZ 0 (nnz k)).

(** The buffers and their strides in the primitives' gradients. *)
Definition primitive_buffers : list (buffer * Z) :=
  [(BMeans, 3); (BCovars, 6); (BQuats, 4); (BScales, 3)].

End Props.
End BwdProp.

(** * The arguments of the backward launch *)

Module BwdHostProp.
Import Host.
Section Props.
Context {Sc : Scalar}.

(** The arguments that [fully_fused_projection_packed_bwd_tensor] passes
    to its kernel (lines 300-320), from the tensors of the call. *)
Definition entry_args
    (means : tensor F) (covars quats scales : option (tensor F))
    (viewmats Ks : tensor F)
    (image_width image_height : Z) (eps2d : F)
    (camera_ids gaussian_ids : tensor Z) (conics : tensor F)
    (compensations : option (tensor F))
    (v_means2d v_depths v_conics : tensor F)
    (v_compensations : option (tensor F))
    (sparse_grad : bool) : Bwd.kernel_args :=
  {| Bwd.C := u32 (nth 0 (sizes viewmats) 0);
     Bwd.N := u32 (nth 0 (sizes means) 0);
     Bwd.nnz := u32 (nth 0 (sizes camera_ids) 0);
     Bwd.means := data_ptr means;
     Bwd.covars := data_ptr <$> covars;
     Bwd.quats := if Bwd.non_null covars then None else data_ptr <$> quats;
     Bwd.scales := if Bwd.non_null covars then None else data_ptr <$> scales;
     Bwd.viewmats := data_ptr viewmats;
     Bwd.Ks := data_ptr Ks;
     Bwd.image_width := image_width;
     Bwd.image_height := image_height;
     Bwd.eps2d := eps2d;
     Bwd.camera_ids := data_ptr camera_ids;
     Bwd.gaussian_ids := data_ptr gaussian_ids;
     Bwd.conics := data_ptr conics;
     Bwd.compensations := data_ptr <$> compensations;
     Bwd.v_means2d := data_ptr v_means2d;
     Bwd.v_depths := data_ptr v_depths;
     Bwd.v_conics := data_ptr v_conics;
     Bwd.v_compensations := data_ptr <$> v_compensations;
     Bwd.sparse_grad := sparse_grad |}.

End Props.
End BwdHostProp.

(** ** Calls of the entry points on small tensors *)

Module HostScene.
Import Host.
Section HostScene.
Context {Sc : Scalar}.

(** A stand-in for the macro [CHECK_INPUT]: the tensor is on the device
    and contiguous. *)
Definition check_input (A : Type) (t : tensor A) : option string :=
  if negb (is_cuda t) then Some "must be a CUDA tensor"
  else if negb (is_contiguous t) then Some "must be contiguous"
  else None.

Definition filled {A} (shape : list Z) (v : A) : tensor A :=
  {| sizes := shape; is_cuda := true; is_contiguous := true;
     data_ptr := fun _ => v |}.

Definition indices (n : Z) : tensor Z :=
  {| sizes := [n]; is_cuda := true; is_contiguous := true;
     data_ptr := fun i => i |}.

(** The forward call of the scene, with colours of [channels] channels. *)
Definition fwd_call (channels : Z)
  : list FwdHost.event * outcome FwdHost.result :=
  run (FwdHost.rasterize_to_pixels_fwd_tensor
         check_input (fun _ _ => true)
         (filled [1; 2; 2] lit_0_5) (filled [1; 2; 3] lit_1)
         (filled [1; 2; channels] lit_1) (filled [1; 2] lit_1)
         None 2 2 2 (filled [1; 1; 1] 0) (indices 2)).

(** Stand-ins for the device helpers: each returns its gradient argument
    (or the argument it transforms) unchanged. *)
Definition plain_helpers : Bwd.helpers := {|
  Bwd.inverse_vjp := fun _ v _ => v;
  Bwd.add_blur_vjp := fun _ _ _ _ v => v;
  Bwd.quat_scale_to_covar_preci := fun _ _ => Bwd.mat_zero;
  Bwd.pos_world_to_cam := fun _ _ m => m;
  Bwd.covar_world_to_cam := fun _ c => c;
  Bwd.persp_proj_vjp := fun m _ _ _ _ _ _ _ v vm _ _ => (m, v);
  Bwd.pos_world_to_cam_vjp := fun R _ _ v _ _ _ => (R, v, v);
  Bwd.covar_world_to_cam_vjp := fun _ _ v vR _ => (vR, v);
  Bwd.quat_to_rotmat := fun _ => Bwd.mat_zero;
  Bwd.quat_scale_to_covar_vjp := fun q s _ _ _ _ => (q, s);
  Bwd.indeterminate := Bwd.vec_zero;
|}.

(** The backward call on three records of two primitives and one camera,
    with quaternions and scales, and a compensation gradient without the
    forward compensations. *)
Definition bwd_call_mismatch (NDEBUG : bool)
  : list BwdHost.event * outcome BwdHost.result :=
  run (BwdHost.fully_fused_projection_packed_bwd_tensor
         check_input 256 NDEBUG plain_helpers (fun ops => ops)
         (filled [2; 3] lit_1) None
         (Some (filled [2; 4] lit_1)) (Some (filled [2; 3] lit_1))
         (filled [1; 4; 4] lit_1) (filled [1; 3; 3] lit_1)
         2 2 lit_0
         (filled [3] 0) (filled [3] 0) (filled [3; 3] lit_1)
         None
         (filled [3; 2] lit_1) (filled [3] lit_1) (filled [3; 3] lit_1)
         (Some (filled [3] lit_1))
         true false).

Definition alternating (n : Z) : tensor Z :=
  {| sizes := [n]; is_cuda := true; is_contiguous := true;
     data_ptr := fun i => i mod 2 |}.

Definition ramp (shape : list Z) : tensor F :=
  {| sizes := shape; is_cuda := true; is_contiguous := true;
     data_ptr := fun i => of_u32 i |}.

(** The arguments of a backward launch on three records of two
    primitives (records 0 and 2 of the first, record 1 of the second) and
    one camera, with covariances. *)
Definition bwd_args (sparse : bool) : Bwd.kernel_args :=
  BwdHostProp.entry_args
    (filled [2; 3] lit_1) (Some (filled [2; 6] lit_1)) None None
    (filled [1; 4; 4] lit_1) (filled [1; 3; 3] lit_1)
    2 2 lit_0
    (filled [3] 0) (alternating 3) (filled [3; 3] lit_1)
    None
    (ramp [3; 2]) (filled [3] lit_1) (ramp [3; 3])
    None sparse.

End HostScene.
End HostScene.
(** * Further properties: definitions *)

(** ** The compositor, record by record *)

Module FwdSeq.
Import Fwd FwdProp.
Section Seq.
Context {Sc : Scalar}.
Variable B : block.
Variable ti : thread_index.

(** The body of the inner loop (lines 112-139) on the record at index
    [idx] of the flattened list, read from global memory instead of the
    shared arrays. *)
Definition direct_step (idx : Z) (st : pix_state) : ctl * pix_state :=
  let conic := record_conic B idx in
  let xy_opac := record_xy_opac B idx in
  if skipped B ti conic xy_opac then (Next, st)
  else if fle (next_T B ti st conic xy_opac) lit_1e_4
  then (Break, {| T := T st; cur_idx := cur_idx st;
                  pix_out := pix_out st; done := true |})
  else
    (Next, {| T := next_T B ti st conic xy_opac;
              cur_idx := idx;
              pix_out := accumulate B (flatten_ids (args B) idx)
                           (fmul (alpha B ti conic xy_opac) (T st))
                           (pix_out st);
              done := done st |}).

(** The records [idx], [idx + 1], ... ([n] of them) offered in order to a
    pixel, until it is done. *)
Fixpoint records_loop (n : nat) (idx : Z) (st : pix_state) : pix_state :=
  match n with
  | O => st
  | S n' =>
    if done st then st
    else match direct_step idx st with
         | (Next, st') => records_loop n' (idx + 1) st'
         | (Break, st') => st'
         end
  end.

(** What a pixel holds when the records of its tile's range have been
    offered to it front to back. *)
Definition composite : pix_state :=
  records_loop (Z.to_nat (range_end B - range_start B)) (range_start B)
               (init_state B ti).

(** What the records of the range leave in a pixel: as many channels as
    it started with, and as last contributor either the initial zero or a
    record of the range that passed the test of line 120. *)
Definition tidy (st : pix_state) : Prop :=
  length (pix_out st) = Z.to_nat (COLOR_DIM B)
  /\ (cur_idx st = 0
      \/ (range_start B <= cur_idx st < range_end B
          /\ skipped B ti (record_conic B (cur_idx st))
                     (record_xy_opac B (cur_idx st)) = false)).

End Seq.
End FwdSeq.

(** ** Where the compositor stores its pixels *)

Module FwdStores.
Import Fwd.
Section Stores.
Context {Sc : Scalar}.
Variable B : block.
Local Abbreviation a := (args B).
Variable ti : thread_index.

(** The element of [render_alphas] that line 149 stores to, from the start
    of the tensor: [render_alphas += camera_id * image_height * image_width]
    (line 41), then [render_alphas[pix_id]].  Line 156 stores to the same
    element of [last_ids] (line 42). *)
Definition alpha_index : Z :=
  u32 (camera_id B * image_height a * image_width a) + pix_id B ti.

(** The element of [render_colors] that line 152 stores channel [k] to:
    [render_colors += camera_id * image_height * image_width * COLOR_DIM]
    (line 40), then [render_colors[pix_id * COLOR_DIM + k]]. *)
Definition color_index (k : Z) : Z :=
  u32 (camera_id B * image_height a * image_width a * COLOR_DIM B)
  + u32 (pix_id B ti * COLOR_DIM B + k).

(** A thread of the launch [<<<{C, tile_height, tile_width},
    {tile_size, tile_size, 1}>>>] of the entry point. *)
Definition in_grid : Prop :=
  0 <= bx B < C a /\ 0 <= by_ B < tile_height a /\ 0 <= bz B < tile_width a
  /\ 0 <= tx ti < tile_size a /\ 0 <= ty ti < tile_size a.

End Stores.

(** The sizes of the launch are in the range where the kernel's 32-bit
    index arithmetic does not wrap. *)
Definition frame_ok {Sc : Scalar} (a : kernel_args) (COLOR_DIM : Z) : Prop :=
  0 < tile_size a /\ 0 <= image_height a /\ 0 <= image_width a
  /\ 0 < COLOR_DIM
  /\ C a * image_height a * image_width a * COLOR_DIM < 2 ^ 31
  /\ C a < 2 ^ 31
  /\ tile_height a * tile_size a < 2 ^ 32
  /\ tile_width a * tile_size a < 2 ^ 32.

(** The tiles cover the image. *)
Definition tiles_cover_image {Sc : Scalar} (a : kernel_args) : Prop :=
  image_height a <= tile_height a * tile_size a
  /\ image_width a <= tile_width a * tile_size a.

End FwdStores.

(** ** The projection's backward pass: rows and reads *)

Module BwdRows.
Import Bwd BwdProp.
Section Rows.
Context {Sc : Scalar}.

(** The values that the sparse layout stores in a record's row of a
    buffer (lines 128-156). *)
Definition sparse_row (H : helpers) (b : buffer) (l : locals) : list F :=
  match b with
  | BMeans => vec_entries 3 (v_mean l)
  | BCovars => covar_entries (v_covar l)
  | BQuats => vec_entries 4 (fst (v_quat_scale H l))
  | BScales => vec_entries 3 (snd (v_quat_scale H l))
  | BViewmats => []
  end.

(** Whether the write-out of the primitives' gradients reaches buffer
    [b], given the buffers [g] of the launch: the means when [v_means] is
    there, the covariances when [v_covars] is, quaternions and scales
    otherwise. *)
Definition written (g : grads) (b : buffer) : bool :=
  match b with
  | BMeans => non_null (v_means g)
  | BCovars => non_null (v_covars g)
  | BQuats | BScales => negb (non_null (v_covars g))
  | BViewmats => false
  end.

(** A write lands inside the buffer it names. *)
Definition op_in_bounds (g : grads) (o : op) : Prop :=
  let '(b, addr) :=
    match o with
    | Store b addr _ => (b, addr)
    | AtomicAdd b addr _ => (b, addr)
    end in
  exists l, buf b g = Some l /\ 0 <= addr < Z.of_nat (length l).

(** Two optional arrays are both absent, or both there and equal at the
    offsets [js] from [base]. *)
Definition agree_opt (p p' : option (Z -> F)) (base : Z) (js : list Z)
  : Prop :=
  match p, p' with
  | Some f, Some f' => Forall (fun j => f (base + j) = f' (base + j)) js
  | None, None => True
  | _, _ => False
  end.

(** The arguments [k] and [k'] hold the same values wherever the thread
    of record [i] reads them (lines 52-123): the record's ids and rows,
    its primitive's rows, its camera's rows, and the scalars. *)
Definition same_reads (k k' : kernel_args) (i : Z) : Prop :=
  let cid := camera_ids k i in
  let gid := gaussian_ids k i in
  camera_ids k' i = cid /\ gaussian_ids k' i = gid
  /\ Forall (fun j => means k (gid * 3 + j) = means k' (gid * 3 + j))
            [0; 1; 2]
  /\ Forall (fun j => viewmats k (cid * 16 + j) = viewmats k' (cid * 16 + j))
            (seqZ 0 12)
  /\ Forall (fun j => Ks k (cid * 9 + j) = Ks k' (cid * 9 + j)) [0; 2; 4; 5]
  /\ Forall (fun j => conics k (u32 (i * 3) + j) = conics k' (u32 (i * 3) + j))
            [0; 1; 2]
  /\ Forall (fun j => v_means2d k (u32 (i * 2) + j)
                      = v_means2d k' (u32 (i * 2) + j)) [0; 1]
  /\ v_depths k (i + 0) = v_depths k' (i + 0)
  /\ Forall (fun j => v_conics k (u32 (i * 3) + j)
                      = v_conics k' (u32 (i * 3) + j)) [0; 1; 2]
  /\ image_width k = image_width k' /\ image_height k = image_height k'
  /\ eps2d k = eps2d k'
  /\ match covars k, covars k' with
     | Some c, Some c' =>
       Forall (fun j => c (gid * 6 + j) = c' (gid * 6 + j)) (seqZ 0 6)
     | None, None =>
       agree_opt (quats k) (quats k') (gid * 4) (seqZ 0 4)
       /\ agree_opt (scales k) (scales k') (gid * 3) (seqZ 0 3)
     | _, _ => False
     end
  /\ match v_compensations k, v_compensations k' with
     | Some v, Some v' =>
       v i = v' i /\ agree_opt (compensations k) (compensations k') i [0]
     | None, None => True
     | _, _ => False
     end.

End Rows.
End BwdRows.

(** ** What the entry points ask of their tensors *)

Module HostProp.
Import Host.
Section Props.
Context {Sc : Scalar}.
Variable CHECK_INPUT : forall A, tensor A -> option string.

(** Every [CHECK_INPUT] of [rasterize_to_pixels_fwd_tensor] passes
    (lines 174-182). *)
Definition fwd_checks_pass (means2d conics colors opacities : tensor F)
    (backgrounds : option (tensor F)) (tile_offsets flatten_ids : tensor Z)
  : Prop :=
  CHECK_INPUT F means2d = None /\ CHECK_INPUT F conics = None
  /\ CHECK_INPUT F colors = None /\ CHECK_INPUT F opacities = None
  /\ CHECK_INPUT Z tile_offsets = None /\ CHECK_INPUT Z flatten_ids = None
  /\ (forall bg, backgrounds = Some bg -> CHECK_INPUT F bg = None).

(** The tensors have the dimensions whose sizes lines 183-190 read:
    [tile_offsets.size(0..2)], [colors.size(-1)], [flatten_ids.size(0)],
    and [means2d.size(1)] unless [means2d] has two dimensions. *)
Definition fwd_ranks_ok (means2d colors : tensor F)
    (tile_offsets flatten_ids : tensor Z) : Prop :=
  (2 <= length (sizes means2d))%nat
  /\ (3 <= length (sizes tile_offsets))%nat
  /\ (1 <= length (sizes colors))%nat
  /\ (1 <= length (sizes flatten_ids))%nat.

(** The tensors of [fully_fused_projection_packed_bwd_tensor] have the
    dimension whose size lines 271-273 read. *)
Definition bwd_ranks_ok (means viewmats : tensor F) (camera_ids : tensor Z)
  : Prop :=
  sizes means <> [] /\ sizes viewmats <> [] /\ sizes camera_ids <> [].

(** The shape of a gradient of the primitives as lines 277-299 allocate
    it: one row of [cols] values per record in the sparse layout, the
    shape of the input it is the gradient of in the dense one. *)
Definition grad_shape (sparse_grad : bool) (nnz cols : Z) (like : tensor F)
  : list Z :=
  if sparse_grad then [nnz; cols] else sizes like.

(** A returned tensor is undefined or holds only zeros. *)
Definition zero_or_undefined (t : BwdHost.out_tensor) : Prop :=
  match t with
  | Some (shape, data) =>
    data = replicate (Z.to_nat (BwdHost.numel shape)) lit_0
  | None => True
  end.

End Props.
End HostProp.

(** ** A tile at the edge of the image

    The scene of [Scene], with an image one pixel wide: the threads of
    the tile's second column own no pixel. *)

Module EdgeScene.
Import Fwd.
Section EdgeScene.
Context {Sc : Scalar}.

Definition edge_args : kernel_args := {|
  C := 1; N := 2; n_isects := 2; packed := false;
  means2d := means2d Scene.scene_args;
  conics := conics Scene.scene_args;
  colors := colors Scene.scene_args;
  opacities := opacities Scene.scene_args;
  backgrounds := backgrounds Scene.scene_args;
  image_width := 1; image_height := 2; tile_size := 2;
  tile_width := 1; tile_height := 1;
  tile_offsets := fun _ => 0;
  flatten_ids := fun idx => idx;
|}.

Definition edge : block :=
  {| args := edge_args; COLOR_DIM := 3; bx := 0; by_ := 0; bz := 0 |}.

End EdgeScene.
End EdgeScene.


(** ** Tensors for calls that fail their checks *)

Module ExtraHostScene.
Import Host.
Section ExtraHostScene.
Context {Sc : Scalar}.

(** A tensor that [HostScene.check_input] refuses: it is not on the
    device. *)
Definition on_host {A} (shape : list Z) (v : A) : tensor A :=
  {| sizes := shape; is_cuda := false; is_contiguous := true;
     data_ptr := fun _ => v |}.

End ExtraHostScene.
End ExtraHostScene.

(** * The exact interpretation satisfies the laws *)

Module ExactFacts.

Local Open Scope Q_scope.

Lemma leb_iff (x y : Q) : Qle_bool x y = true <-> x <= y.
Proof. apply Qle_bool_iff. Qed.

Lemma ltb_iff (x y : Q) : Exact.ltb x y = true <-> x < y.
Proof.
  unfold Exact.ltb. rewrite negb_true_iff.
  split.
  - intros Hf. apply Qnot_le_lt. intros Hle.
    apply leb_iff in Hle. congruence.
  - intros Hlt. destruct (Qle_bool y x) eqn:E; [|reflexivity].
    apply leb_iff in E. exfalso. exact (Qlt_not_le _ _ Hlt E).
Qed.

Lemma ltb_false_iff (x y : Q) : Exact.ltb x y = false <-> y <= x.
Proof.
  unfold Exact.ltb. rewrite negb_false_iff. apply leb_iff.
Qed.

Lemma leb_false_iff (x y : Q) : Qle_bool x y = false <-> y < x.
Proof.
  rewrite <- ltb_iff. unfold Exact.ltb. rewrite negb_true_iff. reflexivity.
Qed.

Lemma min_le_l (c x : Q) : (if Exact.ltb x c then x else c) <= c.
Proof.
  destruct (Exact.ltb x c) eqn:E.
  - apply ltb_iff in E. now apply Qlt_le_weak.
  - apply Qle_refl.
Qed.

(** Leibniz equality of two fractions from equality of their parts. *)
Lemma Q_eq (n n' : Z) (d d' : positive) : n = n' -> d = d' -> n # d = n' # d'.
Proof. now intros -> ->. Qed.

Lemma exactQ_order_laws : OrderLaws exactQ.
Proof.
  constructor; simpl; unfold lit_inv_255; simpl.
  - intros x y z H1 H2. apply leb_iff in H1, H2. apply leb_iff.
    now apply Qle_trans with y.
  - intros x y _. apply leb_iff, Qle_refl.
  - intros x y _. apply leb_iff, Qle_refl.
  - intros x y _ _ Hf. apply leb_iff. now apply ltb_false_iff.
  - intros x y _ _ Hf. apply ltb_iff. now apply leb_false_iff.
  - intros x y Hl. apply ltb_iff in Hl. apply leb_iff. now apply Qlt_le_weak.
  - intros x. apply ltb_false_iff, Qle_refl.
  - intros x y z H1 H2. apply ltb_iff in H1. apply leb_iff in H2.
    apply ltb_iff. now apply Qlt_le_trans with y.
  - intros c x _. apply leb_iff, min_le_l.
  - reflexivity.
  - reflexivity.
  - reflexivity.
  - reflexivity.
  - reflexivity.
  - intros x H0 H1. apply leb_iff in H0, H1.
    split; apply leb_iff; lra.
  - intros x y H0 Hxy H1. apply leb_iff in H0, Hxy, H1. apply leb_iff. lra.
  - intros x f Hx0 Hx1 Hf0 Hf1. apply leb_iff in Hx0, Hx1, Hf0, Hf1.
    split; apply leb_iff; nra.
  - intros x al Hx Hx1 Ha0 Ha1.
    apply ltb_iff in Hx. apply leb_iff in Hx1, Ha0, Ha1. apply ltb_iff.
    assert (Hal : 1 # 255 <= al) by exact Ha0.
    assert (Hx' : 1 # 10000 < x) by exact Hx.
    assert (H255 : 0 < 1 # 255) by reflexivity.
    assert (H1e4 : 0 < 1 # 10000) by reflexivity.
    nra.
Qed.

Lemma exactQ_unit_laws : UnitLaws exactQ.
Proof.
  constructor; simpl.
  - reflexivity.
  - intros [n d]. unfold Qplus. simpl. apply Q_eq; lia.
  - intros [n d]. unfold Qmult. simpl. apply Q_eq; [|reflexivity].
    now destruct n.
Qed.

Lemma exactQ_sum_laws : SumLaws exactQ.
Proof.
  constructor; simpl.
  - intros [n d] [n' d']. unfold Qplus. simpl. apply Q_eq; lia.
  - intros [n d] [n' d'] [n'' d'']. unfold Qplus. simpl. apply Q_eq; lia.
  - intros [n d]. unfold Qplus. simpl. apply Q_eq; lia.
Qed.

Lemma exactQ_form_laws : FormLaws exactQ.
Proof.
  constructor; unfold absorbed, same_number; simpl.
  - intros [n d] [n' d']. left. unfold Qminus, Qplus, Qopp. simpl.
    apply Q_eq; lia.
  - intros [n d] [n' d']. unfold Qmult, Qopp. simpl. apply Q_eq; lia.
  - intros [n d] [n' d']. unfold Qmult, Qopp. simpl. apply Q_eq; lia.
  - intros [n d]. unfold Qopp. simpl. apply Q_eq; lia.
  - intros [n d]. unfold Qmult. simpl. apply Q_eq; lia.
  - intros [n d] [n' d']. unfold Qmult. simpl. intros [= Hn Hd].
    apply Q_eq; lia.
  - intros [n d] [n' d']. unfold Qmult. simpl. intros [= Hn Hd].
    left. unfold Qplus, Qopp. simpl. apply Q_eq; lia.
Qed.

End ExactFacts.
(** * Binary32 arithmetic and negation *)

Module FloatFacts.

(** Rounding does not look at the sign. *)
Lemma round_aux_opp (s : bool) (m e : Z) (l : location) :
  binary_round_aux B32.prec B32.emax (negb s) m e l
  = SFopp (binary_round_aux B32.prec B32.emax s m e l).
Proof.
  unfold binary_round_aux.
  destruct (shr_fexp B32.prec B32.emax m e l) as [mrs e'].
  destruct (shr_fexp B32.prec B32.emax _ e' loc_Exact) as [mrs' e''].
  destruct (shr_m mrs'); [reflexivity| |reflexivity].
  now destruct (e'' <=? B32.emax - B32.prec).
Qed.

Lemma round_opp (s : bool) (m : positive) (e : Z) :
  binary_round B32.prec B32.emax (negb s) m e
  = SFopp (binary_round B32.prec B32.emax s m e).
Proof.
  unfold binary_round.
  destruct (shl_align m e _) as [mz ez]. apply round_aux_opp.
Qed.

Lemma normalize_opp (m e : Z) :
  m <> 0 ->
  binary_normalize B32.prec B32.emax (- m) e false
  = SFopp (binary_normalize B32.prec B32.emax m e false).
Proof.
  destruct m as [|p|p]; intros Hm; [contradiction| |]; simpl.
  - exact (round_opp false p e).
  - exact (round_opp true p e).
Qed.

Lemma opp_involutive (x : spec_float) : SFopp (SFopp x) = x.
Proof. destruct x as [s|s| |s m e]; simpl; now rewrite ?negb_involutive. Qed.

Lemma mul_opp_r (x y : spec_float) :
  B32.mul x (SFopp y) = SFopp (B32.mul x y).
Proof.
  destruct x as [sx|sx| |sx mx ex], y as [sy|sy| |sy my ey];
    try reflexivity;
    try (simpl; now rewrite negb_xorb_r).
  simpl. rewrite <- negb_xorb_r. apply round_aux_opp.
Qed.

Lemma mul_opp_l (x y : spec_float) :
  B32.mul (SFopp x) y = SFopp (B32.mul x y).
Proof.
  destruct x as [sx|sx| |sx mx ex], y as [sy|sy| |sy my ey];
    try reflexivity;
    try (simpl; now rewrite negb_xorb_l).
  simpl. rewrite <- negb_xorb_l. apply round_aux_opp.
Qed.

(** Swapping the operands of a difference negates it; when the operands
    are equal numbers the difference is [+0] either way. *)
Lemma sub_swap (x y : spec_float) :
  B32.sub x y = SFopp (B32.sub y x)
  \/ (B32.sub x y = S754_zero false /\ B32.sub y x = S754_zero false).
Proof.
  destruct x as [sx|sx| |sx mx ex], y as [sy|sy| |sy my ey];
    try (left; reflexivity);
    try (destruct sx, sy; simpl; auto; fail).
  unfold B32.sub, SFsub. rewrite (Z.min_comm ey ex).
    set (X := cond_Zopp sx _). set (Y := cond_Zopp sy _).
  destruct (Z.eq_dec (Y - X) 0) as [E|E].
  - right. replace (X - Y) with 0 by lia. rewrite E. split; reflexivity.
  - left. replace (X - Y) with (- (Y - X)) by lia.
    now apply normalize_opp.
Qed.

(** What multiplication by zero leaves as it is. *)
Lemma absorbed_cases (z : spec_float) :
  B32.mul z (S754_zero false) = z ->
  z = S754_nan \/ exists s, z = S754_zero s.
Proof.
  destruct z as [s|s| |s m e]; simpl; intros Hz;
    try discriminate; eauto.
Qed.

Lemma binary32_form_laws : FormLaws binary32.
Proof.
  constructor; unfold absorbed, same_number, is_zero; simpl.
  - apply sub_swap.
  - apply mul_opp_l.
  - apply mul_opp_r.
  - apply opp_involutive.
  - intros [s|s| |s m e]; simpl; try reflexivity; now destruct s.
  - intros z y Hz. destruct (absorbed_cases z Hz) as [-> | [s ->]].
    + reflexivity.
    + destruct y as [sy|sy| |sy my ey]; simpl; try reflexivity;
        now destruct s, sy.
  - intros s z Hz. destruct (absorbed_cases z Hz) as [-> | [sz ->]].
    + left. now destruct s.
    + destruct s as [ss|ss| |ss ms es]; simpl.
      * right. destruct ss, sz; simpl; repeat split; reflexivity.
      * left. reflexivity.
      * left. reflexivity.
      * left. reflexivity.
Qed.

End FloatFacts.

(** * Properties of the forward compositor *)

Module FwdFacts.
Import Fwd FwdProp.

Section ControlFlow.
Context {Sc : Scalar}.
Variable B : block.
Variable ti : thread_index.

(** The three ways through the body of the inner loop. *)
Lemma record_step_skip sh b t st :
  skipped B ti (conic_batch sh t) (xy_opacity_batch sh t) = true ->
  record_step B ti sh b t st = (Next, st).
Proof. intros Hs. unfold record_step. now rewrite Hs. Qed.

Lemma record_step_break sh b t st :
  skipped B ti (conic_batch sh t) (xy_opacity_batch sh t) = false ->
  fle (next_T B ti st (conic_batch sh t) (xy_opacity_batch sh t)) lit_1e_4 = true ->
  record_step B ti sh b t st
  = (Break, {| T := T st; cur_idx := cur_idx st;
               pix_out := pix_out st; done := true |}).
Proof. intros Hs Hc. unfold record_step. now rewrite Hs, Hc. Qed.

Lemma record_step_composite sh b t st :
  skipped B ti (conic_batch sh t) (xy_opacity_batch sh t) = false ->
  fle (next_T B ti st (conic_batch sh t) (xy_opacity_batch sh t)) lit_1e_4 = false ->
  record_step B ti sh b t st
  = (Next,
     {| T := next_T B ti st (conic_batch sh t) (xy_opacity_batch sh t);
        cur_idx := u32 (batch_start B b + t);
        pix_out :=
          accumulate B (id_batch sh t)
            (fmul (alpha B ti (conic_batch sh t) (xy_opacity_batch sh t)) (T st))
            (pix_out st);
        done := done st |}).
Proof. intros Hs Hc. unfold record_step. now rewrite Hs, Hc. Qed.

(** A pixel that is done ignores the rest of its batch and every later
    batch. *)
Lemma batch_loop_done sh b n t st :
  done st = true -> batch_loop B ti sh b n t st = st.
Proof. intros Hd. destruct n; simpl; [reflexivity | now rewrite Hd]. Qed.

Lemma process_batch_done sh b st :
  done st = true -> process_batch B ti sh b st = st.
Proof. apply batch_loop_done. Qed.

Lemma thread_batches_done n : forall b sh st,
  done st = true -> thread_batches B ti n b sh st = st.
Proof.
  induction n as [|n IH]; intros b sh st Hd; simpl; [reflexivity|].
  rewrite process_batch_done by assumption. now apply IH.
Qed.

(** [done] is never reset. *)
Lemma record_step_done_mono sh b t st :
  done st = true -> done (snd (record_step B ti sh b t st)) = true.
Proof.
  intros Hd. unfold record_step.
  destruct (skipped _ _ _ _); [assumption|].
  destruct (fle _ _); simpl; [reflexivity | assumption].
Qed.

End ControlFlow.

Section BlockRun.
Context {Sc : Scalar}.
Variable B : block.

Lemma thread_batch_done sh b th :
  done (th_st th) = true -> thread_batch B sh b th = th.
Proof.
  intros Hd. unfold thread_batch. rewrite process_batch_done by assumption.
  now destruct th.
Qed.

(** When the count of done threads reaches the block size and the block
    holds no more threads than that, every thread is done. *)
Lemma syncthreads_count_all ths :
  Z.of_nat (length ths) <= syncthreads_count ths ->
  Forall (fun th => done (th_st th) = true) ths.
Proof.
  unfold syncthreads_count. induction ths as [|th ths IH]; intros Hc.
  - constructor.
  - simpl in Hc.
    assert (Hlen : (length (List.filter (fun th => done (th_st th)) ths)
                    <= length ths)%nat) by apply List.filter_length_le.
    destruct (done (th_st th)) eqn:Hd; simpl in Hc.
    + constructor; [assumption | apply IH; lia].
    + lia.
Qed.

(** The lock-step loop of the block computes, for each of its threads,
    what that thread's own loop computes: the tile-wide exit is taken only
    when no thread has anything left to do. *)
Lemma batches_loop_threads n : forall b sh ths,
  Z.of_nat (length ths) <= block_size B ->
  batches_loop B n b sh ths
  = map (fun th => {| th_idx := th_idx th;
                      th_st := thread_batches B (th_idx th) n b sh (th_st th) |})
        ths.
Proof.
  induction n as [|n IH]; intros b sh ths Hlen; simpl.
  - induction ths as [|[? ?] ths IHt]; simpl; [reflexivity|].
    f_equal. apply IHt. simpl in Hlen. lia.
  - destruct (block_size B <=? syncthreads_count ths) eqn:Hex.
    + apply Z.leb_le in Hex.
      assert (Hall : Forall (fun th => done (th_st th) = true) ths)
        by (apply syncthreads_count_all; lia).
      clear Hex Hlen. induction Hall as [|[ix st] ths Hd _ IHt]; simpl;
        [reflexivity|].
      simpl in Hd. rewrite process_batch_done by assumption.
      rewrite thread_batches_done by assumption.
      f_equal. exact IHt.
    + rewrite IH by (rewrite length_map; exact Hlen).
      rewrite map_map. reflexivity.
Qed.

(** A thread that is done keeps its state through the block's loop. *)
Lemma batches_loop_done_lookup n : forall b sh ths k th,
  ths !! k = Some th -> done (th_st th) = true ->
  batches_loop B n b sh ths !! k = Some th.
Proof.
  induction n as [|n IH]; intros b sh ths k th Hk Hd; simpl; [assumption|].
  destruct (block_size B <=? syncthreads_count ths); [assumption|].
  apply IH; [|assumption].
  rewrite list_lookup_fmap, Hk. simpl.
  now rewrite thread_batch_done.
Qed.

End BlockRun.

(** ** Index arithmetic of the batches *)

Section Batches.
Context {Sc : Scalar}.
Variable B : block.
Hypothesis Hok : range_ok B.

Lemma u32_small z : 0 <= z < 2 ^ 32 -> u32 z = z.
Proof. intros Hz. unfold u32. now apply Z.mod_small. Qed.

Lemma block_size_range : 0 < block_size B < 2 ^ 30.
Proof.
  destruct Hok as (_ & _ & Hts). unfold block_size.
  rewrite u32_small; nia.
Qed.

Lemma num_batches_eq :
  num_batches B
  = (range_end B - range_start B + block_size B - 1) / block_size B.
Proof.
  pose proof block_size_range as HB. destruct Hok as (Hr & He & _).
  unfold num_batches. rewrite u32_small by lia. reflexivity.
Qed.

(** Inside the loop a batch starts within the range. *)
Lemma batch_start_eq b :
  0 <= b < num_batches B ->
  batch_start B b = range_start B + block_size B * b
  /\ range_start B + block_size B * b < range_end B.
Proof.
  intros Hb. pose proof block_size_range as HB.
  destruct Hok as (Hr & He & _). rewrite num_batches_eq in Hb.
  assert (Hlt : range_start B + block_size B * b < range_end B).
  { assert (block_size B * (b + 1)
            <= range_end B - range_start B + block_size B - 1).
    { etransitivity; [|apply (Z.mul_div_le _ (block_size B)); lia].
      apply Z.mul_le_mono_nonneg_l; lia. }
    lia. }
  split; [|exact Hlt].
  unfold batch_start. apply u32_small. nia.
Qed.

(** The slots the inner loop visits were loaded in this batch, with the
    records of the range in order. *)
Lemma slot_index b t :
  0 <= b < num_batches B -> 0 <= t < batch_size B b ->
  u32 (batch_start B b + t) = batch_start B b + t
  /\ range_start B <= batch_start B b + t < range_end B
  /\ t < block_size B.
Proof.
  intros Hb Ht. pose proof block_size_range as HB.
  destruct (batch_start_eq b Hb) as [Hbs Hlt].
  destruct Hok as (Hr & He & _).
  unfold batch_size in Ht. rewrite Hbs in *.
  rewrite (u32_small (range_end B - _)) in Ht by nia.
  split; [apply u32_small; nia|]. split; [nia | lia].
Qed.

Lemma load_batch_slot b t sh :
  0 <= b < num_batches B -> 0 <= t < batch_size B b ->
  conic_batch (load_batch B b sh) t = record_conic B (batch_start B b + t)
  /\ xy_opacity_batch (load_batch B b sh) t
     = record_xy_opac B (batch_start B b + t)
  /\ id_batch (load_batch B b sh) t
     = flatten_ids (args B) (batch_start B b + t).
Proof.
  intros Hb Ht. destruct (slot_index b t Hb Ht) as (Hu & Hin & Htb).
  destruct Hok as (Hr & He & _).
  assert (Hl : (0 <=? t) && (t <? block_size B)
               && (u32 (batch_start B b + t) <? u32 (range_end B)) = true).
  { rewrite Hu, (u32_small (range_end B)) by lia.
    apply andb_true_intro. split; [apply andb_true_intro; split|]; lia. }
  unfold load_batch, record_conic, record_xy_opac. simpl.
  rewrite Hl, Hu. auto.
Qed.

End Batches.
(** ** The per-record step under the laws of order *)

Section Ordered.
Context {Sc : Scalar} {OL : OrderLaws Sc}.
Variable B : block.

Lemma number_0 : fle lit_0 lit_0 = true.
Proof. exact (fle_number_l _ _ lit_0_le_1). Qed.

Lemma number_1 : fle lit_1 lit_1 = true.
Proof. exact (fle_number_r _ _ lit_0_le_1). Qed.

Lemma number_1e_4 : fle lit_1e_4 lit_1e_4 = true.
Proof. exact (fle_number_r _ _ lit_0_le_1e_4). Qed.

(** The opacity of a record that passes the test of line 120 lies between
    the threshold and the cap. *)
Lemma alpha_bounds ti conic xy_opac :
  skipped B ti conic xy_opac = false ->
  fle lit_inv_255 (alpha B ti conic xy_opac) = true
  /\ fle (alpha B ti conic xy_opac) lit_0_999 = true.
Proof.
  intros Hs. unfold skipped in Hs. apply orb_false_elim in Hs as [_ Ha].
  assert (Hcap : fle (alpha B ti conic xy_opac) lit_0_999 = true).
  { unfold alpha. apply fmin_le_l.
    exact (fle_number_l _ _ lit_0_999_le_1). }
  split; [|exact Hcap].
  apply flt_false_fle.
  - exact (fle_number_l _ _ Hcap).
  - exact (fle_number_r _ _ lit_0_le_inv_255).
  - exact Ha.
Qed.

(** So the factor [1 - alpha] lies on the unit interval. *)
Lemma factor_unit ti conic xy_opac :
  skipped B ti conic xy_opac = false ->
  fle lit_0 (fsub lit_1 (alpha B ti conic xy_opac)) = true
  /\ fle (fsub lit_1 (alpha B ti conic xy_opac)) lit_1 = true.
Proof.
  intros Hs. destruct (alpha_bounds _ _ _ Hs) as [Hlo Hhi].
  apply fsub_unit.
  - exact (fle_trans _ _ _ lit_0_le_inv_255 Hlo).
  - exact (fle_trans _ _ _ Hhi lit_0_999_le_1).
Qed.

Lemma descends_refl st : unit_T st -> descends st st.
Proof.
  intros [H0 H1]. split; [split; assumption|]. split.
  - exact (fle_number_r _ _ H0).
  - destruct (fsub_unit _ H0 H1) as [Hs _]. exact (fle_number_r _ _ Hs).
Qed.

Lemma descends_trans st1 st2 st3 :
  descends st1 st2 -> descends st2 st3 -> descends st1 st3.
Proof.
  intros (_ & Ha & Hb) (Hu & Hc & Hd). split; [exact Hu|]. split.
  - exact (fle_trans _ _ _ Hc Ha).
  - exact (fle_trans _ _ _ Hb Hd).
Qed.

Lemma Forall2_descends_trans (l1 l2 l3 : list thread) :
  Forall2 (fun th th' => descends (th_st th) (th_st th')) l1 l2 ->
  Forall2 (fun th th' => descends (th_st th) (th_st th')) l2 l3 ->
  Forall2 (fun th th' => descends (th_st th) (th_st th')) l1 l3.
Proof.
  intros H12. revert l3.
  induction H12 as [|x y l1 l2 Hxy _ IH]; intros l3 H23;
    inversion H23; subst; constructor.
  - eapply descends_trans; eassumption.
  - now apply IH.
Qed.

Lemma record_step_descends ti sh b t st :
  unit_T st -> descends st (snd (record_step B ti sh b t st)).
Proof.
  intros Hu. unfold record_step.
  destruct (skipped B ti (conic_batch sh t) (xy_opacity_batch sh t)) eqn:Hs;
    [now apply descends_refl|].
  destruct (fle _ lit_1e_4) eqn:Hc; simpl.
  - destruct (descends_refl st Hu) as (Hu' & Hle & Hcov).
    split; [exact Hu'|]. split; assumption.
  - destruct Hu as [H0 H1].
    destruct (factor_unit _ _ _ Hs) as [Hf0 Hf1].
    destruct (fmul_contract _ _ H0 H1 Hf0 Hf1) as [Hn0 Hn1].
    unfold descends, unit_T, next_T. simpl.
    assert (Hn1' : fle (fmul (T st)
                   (fsub lit_1 (alpha B ti (conic_batch sh t)
                                       (xy_opacity_batch sh t)))) lit_1 = true)
      by exact (fle_trans _ _ _ Hn1 H1).
    repeat split; try assumption.
    now apply fsub_anti.
Qed.

Lemma batch_loop_descends ti sh b n : forall t st,
  unit_T st -> descends st (batch_loop B ti sh b n t st).
Proof.
  induction n as [|n IH]; intros t st Hu; simpl; [now apply descends_refl|].
  destruct (done st); [now apply descends_refl|].
  pose proof (record_step_descends ti sh b t st Hu) as Hd.
  destruct (record_step B ti sh b t st) as [[|] st']; simpl in Hd.
  - apply descends_trans with st'; [exact Hd|]. apply IH. apply Hd.
  - exact Hd.
Qed.

Lemma thread_batches_descends ti n : forall b sh st,
  unit_T st -> descends st (thread_batches B ti n b sh st).
Proof.
  induction n as [|n IH]; intros b sh st Hu; simpl; [now apply descends_refl|].
  pose proof (batch_loop_descends ti (load_batch B b sh) b
                (Z.to_nat (batch_size B b)) 0 st Hu) as Hd.
  apply descends_trans with (process_batch B ti (load_batch B b sh) b st);
    [exact Hd|].
  apply IH. apply Hd.
Qed.

Lemma batches_loop_descends n : forall b sh ths,
  Forall (fun th => unit_T (th_st th)) ths ->
  Forall2 (fun th th' => descends (th_st th) (th_st th'))
          ths (batches_loop B n b sh ths).
Proof.
  assert (Hrefl : forall ths, Forall (fun th => unit_T (th_st th)) ths ->
            Forall2 (fun th th' => descends (th_st th) (th_st th')) ths ths).
  { intros ths Hall. induction Hall; constructor; [|assumption].
    now apply descends_refl. }
  induction n as [|n IH]; intros b sh ths Hall; simpl; [now apply Hrefl|].
  destruct (block_size B <=? syncthreads_count ths); [now apply Hrefl|].
  set (sh' := load_batch B b sh).
  assert (Hstep : Forall2 (fun th th' => descends (th_st th) (th_st th'))
                          ths (map (thread_batch B sh' b) ths)).
  { clear IH. induction Hall; simpl; constructor; [|assumption].
    now apply batch_loop_descends. }
  assert (Hall' : Forall (fun th => unit_T (th_st th))
                         (map (thread_batch B sh' b) ths)).
  { clear IH Hstep. induction Hall; simpl; constructor; [|assumption].
    now apply batch_loop_descends. }
  specialize (IH (b + 1) sh' _ Hall').
  eapply Forall2_descends_trans; eassumption.
Qed.

(** *** Above the cut-off *)

Lemma above_cutoff_unit st : above_cutoff st -> unit_T st.
Proof.
  intros [Hlo Hhi]. split; [|exact Hhi].
  exact (fle_trans _ _ _ lit_0_le_1e_4 (flt_fle _ _ Hlo)).
Qed.

Lemma record_step_above ti sh b t st :
  above_cutoff st -> above_cutoff (snd (record_step B ti sh b t st)).
Proof.
  intros Ha. unfold record_step.
  destruct (skipped B ti (conic_batch sh t) (xy_opacity_batch sh t)) eqn:Hs;
    [exact Ha|].
  destruct (fle _ lit_1e_4) eqn:Hc; simpl; [exact Ha|].
  destruct (above_cutoff_unit st Ha) as [H0 H1].
  destruct (factor_unit _ _ _ Hs) as [Hf0 Hf1].
  destruct (fmul_contract _ _ H0 H1 Hf0 Hf1) as [Hn0 Hn1].
  split; simpl.
  - apply fle_false_flt.
    + exact (fle_number_r _ _ Hn0).
    + exact number_1e_4.
    + exact Hc.
  - exact (fle_trans _ _ _ Hn1 H1).
Qed.

Lemma batch_loop_above ti sh b n : forall t st,
  above_cutoff st -> above_cutoff (batch_loop B ti sh b n t st).
Proof.
  induction n as [|n IH]; intros t st Ha; simpl; [exact Ha|].
  destruct (done st); [exact Ha|].
  pose proof (record_step_above ti sh b t st Ha) as Hs.
  destruct (record_step B ti sh b t st) as [[|] st']; simpl in Hs.
  - now apply IH.
  - exact Hs.
Qed.

Lemma batches_loop_above n : forall b sh ths,
  Forall (fun th => above_cutoff (th_st th)) ths ->
  Forall (fun th => above_cutoff (th_st th)) (batches_loop B n b sh ths).
Proof.
  induction n as [|n IH]; intros b sh ths Hall; simpl; [exact Hall|].
  destruct (block_size B <=? syncthreads_count ths); [exact Hall|].
  apply IH. induction Hall; simpl; constructor; [|assumption].
  now apply batch_loop_above.
Qed.

(** A record composited onto a transmittance above the cut-off changes
    that transmittance. *)
Lemma next_T_changes ti st conic xy_opac :
  above_cutoff st -> skipped B ti conic xy_opac = false ->
  next_T B ti st conic xy_opac <> T st.
Proof.
  intros [Hlo Hhi] Hs Heq.
  destruct (alpha_bounds _ _ _ Hs) as [Ha0 Ha1].
  pose proof (fmul_shrinks _ _ Hlo Hhi Ha0 Ha1) as Hlt.
  unfold next_T in Heq. rewrite Heq in Hlt.
  rewrite flt_irrefl in Hlt. discriminate.
Qed.

End Ordered.

(** ** The claims about one record *)

(** C2, as amended.  The compositor computes
    [alpha = min(0.999, opacity * exp(-sigma))], and a record offered to a
    pixel that is not yet terminated (whose transmittance is therefore above
    the cut-off) leaves colour, transmittance and last-contributor index
    unchanged if and only if [sigma < 0], or [alpha < 1/255], or
    [T * (1 - alpha) <= 1e-4]. *)
Theorem contributes_nothing_iff {Sc : Scalar} {OL : OrderLaws Sc}
    (B : block) (ti : thread_index) sh b t st :
  done st = false -> above_cutoff st ->
  alpha B ti (conic_batch sh t) (xy_opacity_batch sh t)
  = fmin lit_0_999
      (fmul (f3z (xy_opacity_batch sh t))
            (expf (fneg (sigma B ti (conic_batch sh t) (xy_opacity_batch sh t)))))
  /\ (no_contribution st (snd (record_step B ti sh b t st))
      <-> (flt (sigma B ti (conic_batch sh t) (xy_opacity_batch sh t)) lit_0 = true
           \/ flt (alpha B ti (conic_batch sh t) (xy_opacity_batch sh t))
                  lit_inv_255 = true)
          \/ fle (next_T B ti st (conic_batch sh t) (xy_opacity_batch sh t))
                 lit_1e_4 = true).
Proof.
  intros _ Ha. split; [reflexivity|].
  set (conic := conic_batch sh t). set (xy := xy_opacity_batch sh t).
  destruct (skipped B ti conic xy) eqn:Hs.
  - rewrite (record_step_skip B ti sh b t st Hs). simpl.
    split; [|intros _; repeat split].
    intros _. left. unfold skipped in Hs. apply orb_prop in Hs.
    exact Hs.
  - assert (Hno : ~ (flt (sigma B ti conic xy) lit_0 = true
                     \/ flt (alpha B ti conic xy) lit_inv_255 = true)).
    { unfold skipped in Hs. apply orb_false_elim in Hs as [H1 H2].
      unfold lit_inv_255. intros [H|H]; congruence. }
    destruct (fle (next_T B ti st conic xy) lit_1e_4) eqn:Hc.
    + rewrite (record_step_break B ti sh b t st Hs Hc). simpl.
      split; [intros _; now right | intros _; repeat split].
    + rewrite (record_step_composite B ti sh b t st Hs Hc). simpl.
      split.
      * intros (HT & _). simpl in HT.
        exfalso. exact (next_T_changes B ti st conic xy Ha Hs HT).
      * intros [H|H]; [contradiction | discriminate].
Qed.

(** C3.  When a record that passes the test of line 120 yields
    [T * (1 - alpha) <= 1e-4], the loop body leaves by [break] with the
    pixel marked done and nothing else changed; the rest of the batch and
    every later batch leave the pixel as it is, in the thread's own loop
    and in the block's lock-step loop; and the pixel is still written at
    the end (the cut-off is no error). *)
Theorem early_termination {Sc : Scalar} (B : block) (ti : thread_index)
    sh b t st :
  done st = false ->
  skipped B ti (conic_batch sh t) (xy_opacity_batch sh t) = false ->
  fle (next_T B ti st (conic_batch sh t) (xy_opacity_batch sh t)) lit_1e_4 = true ->
  record_step B ti sh b t st
  = (Break, {| T := T st; cur_idx := cur_idx st;
               pix_out := pix_out st; done := true |})
  /\ (forall n,
        batch_loop B ti sh b (S n) t st
        = {| T := T st; cur_idx := cur_idx st;
             pix_out := pix_out st; done := true |})
  /\ (forall n b' sh',
        thread_batches B ti n b' sh'
          {| T := T st; cur_idx := cur_idx st;
             pix_out := pix_out st; done := true |}
        = {| T := T st; cur_idx := cur_idx st;
             pix_out := pix_out st; done := true |})
  /\ (forall n b' sh' ths k,
        ths !! k
        = Some {| th_idx := ti;
                  th_st := {| T := T st; cur_idx := cur_idx st;
                              pix_out := pix_out st; done := true |} |} ->
        batches_loop B n b' sh' ths !! k
        = Some {| th_idx := ti;
                  th_st := {| T := T st; cur_idx := cur_idx st;
                              pix_out := pix_out st; done := true |} |})
  /\ (inside B ti = true ->
      exists p,
        finalize B ti {| T := T st; cur_idx := cur_idx st;
                         pix_out := pix_out st; done := true |} = Some p
        /\ render_alpha p = fsub lit_1 (T st)).
Proof.
  intros Hd Hs Hc.
  pose proof (record_step_break B ti sh b t st Hs Hc) as Hstep.
  split; [exact Hstep|]. split; [|split; [|split]].
  - intros n. simpl. now rewrite Hd, Hstep.
  - intros n b' sh'. now apply thread_batches_done.
  - intros n b' sh' ths k Hk. now apply batches_loop_done_lookup.
  - intros Hin. unfold finalize. rewrite Hin. eexists. split; reflexivity.
Qed.

(** ** The claims about transmittance *)

Lemma block_threads_init {Sc : Scalar} (B : block) th :
  th ∈ block_threads B -> th_st th = init_state B (th_idx th).
Proof.
  unfold block_threads. intros Hin.
  apply list_elem_of_In, in_flat_map in Hin as (y & _ & Hin).
  apply in_map_iff in Hin as (x & <- & _). reflexivity.
Qed.

(** C4.  The transmittance starts at one, on the unit interval; every
    record leaves it on the unit interval and does not increase it, so the
    coverage [1 - T] does not decrease; hence the same holds from any
    point of a pixel's run to any later point, within a batch and across
    the batches that the block runs in lock step. *)
Theorem transmittance_non_increasing {Sc : Scalar} {OL : OrderLaws Sc}
    (B : block) :
  Forall (fun th => T (th_st th) = lit_1 /\ unit_T (th_st th)) (block_threads B)
  /\ (forall ti sh b t st,
        unit_T st -> descends st (snd (record_step B ti sh b t st)))
  /\ (forall ti sh b n t st,
        unit_T st -> descends st (batch_loop B ti sh b n t st))
  /\ (forall n b sh ths,
        Forall (fun th => unit_T (th_st th)) ths ->
        Forall2 (fun th th' => descends (th_st th) (th_st th'))
                ths (batches_loop B n b sh ths)).
Proof.
  split; [|split; [|split]].
  - apply Forall_forall. intros th Hin.
    rewrite (block_threads_init B th Hin). simpl.
    split; [reflexivity|]. split; [exact lit_0_le_1 | exact number_1].
  - intros. now apply record_step_descends.
  - intros. now apply batch_loop_descends.
  - intros. now apply batches_loop_descends.
Qed.


(** ** The claim about pixels without contributor *)

Section NoContributor.
Context {Sc : Scalar}.
Variable B : block.
Hypothesis Hok : range_ok B.

Lemma length_block_threads :
  Z.of_nat (length (block_threads B)) = block_size B.
Proof.
  destruct Hok as (_ & _ & Hts).
  assert (Hlen : forall rows cols : list Z,
            length (flat_map (fun y =>
              map (fun x => {| th_idx := {| tx := x; ty := y |};
                               th_st := init_state B {| tx := x; ty := y |} |})
                  cols) rows)
            = (length rows * length cols)%nat).
  { intros rows cols. induction rows as [|r rows IH]; simpl; [reflexivity|].
    rewrite length_app, length_map, IH. reflexivity. }
  unfold block_threads, block_size. rewrite Hlen, length_seqZ.
  rewrite u32_small by nia. nia.
Qed.

(** The block's run of the kernel is, thread by thread, the thread's own
    run. *)
Lemma run_block_threads sh0 :
  run_block B sh0 = map (thread_run B sh0) (block_threads B).
Proof.
  unfold run_block, thread_run. apply batches_loop_threads.
  rewrite length_block_threads. lia.
Qed.

Variable ti : thread_index.
Hypothesis Hskip : all_skipped B ti.

Lemma batch_loop_all_skipped b sh st n : forall t,
  0 <= b < num_batches B ->
  0 <= t -> t + Z.of_nat n <= batch_size B b ->
  batch_loop B ti (load_batch B b sh) b n t st = st.
Proof.
  induction n as [|n IH]; intros t Hb Ht Hn; simpl; [reflexivity|].
  destruct (done st); [reflexivity|].
  assert (Htb : 0 <= t < batch_size B b) by lia.
  destruct (load_batch_slot B Hok b t sh Hb Htb) as (Hc & Hx & _).
  destruct (slot_index B Hok b t Hb Htb) as (_ & Hin & _).
  rewrite record_step_skip.
  - apply IH; lia.
  - rewrite Hc, Hx. now apply Hskip.
Qed.

Lemma thread_batches_all_skipped n : forall b sh st,
  0 <= b -> b + Z.of_nat n <= num_batches B ->
  thread_batches B ti n b sh st = st.
Proof.
  induction n as [|n IH]; intros b sh st Hb Hn; simpl; [reflexivity|].
  unfold process_batch.
  rewrite batch_loop_all_skipped; [apply IH; lia | lia | lia |].
  assert (0 <= batch_size B b); [|lia].
  pose proof (block_size_range B Hok). unfold batch_size, u32.
  pose proof (Z.mod_pos_bound (range_end B - batch_start B b) (2 ^ 32)).
  lia.
Qed.

End NoContributor.


(** ** The claim about the density exponent *)

Lemma same_number_sym {Sc : Scalar} (x y : F) :
  same_number x y -> same_number y x.
Proof. intros [-> | [Hx Hy]]; [now left | now right]. Qed.

(** The form is even: taking both differences the other way round gives
    the same number, and the same value unless a difference is zero. *)
Lemma form_even {Sc : Scalar} {FL : FormLaws Sc} (c : float3) (m : float2)
    (px py : F) :
  let source :=
    fadd (fmul lit_0_5
            (fadd (fmul (fmul (f3x c) (fsub (f2x m) px)) (fsub (f2x m) px))
                  (fmul (fmul (f3z c) (fsub (f2y m) py)) (fsub (f2y m) py))))
         (fmul (fmul (f3y c) (fsub (f2x m) px)) (fsub (f2y m) py)) in
  same_number source (Spec.sigma_spec c px py m)
  /\ (fsub px (f2x m) <> lit_0 -> fsub py (f2y m) <> lit_0 ->
      source = Spec.sigma_spec c px py m).
Proof.
  unfold Spec.sigma_spec. cbv zeta.
  set (dx := fsub px (f2x m)). set (dy := fsub py (f2y m)).
  destruct (fsub_swap (f2x m) px) as [Ex | [Ex Ex']];
    destruct (fsub_swap (f2y m) py) as [Ey | [Ey Ey']];
    fold dx in Ex; fold dy in Ey; rewrite Ex, Ey.
  - rewrite !fmul_neg_r, !fmul_neg_l, !fneg_involutive.
    split; [now left | reflexivity].
  - fold dy in Ey'. split; [|intros _ Hy; contradiction].
    rewrite Ey'. rewrite !fmul_neg_r, !fmul_neg_l, !fneg_involutive.
    apply same_number_sym, fadd_absorbed_sign, fmul_0_absorbed.
  - fold dx in Ex'. split; [|intros Hx; contradiction].
    rewrite Ex'. rewrite !fmul_neg_r, !fmul_neg_l, !fneg_involutive.
    apply same_number_sym, fadd_absorbed_sign, fmul_absorbed_l,
          fmul_0_absorbed.
  - fold dx in Ex'. fold dy in Ey'. split; [|intros Hx; contradiction].
    rewrite Ex', Ey'. now left.
Qed.


End FwdFacts.

(** ** The statements at the small scene *)

Module FwdWitness.
Import Fwd FwdProp FwdFacts.

Section ExactScene.
#[local] Existing Instance exactQ.

Lemma contributes_nothing_iff_witness :
  alpha Scene.scene Scene.centre (conic_batch Scene.sh1 1)
        (xy_opacity_batch Scene.sh1 1)
  = fmin lit_0_999
      (fmul (f3z (xy_opacity_batch Scene.sh1 1))
            (expf (fneg (sigma Scene.scene Scene.centre (conic_batch Scene.sh1 1)
                               (xy_opacity_batch Scene.sh1 1)))))
  /\ (no_contribution Scene.st1
        (snd (record_step Scene.scene Scene.centre Scene.sh1 0 1 Scene.st1))
      <-> (flt (sigma Scene.scene Scene.centre (conic_batch Scene.sh1 1)
                      (xy_opacity_batch Scene.sh1 1)) lit_0 = true
           \/ flt (alpha Scene.scene Scene.centre (conic_batch Scene.sh1 1)
                         (xy_opacity_batch Scene.sh1 1)) lit_inv_255 = true)
          \/ fle (next_T Scene.scene Scene.centre Scene.st1
                         (conic_batch Scene.sh1 1) (xy_opacity_batch Scene.sh1 1))
                 lit_1e_4 = true).
Proof.
  apply (contributes_nothing_iff (OL:=ExactFacts.exactQ_order_laws)).
  - vm_compute. reflexivity.
  - split; vm_compute; reflexivity.
Defined.

Lemma transmittance_non_increasing_witness :
  descends (init_state Scene.scene Scene.centre) Scene.st1.
Proof.
  destruct (transmittance_non_increasing
              (OL:=ExactFacts.exactQ_order_laws) Scene.scene)
    as (_ & Hstep & _).
  apply Hstep. split; vm_compute; reflexivity.
Defined.



End ExactScene.

Section FloatScene.
#[local] Existing Instance binary32.

(** C2 as stated fails in binary32 arithmetic: the second record of the
    scene passes the test of line 120 at the first pixel (whose
    transmittance is 0.001 after the first record), and yet it leaves
    colour, transmittance and index as they were, because
    [0.001 * (1 - 0.999) <= 1e-4] ends the pixel. *)
Lemma skip_iff_claim_fails : ~ skip_iff_claim binary32.
Proof.
  intros Hclaim.
  destruct (Hclaim Scene.scene Scene.centre Scene.sh1 0 1 Scene.st1 eq_refl)
    as [Hskip _].
  assert (Hno : no_contribution Scene.st1
            (snd (record_step Scene.scene Scene.centre Scene.sh1 0 1 Scene.st1)))
    by (repeat split; vm_compute; reflexivity).
  specialize (Hskip Hno). vm_compute in Hskip. discriminate.
Qed.

(** The run of the first pixel of the scene with opacities 0.99 and
    0.989998: both records are composited, the transmittance ends
    strictly above the cut-off, and the coverage written is the float
    that [1 - 1e-4] rounds to. *)
Lemma cutoff_run_values :
  T CutoffScene.final = S754_finite false 13746654 (-37)
  /\ cur_idx CutoffScene.final = 1
  /\ flt lit_1e_4 (T CutoffScene.final) = true
  /\ fsub lit_1 (T CutoffScene.final) = S754_finite false 16775538 (-24)
  /\ fsub lit_1 lit_1e_4 = S754_finite false 16775538 (-24).
Proof. repeat split; vm_compute; reflexivity. Qed.


Lemma early_termination_witness :
  record_step Scene.scene Scene.centre Scene.sh1 0 1 Scene.st1
  = (Break, {| T := T Scene.st1; cur_idx := cur_idx Scene.st1;
               pix_out := pix_out Scene.st1; done := true |}).
Proof.
  apply (early_termination Scene.scene Scene.centre Scene.sh1 0 1 Scene.st1);
    vm_compute; reflexivity.
Defined.

(** In binary32 too, the corner pixel of the scene, where both records
    fail the test of line 120, is written with coverage zero and the
    background. *)
Lemma float_corner_output :
  match finalize Scene.scene Scene.corner
          (thread_batches Scene.scene Scene.corner
             (Z.to_nat (num_batches Scene.scene)) 0 Scene.sh0
             (init_state Scene.scene Scene.corner)) with
  | Some p =>
    render_alpha p = lit_0
    /\ render_color p = [lit_0_5; lit_0_5; lit_0_5]
    /\ last_id p = 0
  | None => False
  end.
Proof. vm_compute. repeat split. Qed.


End FloatScene.

End FwdWitness.

(** * Properties of the forward entry point *)

Module FwdHostFacts.
Import Host FwdHost.

Section Facts.
Context {Sc : Scalar}.
Variable CHECK_INPUT : forall A, tensor A -> option string.
Variable cudaFuncSetAttribute : Z -> Z -> bool.

Lemma check_pass {A} (t : tensor A) tr :
  CHECK_INPUT A t = None -> check CHECK_INPUT t tr = (tr, Returned tt).
Proof. intros Hc. unfold check. now rewrite Hc. Qed.

Lemma size_nth {E A} (t : tensor A) (k : nat) (tr : list E) :
  (k < length (sizes t))%nat ->
  size t (Z.of_nat k) tr = (tr, Returned (nth k (sizes t) 0)).
Proof.
  intros Hk. unfold size, dim.
  replace (Z.of_nat k <? 0) with false by (symmetry; apply Z.ltb_ge; lia).
  replace ((0 <=? Z.of_nat k) && (Z.of_nat k <? Z.of_nat (length (sizes t))))
    with true.
  - now rewrite Nat2Z.id.
  - symmetry. apply andb_true_intro. split; [apply Z.leb_le | apply Z.ltb_lt]; lia.
Qed.

Lemma size_last {E A} (t : tensor A) (tr : list E) :
  (1 <= length (sizes t))%nat ->
  size t (-1) tr = (tr, Returned (List.last (sizes t) 0)).
Proof.
  intros Hl. unfold size, dim. simpl (-1 <? 0).
  destruct (exists_last (l := sizes t)) as (l' & x & Heq).
  { intros Hnil. rewrite Hnil in Hl. simpl in Hl. lia. }
  rewrite Heq in *. rewrite last_last, length_app in *. simpl in *.
  replace ((0 <=? Z.of_nat (length l' + 1) + -1)
           && (Z.of_nat (length l' + 1) + -1 <? Z.of_nat (length l' + 1)))
    with true.
  - replace (Z.to_nat (Z.of_nat (length l' + 1) + -1)) with (length l') by lia.
    now rewrite nth_middle.
  - symmetry. apply andb_true_intro. split; [apply Z.leb_le | apply Z.ltb_lt]; lia.
Qed.

Lemma dispatch_unsupported (case : Z -> M event unit) channels :
  ~ In channels Spec.supported_channels ->
  dispatch case channels
  = throw ("Unsupported number of channels: " +:+ pretty channels).
Proof.
  intros Hnot. unfold dispatch.
  destruct channels as [|p|p]; try reflexivity.
  repeat (destruct p as [p|p|]; try reflexivity;
          try (exfalso; apply Hnot; cbv; tauto)).
Qed.

Lemma dispatch_supported (case : Z -> M event unit) channels :
  In channels Spec.supported_channels -> dispatch case channels = case channels.
Proof.
  intros Hin. cbv [Spec.supported_channels In] in Hin.
  repeat (destruct Hin as [<- | Hin]; [reflexivity|]). contradiction.
Qed.

End Facts.

(** C8.  On inputs that pass the entry point's own checks, a channel
    count outside the enumerated set raises "Unsupported number of
    channels: <n>" when the three output tensors have been allocated and
    before any kernel attribute is set or kernel launched, so no output
    element is written; a channel count of the set reaches the launch of
    the kernel instantiated at that count (or the shared-memory error, when
    the device refuses the requested size), never the channel-count
    error. *)
Theorem unsupported_channels_rejected {Sc : Scalar}
    (CHECK_INPUT : forall A, tensor A -> option string)
    (cudaFuncSetAttribute : Z -> Z -> bool)
    (means2d conics colors opacities : tensor F)
    (backgrounds : option (tensor F))
    (image_width image_height tile_size : Z)
    (tile_offsets flatten_ids : tensor Z) :
  let call :=
    run (rasterize_to_pixels_fwd_tensor CHECK_INPUT cudaFuncSetAttribute
           means2d conics colors opacities backgrounds
           image_width image_height tile_size tile_offsets flatten_ids) in
  let channels := channel_count colors in
  let C := u32 (nth 0 (sizes tile_offsets) 0) in
  let blocks := (C, u32 (nth 1 (sizes tile_offsets) 0),
                 u32 (nth 2 (sizes tile_offsets) 0)) in
  let bytes := u32 (tile_size * tile_size * (4 + 12 + 12)) in
  let allocations :=
    [Empty [C; image_height; image_width; channels];
     Empty [C; image_height; image_width; 1];
     Empty [C; image_height; image_width]] in
  inputs_ok CHECK_INPUT means2d conics colors opacities backgrounds
            tile_offsets flatten_ids ->
  (~ In channels Spec.supported_channels ->
   call = (allocations,
           Thrown ("Unsupported number of channels: " +:+ pretty channels)))
  /\ (In channels Spec.supported_channels ->
      if cudaFuncSetAttribute channels bytes
      then exists args,
        call = (allocations
                ++ [SetAttribute channels bytes;
                    Launch channels blocks (tile_size, tile_size, 1) bytes args],
                Returned {| renders := [C; image_height; image_width; channels];
                            alphas := [C; image_height; image_width; 1];
                            last_ids := [C; image_height; image_width] |})
      else
        call = (allocations ++ [SetAttribute channels bytes],
                Thrown ("Failed to set maximum shared memory size (requested "
                        +:+ pretty bytes
                        +:+ " bytes), try lowering tile_size."))).
Proof.
  intros call channels C blocks bytes allocations
         (H1 & H2 & H3 & H4 & H5 & H6 & H7 & Hm & Ht & Hc & Hf).
  assert (Hbg : forall tr,
            match backgrounds with
            | Some bg => check CHECK_INPUT bg
            | None => ret tt
            end tr = (tr, Returned tt)).
  { intros tr. destruct backgrounds as [bg|]; [|reflexivity].
    apply check_pass. now apply H7. }
  assert (HN : forall tr : list event, exists N,
            (if dim means2d =? 2 then ret 0 else size means2d 1) tr
            = (tr, Returned N)).
  { intros tr. unfold dim. destruct Hm as [Hm | Hm]; rewrite Hm; simpl.
    - now exists 0.
    - eexists. apply (size_nth means2d 1). lia. }
  subst call. unfold rasterize_to_pixels_fwd_tensor, run, bind.
  rewrite !check_pass by assumption. rewrite Hbg.
  rewrite (size_nth tile_offsets 0) by lia.
  destruct (HN []) as [N ->].
  rewrite size_last by lia.
  rewrite (size_nth tile_offsets 1), (size_nth tile_offsets 2) by lia.
  rewrite (size_nth flatten_ids 0) by lia.
  fold channels C bytes. cbn [emit app].
  split.
  - intros Hnot. rewrite (dispatch_unsupported _ _ Hnot). reflexivity.
  - intros Hin. rewrite (dispatch_supported _ _ Hin).
    unfold case_body, bind, emit. cbn [app].
    destruct (cudaFuncSetAttribute channels bytes); cbn.
    + eexists. reflexivity.
    + reflexivity.
Qed.

Lemma unsupported_channels_rejected_witness :
  HostScene.fwd_call (Sc:=binary32) 7
  = ([Empty [1; 2; 2; 7]; Empty [1; 2; 2; 1]; Empty [1; 2; 2]],
     Thrown "Unsupported number of channels: 7").
Proof.
  apply (unsupported_channels_rejected (Sc:=binary32)
           HostScene.check_input (fun _ _ => true)).
  - repeat split; try reflexivity.
    + intros bg Hbg. discriminate.
    + right. reflexivity.
    + simpl. lia.
  - vm_compute. intuition discriminate.
Defined.

End FwdHostFacts.

(** * Properties of the backward entry point *)

Module BwdHostFacts.
Import Host BwdHost.

(** Walks through the checks that precede the allocations: each either
    ends the call or lets it go on. *)
Ltac walk_checks CHECK_INPUT :=
  unfold bind, check;
  repeat match goal with
    | |- context [CHECK_INPUT ?A ?t] =>
        destruct (CHECK_INPUT A t);
        cbn [throw ret abort Host.assert value fst snd negb andb Bwd.non_null]
    | |- context [match ?o with Some _ => _ | None => _ end] =>
        is_var o; destruct o;
        cbn [throw ret abort Host.assert value fst snd negb andb Bwd.non_null]
    | |- context [Bwd.non_null ?o] =>
        is_var o; destruct o;
        cbn [throw ret abort Host.assert value fst snd negb andb Bwd.non_null]
    | |- context [value ?o] =>
        is_var o; destruct o;
        cbn [throw ret abort Host.assert value fst snd negb andb Bwd.non_null]
    end.

(** In a build that keeps assertions ([NDEBUG] not defined), a call
    that supplies [v_compensations] without [compensations] ends before
    anything is allocated or launched and returns nothing; when the checks
    before it pass, it ends in the failed assertion
    [compensations.has_value()], whose message names the missing tensor. *)
Theorem compensation_mismatch_caught {Sc : Scalar}
    (CHECK_INPUT : forall A, tensor A -> option string)
    (N_THREADS : Z) (NDEBUG : bool) (H : Bwd.helpers)
    (schedule : list Bwd.op -> list Bwd.op)
    (means : tensor F) (covars quats scales : option (tensor F))
    (viewmats Ks : tensor F) (image_width image_height : Z) (eps2d : F)
    (camera_ids gaussian_ids : tensor Z) (conics : tensor F)
    (v_means2d v_depths v_conics v_comp : tensor F)
    (viewmats_requires_grad sparse_grad : bool) :
  NDEBUG = false ->
  let call :=
    run (fully_fused_projection_packed_bwd_tensor
           CHECK_INPUT N_THREADS NDEBUG H schedule
           means covars quats scales viewmats Ks image_width image_height eps2d
           camera_ids gaussian_ids conics None
           v_means2d v_depths v_conics (Some v_comp)
           viewmats_requires_grad sparse_grad) in
  fst call = []
  /\ (forall r, snd call <> Returned r)
  /\ (checks_ok CHECK_INPUT means covars quats scales viewmats Ks
                camera_ids gaussian_ids conics None
                v_means2d v_depths v_conics (Some v_comp) ->
      snd call = Aborted "Assertion `compensations.has_value()' failed.").
Proof.
  intros -> call. subst call.
  unfold fully_fused_projection_packed_bwd_tensor, run.
  split; [|split].
  - walk_checks CHECK_INPUT; reflexivity.
  - walk_checks CHECK_INPUT; intros r; discriminate.
  - intros (H1 & Hc & H3 & H4 & H5 & H6 & H7 & H8 & H9 & H10 & _ & H12).
    specialize (H12 _ eq_refl).
    unfold bind, check.
    rewrite H1, H3, H4, H5, H6, H7, H8, H9, H10, H12.
    destruct covars as [c|].
    + rewrite Hc. reflexivity.
    + destruct Hc as (q & s & -> & -> & Hq & Hs).
      cbn [throw ret abort Host.assert value fst snd negb andb Bwd.non_null].
      rewrite Hq, Hs. reflexivity.
Qed.

Lemma compensation_mismatch_caught_witness :
  fst (HostScene.bwd_call_mismatch (Sc:=binary32) false) = []
  /\ (forall r, snd (HostScene.bwd_call_mismatch (Sc:=binary32) false)
                <> Returned r)
  /\ snd (HostScene.bwd_call_mismatch (Sc:=binary32) false)
     = Aborted "Assertion `compensations.has_value()' failed.".
Proof.
  destruct (compensation_mismatch_caught (Sc:=binary32)
              HostScene.check_input 256 false HostScene.plain_helpers
              (fun ops => ops)
              (HostScene.filled [2; 3] lit_1) None
              (Some (HostScene.filled [2; 4] lit_1))
              (Some (HostScene.filled [2; 3] lit_1))
              (HostScene.filled [1; 4; 4] lit_1)
              (HostScene.filled [1; 3; 3] lit_1)
              2 2 lit_0
              (HostScene.filled [3] 0) (HostScene.filled [3] 0)
              (HostScene.filled [3; 3] lit_1)
              (HostScene.filled [3; 2] lit_1) (HostScene.filled [3] lit_1)
              (HostScene.filled [3; 3] lit_1) (HostScene.filled [3] lit_1)
              true false eq_refl) as (Htr & Hret & Hab).
  split; [exact Htr|]. split; [exact Hret|].
  apply Hab. repeat split; try reflexivity.
  - do 2 eexists. repeat split; reflexivity.
  - intros c Hc. discriminate.
  - intros vc Hvc. injection Hvc as <-. reflexivity.
Defined.

(** C9.  The only guard against a compensation gradient without the
    forward compensations is the assertion of line 268.  With [NDEBUG]
    defined the assertion is compiled out: the call that the build with
    assertions aborts then allocates, launches the kernel, whose threads
    read [compensations] through a null pointer (line 75), and returns. *)
Lemma compensation_mismatch_ndebug :
  match snd (HostScene.bwd_call_mismatch (Sc:=binary32) true) with
  | Returned r => r_fault r
  | _ => false
  end = true
  /\ existsb is_launch (fst (HostScene.bwd_call_mismatch (Sc:=binary32) true))
     = true.
Proof. split; vm_compute; reflexivity. Qed.

End BwdHostFacts.

(** * Properties of the packed projection backward kernel *)

Module BwdFacts.
Import Bwd BwdProp.

(** ** Writes and what a slot holds after them *)

Section Buffers.
Context {Sc : Scalar}.

Lemma buffer_eqb_refl b : buffer_eqb b b = true.
Proof. now destruct b. Qed.

Lemma buffer_eqb_eq b b' : buffer_eqb b b' = true -> b = b'.
Proof. destruct b, b'; simpl; congruence. Qed.

Lemma buf_apply_op b g o :
  buf b (apply_op g o)
  = match o with
    | Store b' p v =>
      if buffer_eqb b b' then write p (fun _ => v) (buf b g) else buf b g
    | AtomicAdd b' p v =>
      if buffer_eqb b b' then write p (fun old => fadd old v) (buf b g)
      else buf b g
    end.
Proof. destruct o as [b' p v|b' p v]; destruct b, b'; reflexivity. Qed.

(** One write on a slot. *)
Lemma write_slot (p q : Z) (f : F -> F) (l : list F) (x : F) :
  0 <= p -> l !! Z.to_nat p = Some x ->
  exists l',
    write q f (Some l) = Some l' /\ length l' = length l
    /\ l' !! Z.to_nat p = Some (if p =? q then f x else x).
Proof.
  intros Hp Hx. unfold write. destruct (q <? 0) eqn:Hq.
  - exists l. split; [reflexivity|]. split; [reflexivity|].
    apply Z.ltb_lt in Hq.
    replace (p =? q) with false by (symmetry; apply Z.eqb_neq; lia).
    exact Hx.
  - apply Z.ltb_ge in Hq. simpl.
    exists (alter f (Z.to_nat q) l). split; [reflexivity|].
    split; [apply length_alter|].
    destruct (p =? q) eqn:Hpq.
    + apply Z.eqb_eq in Hpq. subst q.
      rewrite list_lookup_alter_eq, Hx. reflexivity.
    + apply Z.eqb_neq in Hpq.
      rewrite list_lookup_alter_ne by lia. exact Hx.
Qed.

Lemma slot_after_ops b p ops : forall g l x,
  buf b g = Some l -> 0 <= p -> l !! Z.to_nat p = Some x ->
  exists l',
    buf b (foldl apply_op g ops) = Some l' /\ length l' = length l
    /\ l' !! Z.to_nat p = Some (slot_after b p ops x).
Proof.
  induction ops as [|o ops IH]; intros g l x Hb Hp Hx; simpl.
  - exists l. auto.
  - assert (Hstep : exists l1,
              buf b (apply_op g o) = Some l1 /\ length l1 = length l
              /\ l1 !! Z.to_nat p
                 = Some (match o with
                         | Store b' p' v =>
                           if buffer_eqb b b' && (p =? p') then v else x
                         | AtomicAdd b' p' v =>
                           if buffer_eqb b b' && (p =? p') then fadd x v else x
                         end)).
    { rewrite buf_apply_op, Hb.
      destruct o as [b' q v|b' q v]; destruct (buffer_eqb b b'); simpl;
        try (exists l; auto; fail).
      - destruct (write_slot p q (fun _ => v) l x Hp Hx) as (l1 & H1 & H2 & H3).
        exists l1. auto.
      - destruct (write_slot p q (fun old => fadd old v) l x Hp Hx)
          as (l1 & H1 & H2 & H3).
        exists l1. auto. }
    destruct Hstep as (l1 & Hb1 & Hl1 & Hx1).
    destruct (IH _ _ _ Hb1 Hp Hx1) as (l' & Hb' & Hl' & Hx').
    exists l'. split; [exact Hb'|]. split; [congruence|].
    unfold slot_after in *. simpl. exact Hx'.
Qed.

(** A buffer the kernel was not given stays absent. *)
Lemma buf_foldl_None b ops : forall g,
  buf b g = None -> buf b (foldl apply_op g ops) = None.
Proof.
  induction ops as [|o ops IH]; intros g Hb; simpl; [exact Hb|].
  apply IH. rewrite buf_apply_op, Hb.
  destruct o; destruct (buffer_eqb _ _); try reflexivity;
    unfold write; now destruct (_ <? 0).
Qed.

Lemma slot_after_adds b p ops : forall x,
  stores_to b p ops = [] ->
  slot_after b p ops x = foldl fadd x (adds_to b p ops).
Proof.
  unfold slot_after, stores_to, adds_to.
  induction ops as [|o ops IH]; intros x Hs; simpl; [reflexivity|].
  simpl in Hs. apply app_eq_nil in Hs as [Ho Hs].
  destruct o as [b' q v|b' q v]; destruct (buffer_eqb b b' && (p =? q));
    simpl; try discriminate; now apply IH.
Qed.

Lemma slot_after_untouched b p ops : forall x,
  adds_to b p ops = [] -> stores_to b p ops = [] ->
  slot_after b p ops x = x.
Proof.
  unfold slot_after, stores_to, adds_to.
  induction ops as [|o ops IH]; intros x Ha Hs; simpl; [reflexivity|].
  simpl in Ha, Hs. apply app_eq_nil in Ha as [Ho Ha].
  apply app_eq_nil in Hs as [Ho' Hs].
  destruct o as [b' q w|b' q w]; destruct (buffer_eqb b b' && (p =? q));
    simpl in *; try discriminate; now apply IH.
Qed.

Lemma slot_after_store b p ops v : forall x,
  adds_to b p ops = [] -> stores_to b p ops = [v] ->
  slot_after b p ops x = v.
Proof.
  induction ops as [|o ops IH]; intros x Ha Hs; [discriminate|].
  change (slot_after b p (o :: ops) x)
    with (slot_after b p ops
            (match o with
             | Store b' p' w =>
               if buffer_eqb b b' && (p =? p') then w else x
             | AtomicAdd b' p' w =>
               if buffer_eqb b b' && (p =? p') then fadd x w else x
             end)).
  unfold stores_to, adds_to in Ha, Hs. simpl in Ha, Hs.
  apply app_eq_nil in Ha as [Ho Ha].
  destruct o as [b' q w|b' q w]; destruct (buffer_eqb b b' && (p =? q));
    simpl in *; try discriminate; try (now apply IH).
  injection Hs as -> Hs. now apply slot_after_untouched.
Qed.

Lemma adds_to_app b p ops ops' :
  adds_to b p (ops ++ ops') = adds_to b p ops ++ adds_to b p ops'.
Proof. apply flat_map_app. Qed.

Lemma stores_to_app b p ops ops' :
  stores_to b p (ops ++ ops') = stores_to b p ops ++ stores_to b p ops'.
Proof. apply flat_map_app. Qed.

Lemma adds_to_cons b p o ops :
  adds_to b p (o :: ops) = adds_to b p [o] ++ adds_to b p ops.
Proof. apply (adds_to_app b p [o] ops). Qed.

Lemma stores_to_cons b p o ops :
  stores_to b p (o :: ops) = stores_to b p [o] ++ stores_to b p ops.
Proof. apply (stores_to_app b p [o] ops). Qed.

Lemma adds_to_perm b p ops ops' :
  Permutation ops ops' -> Permutation (adds_to b p ops) (adds_to b p ops').
Proof. apply Permutation_flat_map. Qed.

Lemma stores_to_perm b p ops ops' :
  Permutation ops ops' -> Permutation (stores_to b p ops) (stores_to b p ops').
Proof. apply Permutation_flat_map. Qed.

End Buffers.

(** ** Sums up to their order *)

Section Sums.
Context {Sc : Scalar} {SL : SumLaws Sc}.

Lemma fadd_zero_r x : fadd x lit_0 = x.
Proof. rewrite fadd_comm. apply fadd_zero_l. Qed.

Lemma fsum_app l l' :
  Spec.fsum (l ++ l') = fadd (Spec.fsum l) (Spec.fsum l').
Proof.
  unfold Spec.fsum. induction l as [|x l IH]; simpl.
  - now rewrite fadd_zero_l.
  - now rewrite IH, fadd_assoc.
Qed.

Lemma fsum_perm l l' : Permutation l l' -> Spec.fsum l = Spec.fsum l'.
Proof.
  unfold Spec.fsum. induction 1 as [|x l l' _ IH|x y l|l l' l'' _ IH1 _ IH2];
    simpl.
  - reflexivity.
  - now rewrite IH.
  - now rewrite !fadd_assoc, (fadd_comm y x).
  - now rewrite IH1.
Qed.

Lemma fsum_concat ls :
  Spec.fsum (concat ls) = Spec.fsum (map Spec.fsum ls).
Proof.
  induction ls as [|l ls IH]; simpl; [reflexivity|].
  rewrite fsum_app, IH. reflexivity.
Qed.

Lemma foldl_fadd x l : foldl fadd x l = fadd x (Spec.fsum l).
Proof.
  unfold Spec.fsum. revert x. induction l as [|y l IH]; intros x; simpl.
  - now rewrite fadd_zero_r.
  - now rewrite IH, fadd_assoc.
Qed.

(** [warpSum]'s sum of a group is the sum in record order. *)
Lemma sum1_fsum l : sum1 l = Spec.fsum l.
Proof.
  destruct l as [|x l]; simpl; [reflexivity|].
  rewrite foldl_fadd. reflexivity.
Qed.

(** The sum of sums is the sum of the term-wise sums. *)
Lemma fsum_fadd {A} (f g : A -> F) (l : list A) :
  fadd (Spec.fsum (map f l)) (Spec.fsum (map g l))
  = Spec.fsum (map (fun x => fadd (f x) (g x)) l).
Proof.
  unfold Spec.fsum. induction l as [|x l IH]; simpl.
  - now rewrite fadd_zero_l.
  - rewrite <- IH. rewrite !fadd_assoc. f_equal.
    rewrite <- !fadd_assoc. f_equal. apply fadd_comm.
Qed.

End Sums.

(** ** The threads of a launch *)

Section Threads.
Context {Sc : Scalar}.
Variable H : helpers.
Variable k : kernel_args.

(** With the optional inputs in place no thread faults, and a thread's
    locals carry its rank and the ids of its record. *)
Lemma thread_locals_Some i :
  no_null_read k ->
  thread_locals H k i = Some (record_locals H k i)
  /\ idx (record_locals H k i) = i
  /\ cid (record_locals H k i) = camera_ids k i
  /\ gid (record_locals H k i) = gaussian_ids k i.
Proof.
  intros [Hcomp Hshape].
  assert (Hex : exists l, thread_locals H k i = Some l /\ idx l = i
                          /\ cid l = camera_ids k i
                          /\ gid l = gaussian_ids k i).
  { unfold thread_locals.
    destruct (v_compensations k) as [vc|];
      [destruct (compensations k) as [c|];
       [|specialize (Hcomp eq_refl); discriminate]|];
      (destruct (covars k) as [cov|];
       [|destruct (Hshape eq_refl) as [Hq Hs];
         destruct (quats k) as [q|]; [|discriminate];
         destruct (scales k) as [sc|]; [|discriminate]]);
      cbn [mbind option_bind];
      repeat match goal with
             | |- context [let '(_, _) := ?e in _] => destruct e
             end;
      eexists; split; try reflexivity; repeat split. }
  destruct Hex as (l & Hl & H1 & H2 & H3).
  unfold record_locals. rewrite Hl. simpl. auto.
Qed.

Lemma mapM_thread_locals lanes :
  no_null_read k ->
  mapM (thread_locals H k) lanes = Some (map (record_locals H k) lanes).
Proof.
  intros Hnn. apply mapM_Some_2.
  induction lanes as [|i lanes IH]; simpl; constructor; [|exact IH].
  apply thread_locals_Some. exact Hnn.
Qed.

Variable N_THREADS : Z.
Variable n_blocks : Z.

(** The locals of the launch, warp by warp. *)
Lemma kernel_ops_Some g :
  no_null_read k ->
  kernel_ops H k N_THREADS n_blocks g
  = Some (concat
            (map (fun lanes =>
                    flat_map (thread_ops H k g (map (record_locals H k) lanes))
                             (map (record_locals H k) lanes))
                 (warps k N_THREADS n_blocks))).
Proof.
  intros Hnn. unfold kernel_ops.
  assert (Hw : mapM (warp_ops H k g) (warps k N_THREADS n_blocks)
               = Some (map (fun lanes =>
                    flat_map (thread_ops H k g (map (record_locals H k) lanes))
                             (map (record_locals H k) lanes))
                 (warps k N_THREADS n_blocks))).
  { apply mapM_Some_2.
    induction (warps k N_THREADS n_blocks) as [|lanes ws IH]; simpl;
      constructor; [|exact IH].
    unfold warp_ops. rewrite mapM_thread_locals by exact Hnn. reflexivity. }
  rewrite Hw. reflexivity.
Qed.

End Threads.

(** ** The write-out, channel by channel *)

Section Channels.
Context {Sc : Scalar}.
Variable H : helpers.

Lemma dense_ops_channels g warp l :
  dense_ops H g warp l
  = (if non_null (v_means g) then leader_adds ch_means warp l else [])
    ++ (if non_null (v_covars g) then leader_adds ch_covars warp l
        else leader_adds (ch_quats H) warp l
             ++ leader_adds (ch_scales H) warp l).
Proof.
  unfold dense_ops, leader_adds. simpl.
  destruct (non_null (v_means g)), (non_null (v_covars g)),
    (is_leader gid warp l); reflexivity.
Qed.

Lemma sparse_ops_channels g l :
  sparse_ops H g l
  = (if non_null (v_means g) then record_stores ch_means l else [])
    ++ (if non_null (v_covars g) then record_stores ch_covars l
        else record_stores (ch_quats H) l ++ record_stores (ch_scales H) l).
Proof.
  unfold sparse_ops, record_stores. simpl.
  destruct (v_quat_scale H l) as [vq vs]. reflexivity.
Qed.

Lemma viewmat_ops_channel g warp l :
  viewmat_ops g warp l
  = if non_null (v_viewmats g) then leader_adds ch_viewmats warp l else [].
Proof.
  unfold viewmat_ops, leader_adds. simpl.
  destruct (non_null (v_viewmats g)), (is_leader cid warp l); reflexivity.
Qed.

End Channels.

(** ** What a group contributes is the sum of what its records do *)

Section ChannelLaws.
Context {Sc : Scalar} {SL : SumLaws Sc}.

Ltac by_component j Hj :=
  repeat (destruct j as [|j];
          [simpl; unfold warpSum_vec, warpSum_mat;
           rewrite ?sum1_fsum, ?fsum_fadd; reflexivity|]);
  simpl in Hj; lia.

Lemma ch_means_ok : channel_ok ch_means 3.
Proof.
  split; [simpl; lia|]. split; [reflexivity|]. split; [reflexivity|].
  intros grp j Hj. by_component j Hj.
Qed.

Lemma ch_covars_ok : channel_ok ch_covars 6.
Proof.
  split; [simpl; lia|]. split; [reflexivity|]. split; [reflexivity|].
  intros grp j Hj. by_component j Hj.
Qed.

Lemma ch_quats_ok H : channel_ok (ch_quats H) 4.
Proof.
  split; [simpl; lia|]. split; [reflexivity|]. split; [reflexivity|].
  intros grp j Hj. by_component j Hj.
Qed.

Lemma ch_scales_ok H : channel_ok (ch_scales H) 3.
Proof.
  split; [simpl; lia|]. split; [reflexivity|]. split; [reflexivity|].
  intros grp j Hj. by_component j Hj.
Qed.

Lemma ch_viewmats_ok : channel_ok ch_viewmats 12.
Proof.
  split; [simpl; lia|]. split; [reflexivity|]. split; [reflexivity|].
  intros grp j Hj. by_component j Hj.
Qed.

End ChannelLaws.

(** ** Which writes reach a slot *)

Section Slots.
Context {Sc : Scalar}.

Lemma adds_to_flat_map {A} b p (f : A -> list op) (l : list A) :
  adds_to b p (flat_map f l) = flat_map (fun x => adds_to b p (f x)) l.
Proof.
  induction l as [|x l IH]; simpl; [reflexivity|].
  now rewrite adds_to_app, IH.
Qed.

Lemma stores_to_flat_map {A} b p (f : A -> list op) (l : list A) :
  stores_to b p (flat_map f l) = flat_map (fun x => stores_to b p (f x)) l.
Proof.
  induction l as [|x l IH]; simpl; [reflexivity|].
  now rewrite stores_to_app, IH.
Qed.

Lemma adds_to_concat b p (ls : list (list op)) :
  adds_to b p (concat ls) = concat (map (adds_to b p) ls).
Proof.
  induction ls as [|l ls IH]; simpl; [reflexivity|].
  now rewrite adds_to_app, IH.
Qed.

Lemma stores_to_concat b p (ls : list (list op)) :
  stores_to b p (concat ls) = concat (map (stores_to b p) ls).
Proof.
  induction ls as [|l ls IH]; simpl; [reflexivity|].
  now rewrite stores_to_app, IH.
Qed.

(** A row of atomic adds at consecutive slots from [q] reaches slot [p]
    with the value at offset [p - q], if there is one. *)
Lemma adds_to_imap b b' p vs : forall q,
  adds_to b p (imap (fun j v => AtomicAdd b' (q + Z.of_nat j) v) vs)
  = if buffer_eqb b b' && (q <=? p)
    then option_list (vs !! Z.to_nat (p - q)) else [].
Proof.
  induction vs as [|v vs IH]; intros q.
  - simpl. now destruct (buffer_eqb b b' && (q <=? p)).
  - rewrite imap_cons.
    rewrite (imap_ext _ (fun j v => AtomicAdd b' ((q + 1) + Z.of_nat j) v))
      by (intros; simpl; f_equal; lia).
    rewrite adds_to_cons.
    rewrite IH. unfold adds_to. simpl.
    destruct (buffer_eqb b b'); simpl; [|reflexivity].
    destruct (p =? q + Z.of_nat 0) eqn:E1.
    + apply Z.eqb_eq in E1.
      replace (q + 1 <=? p) with false by (symmetry; apply Z.leb_gt; lia).
      replace (q <=? p) with true by (symmetry; apply Z.leb_le; lia).
      replace (p - q) with 0 by lia. reflexivity.
    + apply Z.eqb_neq in E1. simpl.
      destruct (q + 1 <=? p) eqn:E2.
      * apply Z.leb_le in E2.
        replace (q <=? p) with true by (symmetry; apply Z.leb_le; lia).
        replace (Z.to_nat (p - q)) with (S (Z.to_nat (p - (q + 1)))) by lia.
        reflexivity.
      * apply Z.leb_gt in E2.
        replace (q <=? p) with false by (symmetry; apply Z.leb_gt; lia).
        reflexivity.
Qed.

Lemma stores_to_imap b b' p vs : forall q,
  stores_to b p (imap (fun j v => Store b' (q + Z.of_nat j) v) vs)
  = if buffer_eqb b b' && (q <=? p)
    then option_list (vs !! Z.to_nat (p - q)) else [].
Proof.
  induction vs as [|v vs IH]; intros q.
  - simpl. now destruct (buffer_eqb b b' && (q <=? p)).
  - rewrite imap_cons.
    rewrite (imap_ext _ (fun j v => Store b' ((q + 1) + Z.of_nat j) v))
      by (intros; simpl; f_equal; lia).
    rewrite stores_to_cons.
    rewrite IH. unfold stores_to. simpl.
    destruct (buffer_eqb b b'); simpl; [|reflexivity].
    destruct (p =? q + Z.of_nat 0) eqn:E1.
    + apply Z.eqb_eq in E1.
      replace (q + 1 <=? p) with false by (symmetry; apply Z.leb_gt; lia).
      replace (q <=? p) with true by (symmetry; apply Z.leb_le; lia).
      replace (p - q) with 0 by lia. reflexivity.
    + apply Z.eqb_neq in E1. simpl.
      destruct (q + 1 <=? p) eqn:E2.
      * apply Z.leb_le in E2.
        replace (q <=? p) with true by (symmetry; apply Z.leb_le; lia).
        replace (Z.to_nat (p - q)) with (S (Z.to_nat (p - (q + 1)))) by lia.
        reflexivity.
      * apply Z.leb_gt in E2.
        replace (q <=? p) with false by (symmetry; apply Z.leb_gt; lia).
        reflexivity.
Qed.

Lemma adds_to_stores b p (f : nat -> F -> op) vs :
  (forall j v, exists b' q, f j v = Store b' q v) ->
  adds_to b p (imap f vs) = [].
Proof.
  revert f. induction vs as [|v vs IH]; intros f Hf; [reflexivity|].
  rewrite imap_cons.
  rewrite adds_to_cons.
  rewrite IH by (intros j w; apply (Hf (S j) w)).
  destruct (Hf 0%nat v) as (b' & q & ->). reflexivity.
Qed.

Lemma stores_to_adds b p (f : nat -> F -> op) vs :
  (forall j v, exists b' q, f j v = AtomicAdd b' q v) ->
  stores_to b p (imap f vs) = [].
Proof.
  revert f. induction vs as [|v vs IH]; intros f Hf; [reflexivity|].
  rewrite imap_cons.
  rewrite stores_to_cons.
  rewrite IH by (intros j w; apply (Hf (S j) w)).
  destruct (Hf 0%nat v) as (b' & q & ->). reflexivity.
Qed.

(** The writes of the two layouts by kind. *)
Lemma stores_to_leader_adds b p ch warp l :
  stores_to b p (leader_adds ch warp l) = [].
Proof.
  unfold leader_adds. destruct (is_leader _ _ _); [|reflexivity].
  apply stores_to_adds. intros j v. eauto.
Qed.

Lemma adds_to_record_stores b p ch l :
  adds_to b p (record_stores ch l) = [].
Proof. apply adds_to_stores. intros j v. eauto. Qed.

Lemma adds_to_leader_adds_other b p ch warp l :
  buffer_eqb b (ch_buf ch) = false ->
  adds_to b p (leader_adds ch warp l) = [].
Proof.
  intros Hb. unfold leader_adds. destruct (is_leader _ _ _); [|reflexivity].
  rewrite adds_to_imap, Hb. reflexivity.
Qed.

Lemma stores_to_record_stores_other b p ch l :
  buffer_eqb b (ch_buf ch) = false ->
  stores_to b p (record_stores ch l) = [].
Proof.
  intros Hb. unfold record_stores. rewrite stores_to_imap, Hb. reflexivity.
Qed.

End Slots.

(** ** One lane speaks for each group *)

Section Leaders.
Context {Sc : Scalar}.

Lemma idx_inj_in (warp : list locals) h l :
  NoDup (map idx warp) -> In h warp -> In l warp -> idx h = idx l -> h = l.
Proof.
  induction warp as [|x warp IH]; intros Hnd Hh Hl Heq; [contradiction|].
  simpl in Hnd. apply NoDup_cons in Hnd as [Hx Hnd].
  rewrite list_elem_of_In in Hx.
  destruct Hh as [-> | Hh], Hl as [-> | Hl].
  - reflexivity.
  - exfalso. apply Hx. rewrite Heq. now apply in_map.
  - exfalso. apply Hx. rewrite <- Heq. now apply in_map.
  - now apply IH.
Qed.

Lemma flat_map_nowhere {A B} (f : A -> list B) (l : list A) :
  (forall x, In x l -> f x = []) -> flat_map f l = [].
Proof.
  induction l as [|x l IH]; intros Hf; simpl; [reflexivity|].
  rewrite Hf by now left. simpl. apply IH. intros y Hy. apply Hf. now right.
Qed.

Lemma flat_map_agree {A B} (f g : A -> list B) (l : list A) :
  (forall x, In x l -> f x = g x) -> flat_map f l = flat_map g l.
Proof.
  induction l as [|x l IH]; intros Hfg; simpl; [reflexivity|].
  rewrite Hfg by now left. f_equal. apply IH. intros y Hy. apply Hfg. now right.
Qed.

Lemma flat_map_once (warp : list locals) h (X : list F) :
  NoDup (map idx warp) -> In h warp ->
  flat_map (fun l => if idx h =? idx l then X else []) warp = X.
Proof.
  induction warp as [|x warp IH]; intros Hnd Hh; [contradiction|].
  simpl in Hnd. apply NoDup_cons in Hnd as [Hx Hnd]. simpl.
  rewrite list_elem_of_In in Hx.
  destruct Hh as [-> | Hh].
  - rewrite Z.eqb_refl. rewrite flat_map_nowhere; [apply app_nil_r|].
    intros l Hl. destruct (idx h =? idx l) eqn:E; [|reflexivity].
    apply Z.eqb_eq in E. exfalso. apply Hx. rewrite E. now apply in_map.
  - destruct (idx h =? idx x) eqn:E.
    + apply Z.eqb_eq in E. exfalso. apply Hx. rewrite <- E. now apply in_map.
    + simpl. now apply IH.
Qed.

(** Among the lanes of a warp, exactly the first lane of label [base]
    is a leader with that label. *)
Lemma leader_once (label : locals -> Z) (warp : list locals) base
    (X : list F) :
  NoDup (map idx warp) ->
  flat_map (fun l => if is_leader label warp l && (label l =? base)
                     then X else []) warp
  = match List.filter (fun l => label l =? base) warp with
    | [] => []
    | _ :: _ => X
    end.
Proof.
  intros Hnd.
  destruct (List.filter (fun l => label l =? base) warp) as [|h grp] eqn:Hg.
  - apply flat_map_nowhere. intros l Hl.
    destruct (label l =? base) eqn:E; [|now rewrite andb_false_r].
    assert (Hin : In l (List.filter (fun l => label l =? base) warp))
      by (apply filter_In; auto).
    rewrite Hg in Hin. contradiction.
  - assert (Hh : In h warp /\ (label h =? base) = true).
    { apply (filter_In (fun l => label l =? base)). rewrite Hg. now left. }
    destruct Hh as [Hh Hhb]. apply Z.eqb_eq in Hhb.
    transitivity (flat_map (fun l => if idx h =? idx l then X else []) warp);
      [|now apply flat_map_once].
    apply flat_map_agree. intros l Hl.
    destruct (label l =? base) eqn:E.
    + apply Z.eqb_eq in E. rewrite andb_true_r.
      unfold is_leader, group. rewrite E, Hg. reflexivity.
    + rewrite andb_false_r.
      destruct (idx h =? idx l) eqn:Ei; [|reflexivity].
      apply Z.eqb_eq in Ei.
      pose proof (idx_inj_in warp h l Hnd Hh Hl Ei) as ->.
      apply Z.eqb_neq in E. contradiction.
Qed.

End Leaders.

Section WarpSums.
Context {Sc : Scalar} {SL : SumLaws Sc}.
Variable ch : channel.
Variable n : nat.
Hypothesis Hch : channel_ok ch n.

(** The adds of one lane that reach slot [j] of row [base]. *)
Lemma adds_to_leader_adds warp l base j :
  Z.of_nat j < ch_stride ch ->
  adds_to (ch_buf ch) (base * ch_stride ch + Z.of_nat j) (leader_adds ch warp l)
  = if is_leader (ch_label ch) warp l && (ch_label ch l =? base)
    then option_list
           (ch_group ch (List.filter (fun l' => ch_label ch l' =? base) warp)
            !! j)
    else [].
Proof.
  intros Hj. destruct Hch as (Hs & _ & Hlen & _).
  unfold leader_adds. destruct (is_leader (ch_label ch) warp l); [|reflexivity].
  rewrite adds_to_imap, buffer_eqb_refl. simpl.
  destruct (ch_label ch l =? base) eqn:E.
  - apply Z.eqb_eq in E. unfold group. rewrite E.
    replace (base * ch_stride ch <=? base * ch_stride ch + Z.of_nat j)
      with true by (symmetry; apply Z.leb_le; lia).
    replace (Z.to_nat (base * ch_stride ch + Z.of_nat j - base * ch_stride ch))
      with j by lia.
    reflexivity.
  - apply Z.eqb_neq in E.
    destruct (ch_label ch l * ch_stride ch
              <=? base * ch_stride ch + Z.of_nat j) eqn:E2; [|reflexivity].
    apply Z.leb_le in E2.
    rewrite lookup_ge_None_2; [reflexivity|].
    rewrite Hlen. nia.
Qed.

Lemma fsum_zeros {A} (l : list A) : Spec.fsum (map (fun _ => lit_0) l) = lit_0.
Proof.
  unfold Spec.fsum. induction l as [|x l IH]; simpl; [reflexivity|].
  rewrite IH. apply fadd_zero_l.
Qed.

(** The adds of a warp that reach slot [j] of row [base] sum to the sum,
    over the warp's lanes of label [base], of what each contributes
    (nothing, at a slot past the row's values). *)
Lemma fsum_adds_to_warp warp base j :
  Z.of_nat j < ch_stride ch -> NoDup (map idx warp) ->
  Spec.fsum (adds_to (ch_buf ch) (base * ch_stride ch + Z.of_nat j)
                     (flat_map (leader_adds ch warp) warp))
  = Spec.fsum
      (map (fun l => default lit_0 (ch_one ch l !! j))
           (List.filter (fun l => ch_label ch l =? base) warp)).
Proof.
  intros Hj Hnd. rewrite adds_to_flat_map.
  rewrite (flat_map_ext _ _ (fun l => adds_to_leader_adds warp l base j Hj)).
  rewrite leader_once by exact Hnd.
  destruct Hch as (_ & Hone & Hlen & Hadd).
  destruct (List.filter (fun l => ch_label ch l =? base) warp) as [|h grp] eqn:Hg;
    [reflexivity|].
  destruct (Nat.lt_ge_cases j n) as [Hjn | Hjn].
  - rewrite (Hadd _ j Hjn). simpl. unfold Spec.fsum at 1. simpl.
    apply fadd_zero_r.
  - rewrite lookup_ge_None_2 by (rewrite Hlen; lia).
    rewrite (map_ext _ (fun _ => lit_0)).
    + now rewrite fsum_zeros.
    + intros l. rewrite lookup_ge_None_2 by (rewrite Hone; lia). reflexivity.
Qed.

End WarpSums.

(** ** The grid covers the records once *)

Section Grid.
Context {Sc : Scalar}.

Lemma filter_all {A} (P : A -> bool) (l : list A) :
  (forall x, In x l -> P x = true) -> List.filter P l = l.
Proof.
  induction l as [|x l IH]; intros HP; simpl; [reflexivity|].
  rewrite HP by now left. f_equal. apply IH. intros y Hy. apply HP. now right.
Qed.

Lemma filter_none {A} (P : A -> bool) (l : list A) :
  (forall x, In x l -> P x = false) -> List.filter P l = [].
Proof.
  induction l as [|x l IH]; intros HP; simpl; [reflexivity|].
  rewrite HP by now left. apply IH. intros y Hy. apply HP. now right.
Qed.

Lemma filter_lt_seqZ n m :
  0 <= n <= m -> List.filter (fun i => i <? n) (seqZ 0 m) = seqZ 0 n.
Proof.
  intros Hn. replace m with (n + (m - n)) by lia.
  rewrite seqZ_app by lia. rewrite List.filter_app.
  rewrite filter_all, filter_none; [apply app_nil_r| |].
  - intros x Hx. apply list_elem_of_In, elem_of_seqZ in Hx.
    apply Z.ltb_ge. lia.
  - intros x Hx. apply list_elem_of_In, elem_of_seqZ in Hx.
    apply Z.ltb_lt. lia.
Qed.

(** The tiles of a block of [nt] threads are its threads in rank order. *)
Lemma tiles_cover nt (w : nat) :
  0 <= nt ->
  concat (map (fun t => seqZ (32 * t) (Z.min 32 (nt - 32 * t)))
              (seqZ 0 (Z.of_nat w)))
  = seqZ 0 (Z.min (32 * Z.of_nat w) nt).
Proof.
  intros Hnt. induction w as [|w IH].
  - simpl. rewrite seqZ_nil by lia. reflexivity.
  - rewrite seqZ_S, map_app, concat_app, IH. simpl.
    rewrite app_nil_r. replace (0 + Z.of_nat w) with (Z.of_nat w) by lia.
    destruct (Z.le_gt_cases (32 * Z.of_nat w) nt) as [Hle | Hgt].
    + replace (Z.min (32 * Z.of_nat w) nt) with (32 * Z.of_nat w) by lia.
      rewrite <- (Z.add_0_l (32 * Z.of_nat w)) at 2.
      rewrite <- seqZ_app by lia. f_equal. lia.
    + rewrite (seqZ_nil (32 * Z.of_nat w)) by lia.
      rewrite app_nil_r. f_equal. lia.
Qed.

Lemma concat_filter_map_chunks {A B} (P : B -> bool) (g : A -> B)
    (chunks : list (list A)) :
  concat (map (fun c => List.filter P (map g c)) chunks)
  = List.filter P (map g (concat chunks)).
Proof.
  induction chunks as [|c cs IH]; simpl; [reflexivity|].
  now rewrite IH, map_app, List.filter_app.
Qed.

Lemma concat_flat_map {A B} (f : A -> list (list B)) (l : list A) :
  concat (flat_map f l) = concat (map (fun x => concat (f x)) l).
Proof.
  induction l as [|x l IH]; simpl; [reflexivity|].
  now rewrite concat_app, IH.
Qed.

Variable k : kernel_args.
Variables N_THREADS n_blocks : Z.
Hypothesis Hlaunch : launch_ok k N_THREADS n_blocks.

Lemma n_blocks_range :
  0 <= n_blocks /\ nnz k <= n_blocks * N_THREADS <= 2 ^ 32.
Proof.
  destruct Hlaunch as (Hnt & Hnnz & Hfit & _ & ->).
  unfold u32. rewrite Z.mod_small by lia.
  pose proof (Z.mul_div_le (nnz k + N_THREADS - 1) N_THREADS Hnt).
  pose proof (Z.mul_succ_div_gt (nnz k + N_THREADS - 1) N_THREADS Hnt).
  split; [apply Z.div_pos; lia | nia].
Qed.

(** The lanes of one block. *)
Lemma block_lanes b :
  0 <= b < n_blocks ->
  concat (map (warp_lanes k N_THREADS b) (seqZ 0 ((N_THREADS + 31) / 32)))
  = List.filter (fun i => i <? nnz k) (seqZ (b * N_THREADS) N_THREADS).
Proof.
  intros Hb. destruct n_blocks_range as [_ Hfit].
  destruct Hlaunch as (Hnt & _).
  unfold warp_lanes.
  rewrite <- (map_map (fun w => seqZ (32 * w) (Z.min 32 (N_THREADS - 32 * w)))
                      (fun c => List.filter (fun i => i <? nnz k)
                                  (map (fun r => u32 (b * N_THREADS + r)) c))).
  rewrite concat_filter_map_chunks.
  assert (Hw : 0 <= (N_THREADS + 31) / 32) by (apply Z.div_pos; lia).
  rewrite <- (Z2Nat.id _ Hw), tiles_cover by lia. rewrite Z2Nat.id by exact Hw.
  pose proof (Z.mul_succ_div_gt (N_THREADS + 31) 32 ltac:(lia)).
  replace (Z.min (32 * ((N_THREADS + 31) / 32)) N_THREADS) with N_THREADS
    by lia.
  f_equal.
  transitivity (Z.add (b * N_THREADS) <$> seqZ 0 N_THREADS);
    [|rewrite fmap_add_seqZ; f_equal; lia].
  apply map_ext_in. intros r Hr.
  apply list_elem_of_In, elem_of_seqZ in Hr.
  unfold u32. apply Z.mod_small. nia.
Qed.

Lemma blocks_cover (nb : nat) :
  concat (map (fun b => List.filter (fun i => i <? nnz k)
                          (seqZ (b * N_THREADS) N_THREADS))
              (seqZ 0 (Z.of_nat nb)))
  = List.filter (fun i => i <? nnz k) (seqZ 0 (Z.of_nat nb * N_THREADS)).
Proof.
  destruct Hlaunch as (Hnt & _).
  induction nb as [|nb IH].
  - reflexivity.
  - rewrite seqZ_S, map_app, concat_app, IH. simpl. rewrite app_nil_r.
    rewrite <- List.filter_app. f_equal.
    replace (Z.of_nat (S nb) * N_THREADS)
      with (Z.of_nat nb * N_THREADS + N_THREADS) by lia.
    rewrite seqZ_app by nia. reflexivity.
Qed.

(** The warps of the grid, one after the other, list the records. *)
Lemma warps_cover : concat (warps k N_THREADS n_blocks) = seqZ 0 (nnz k).
Proof.
  destruct n_blocks_range as [Hnb Hfit].
  unfold warps. rewrite concat_flat_map.
  rewrite (map_ext_in _ (fun b => List.filter (fun i => i <? nnz k)
                                    (seqZ (b * N_THREADS) N_THREADS))).
  - rewrite <- (Z2Nat.id _ Hnb), blocks_cover. rewrite Z2Nat.id by exact Hnb.
    apply filter_lt_seqZ. destruct Hlaunch as (_ & ? & _). lia.
  - intros b Hb. apply list_elem_of_In, elem_of_seqZ in Hb.
    apply block_lanes. lia.
Qed.

Lemma NoDup_concat_elem {A} (ls : list (list A)) l :
  NoDup (concat ls) -> In l ls -> NoDup l.
Proof.
  induction ls as [|x ls IH]; intros Hnd Hin; [contradiction|].
  simpl in Hnd. apply NoDup_app in Hnd as (Hx & _ & Hls).
  destruct Hin as [-> | Hin]; [exact Hx | now apply IH].
Qed.

Lemma warp_NoDup lanes :
  In lanes (warps k N_THREADS n_blocks) -> NoDup lanes.
Proof.
  apply NoDup_concat_elem. rewrite warps_cover. apply NoDup_seqZ.
Qed.

End Grid.

(** ** What a launch leaves in a slot *)

Section Launch.
Context {Sc : Scalar} {SL : SumLaws Sc}.
Variable H : helpers.
Variable k : kernel_args.
Variables N_THREADS n_blocks : Z.
Hypothesis Hnn : no_null_read k.
Hypothesis Hlaunch : launch_ok k N_THREADS n_blocks.
Variable schedule : list op -> list op.
Hypothesis Hsched : forall ops, Permutation ops (schedule ops).
Variable g : grads.

Lemma filter_map_comm {A B} (P : B -> bool) (f : A -> B) (l : list A) :
  List.filter P (map f l) = map f (List.filter (fun x => P (f x)) l).
Proof.
  induction l as [|x l IH]; simpl; [reflexivity|].
  destruct (P (f x)); simpl; now rewrite IH.
Qed.

Lemma idx_record_locals lanes :
  map idx (map (record_locals H k) lanes) = lanes.
Proof.
  rewrite map_map. rewrite <- (map_id lanes) at 2.
  apply map_ext. intros i. now apply thread_locals_Some.
Qed.

(** A channel written with atomic adds only: the slot holds the sum of
    the contributions of the records of its row, whatever the order in
    which the adds took effect. *)
Lemma atomic_channel_slot (ch : channel) (n : nat) base (j : nat) l0 :
  channel_ok ch n ->
  (forall warp l p,
     adds_to (ch_buf ch) p (thread_ops H k g warp l)
     = adds_to (ch_buf ch) p (leader_adds ch warp l)) ->
  (forall warp l p, stores_to (ch_buf ch) p (thread_ops H k g warp l) = []) ->
  buf (ch_buf ch) g = Some l0 ->
  0 <= base -> Z.of_nat j < ch_stride ch ->
  l0 !! Z.to_nat (base * ch_stride ch + Z.of_nat j) = Some lit_0 ->
  exists g' l',
    kernel H k N_THREADS n_blocks schedule g = Some g'
    /\ buf (ch_buf ch) g' = Some l' /\ length l' = length l0
    /\ l' !! Z.to_nat (base * ch_stride ch + Z.of_nat j)
       = Some (channel_sum ch (record_locals H k) (seqZ 0 (nnz k)) base j).
Proof.
  intros Hch Hadds Hstores Hb Hbase Hj Hx0.
  unfold kernel. rewrite (kernel_ops_Some H k N_THREADS n_blocks g Hnn).
  set (ops := concat _). cbn [mbind option_bind].
  assert (Hp : 0 <= base * ch_stride ch + Z.of_nat j).
  { destruct Hch as (? & _). nia. }
  destruct (slot_after_ops (ch_buf ch) _ (schedule ops) g l0 lit_0 Hb Hp Hx0)
    as (l' & Hb' & Hl' & Hx').
  exists (foldl apply_op g (schedule ops)), l'.
  split; [reflexivity|]. split; [exact Hb'|]. split; [exact Hl'|].
  rewrite Hx'. f_equal.
  set (p := base * ch_stride ch + Z.of_nat j) in *.
  assert (Hst : stores_to (ch_buf ch) p ops = []).
  { unfold ops. rewrite stores_to_concat, map_map.
    apply concat_nil_Forall, Forall_forall. intros x Hx.
    apply list_elem_of_In, in_map_iff in Hx as (lanes & <- & _).
    rewrite stores_to_flat_map. apply flat_map_nowhere.
    intros l _. apply Hstores. }
  rewrite slot_after_adds.
  2: { apply Permutation_nil. rewrite <- Hst. apply stores_to_perm, Hsched. }
  rewrite foldl_fadd, fadd_zero_l.
  rewrite <- (fsum_perm _ _ (adds_to_perm (ch_buf ch) p _ _ (Hsched ops))).
  unfold ops. rewrite adds_to_concat, map_map, fsum_concat, map_map.
  unfold channel_sum.
  rewrite <- (warps_cover k N_THREADS n_blocks Hlaunch).
  rewrite <- List.concat_filter_map, concat_map, fsum_concat.
  rewrite !map_map. f_equal.
  apply map_ext_in. intros lanes Hlanes.
  rewrite adds_to_flat_map.
  rewrite (flat_map_ext _ _
             (fun l => Hadds (map (record_locals H k) lanes) l p)).
  rewrite <- adds_to_flat_map.
  unfold p. rewrite (fsum_adds_to_warp ch n Hch) by
    (try exact Hj; rewrite idx_record_locals;
     exact (warp_NoDup k N_THREADS n_blocks Hlaunch lanes Hlanes)).
  rewrite filter_map_comm, map_map. reflexivity.
Qed.

Lemma flat_map_once_Z {B} (l : list Z) i (X : list B) :
  NoDup l -> In i l ->
  flat_map (fun i' => if i' =? i then X else []) l = X.
Proof.
  induction l as [|x l IH]; intros Hnd Hi; [contradiction|].
  apply NoDup_cons in Hnd as [Hx Hnd]. rewrite list_elem_of_In in Hx. simpl.
  destruct Hi as [-> | Hi].
  - rewrite Z.eqb_refl. rewrite flat_map_nowhere; [apply app_nil_r|].
    intros y Hy. destruct (y =? i) eqn:E; [|reflexivity].
    apply Z.eqb_eq in E. subst y. contradiction.
  - destruct (x =? i) eqn:E.
    + apply Z.eqb_eq in E. subst x. contradiction.
    + simpl. now apply IH.
Qed.

Lemma flat_map_map {A B D} (f : B -> list D) (h : A -> B) (l : list A) :
  flat_map f (map h l) = flat_map (fun x => f (h x)) l.
Proof.
  induction l as [|x l IH]; simpl; [reflexivity|]. now rewrite IH.
Qed.

Lemma concat_map_flat_map {A B} (f : A -> list B) (ls : list (list A)) :
  concat (map (flat_map f) ls) = flat_map f (concat ls).
Proof.
  induction ls as [|l ls IH]; simpl; [reflexivity|].
  now rewrite flat_map_app, IH.
Qed.

(** A channel written with one store per record and value: the slot of
    record [i] holds what the record contributes. *)
Lemma store_channel_slot (ch : channel) (n : nat) i (j : nat) l0 x :
  channel_ok ch n -> ch_stride ch <= 6 ->
  (forall warp l p,
     stores_to (ch_buf ch) p (thread_ops H k g warp l)
     = stores_to (ch_buf ch) p (record_stores ch l)) ->
  (forall warp l p, adds_to (ch_buf ch) p (thread_ops H k g warp l) = []) ->
  buf (ch_buf ch) g = Some l0 ->
  0 <= i < nnz k -> (j < n)%nat ->
  l0 !! Z.to_nat (i * ch_stride ch + Z.of_nat j) = Some x ->
  exists g' l',
    kernel H k N_THREADS n_blocks schedule g = Some g'
    /\ buf (ch_buf ch) g' = Some l' /\ length l' = length l0
    /\ l' !! Z.to_nat (i * ch_stride ch + Z.of_nat j)
       = Some (default lit_0 (ch_one ch (record_locals H k i) !! j)).
Proof.
  intros Hch Hs6 Hstores Hadds Hb Hi Hj Hx0.
  unfold kernel. rewrite (kernel_ops_Some H k N_THREADS n_blocks g Hnn).
  set (ops := concat _). cbn [mbind option_bind].
  destruct Hch as (Hs & Hone & _).
  assert (Hp : 0 <= i * ch_stride ch + Z.of_nat j) by nia.
  destruct (slot_after_ops (ch_buf ch) _ (schedule ops) g l0 x Hb Hp Hx0)
    as (l' & Hb' & Hl' & Hx').
  exists (foldl apply_op g (schedule ops)), l'.
  split; [reflexivity|]. split; [exact Hb'|]. split; [exact Hl'|].
  rewrite Hx'. f_equal.
  set (p := i * ch_stride ch + Z.of_nat j) in *.
  assert (Had : adds_to (ch_buf ch) p ops = []).
  { unfold ops. rewrite adds_to_concat, map_map.
    apply concat_nil_Forall, Forall_forall. intros y Hy.
    apply list_elem_of_In, in_map_iff in Hy as (lanes & <- & _).
    rewrite adds_to_flat_map. apply flat_map_nowhere.
    intros l _. apply Hadds. }
  destruct (lookup_lt_is_Some_2 (ch_one ch (record_locals H k i)) j)
    as [v Hv]; [rewrite Hone; exact Hj|].
  rewrite Hv. simpl.
  assert (Hst : stores_to (ch_buf ch) p ops = [v]).
  { unfold ops. rewrite stores_to_concat, map_map.
    rewrite (map_ext _ (flat_map (fun i' =>
               stores_to (ch_buf ch) p
                 (record_stores ch (record_locals H k i'))))).
    2: { intros lanes. rewrite stores_to_flat_map, flat_map_map.
         apply flat_map_ext. intros i'. apply Hstores. }
    rewrite concat_map_flat_map, (warps_cover k N_THREADS n_blocks Hlaunch).
    rewrite <- (flat_map_once_Z (seqZ 0 (nnz k)) i [v]).
    2: apply NoDup_seqZ.
    2: { apply list_elem_of_In, elem_of_seqZ. lia. }
    apply flat_map_agree. intros i' Hi'.
    apply list_elem_of_In, elem_of_seqZ in Hi'.
    unfold record_stores. rewrite stores_to_imap, buffer_eqb_refl. simpl.
    destruct (thread_locals_Some H k i' Hnn) as (_ & -> & _).
    destruct Hlaunch as (_ & _ & _ & H6 & _).
    unfold u32. rewrite Z.mod_small by nia.
    destruct (i' =? i) eqn:E.
    - apply Z.eqb_eq in E. subst i'.
      replace (i * ch_stride ch <=? p) with true
        by (symmetry; apply Z.leb_le; unfold p; lia).
      replace (Z.to_nat (p - i * ch_stride ch)) with j by (unfold p; lia).
      rewrite Hv. reflexivity.
    - apply Z.eqb_neq in E.
      destruct (i' * ch_stride ch <=? p) eqn:E2; [|reflexivity].
      apply Z.leb_le in E2. unfold p in *.
      rewrite lookup_ge_None_2; [reflexivity|].
      rewrite Hone. nia. }
  apply slot_after_store.
  - apply Permutation_nil. rewrite <- Had. apply adds_to_perm, Hsched.
  - apply Permutation_length_1_inv. rewrite <- Hst.
    apply stores_to_perm, Hsched.
Qed.

End Launch.

(** ** The two layouts, channel by channel *)

Section Layouts.
Context {Sc : Scalar}.
Variable H : helpers.
Variable k : kernel_args.

Ltac other_channels b :=
  rewrite ?adds_to_app, ?stores_to_app, ?stores_to_leader_adds,
    ?adds_to_record_stores;
  try rewrite (adds_to_leader_adds_other b _ ch_means) by reflexivity;
  try rewrite (adds_to_leader_adds_other b _ ch_covars) by reflexivity;
  try rewrite (adds_to_leader_adds_other b _ (ch_quats _)) by reflexivity;
  try rewrite (adds_to_leader_adds_other b _ (ch_scales _)) by reflexivity;
  try rewrite (adds_to_leader_adds_other b _ ch_viewmats) by reflexivity;
  try rewrite (stores_to_record_stores_other b _ ch_means) by reflexivity;
  try rewrite (stores_to_record_stores_other b _ ch_covars) by reflexivity;
  try rewrite (stores_to_record_stores_other b _ (ch_quats _)) by reflexivity;
  try rewrite (stores_to_record_stores_other b _ (ch_scales _)) by reflexivity;
  rewrite ?app_nil_r; try reflexivity.

Lemma dense_thread_ops g ch warp l p :
  sparse_grad k = false -> active H g ch ->
  adds_to (ch_buf ch) p (thread_ops H k g warp l)
  = adds_to (ch_buf ch) p (leader_adds ch warp l)
  /\ stores_to (ch_buf ch) p (thread_ops H k g warp l) = [].
Proof.
  intros Hlay Hact. unfold thread_ops.
  rewrite Hlay, dense_ops_channels, viewmat_ops_channel.
  destruct Hact as [Hm|Hc|Hc|Hc]; rewrite ?Hm, ?Hc;
    destruct (non_null (v_means g)), (non_null (v_covars g)),
      (non_null (v_viewmats g)); try discriminate;
    cbn [ch_buf ch_means ch_covars ch_quats ch_scales];
    split.
  all: match goal with |- context [adds_to ?b _ _] => other_channels b | |- context [stores_to ?b _ _] => other_channels b end.
Qed.

Lemma sparse_thread_ops g ch warp l p :
  sparse_grad k = true -> active H g ch ->
  stores_to (ch_buf ch) p (thread_ops H k g warp l)
  = stores_to (ch_buf ch) p (record_stores ch l)
  /\ adds_to (ch_buf ch) p (thread_ops H k g warp l) = [].
Proof.
  intros Hlay Hact. unfold thread_ops.
  rewrite Hlay, sparse_ops_channels, viewmat_ops_channel.
  destruct Hact as [Hm|Hc|Hc|Hc]; rewrite ?Hm, ?Hc;
    destruct (non_null (v_means g)), (non_null (v_covars g)),
      (non_null (v_viewmats g)); try discriminate;
    cbn [ch_buf ch_means ch_covars ch_quats ch_scales];
    split.
  all: match goal with |- context [adds_to ?b _ _] => other_channels b | |- context [stores_to ?b _ _] => other_channels b end.
Qed.

Lemma viewmat_thread_ops g warp l p :
  non_null (v_viewmats g) = true ->
  adds_to BViewmats p (thread_ops H k g warp l)
  = adds_to BViewmats p (leader_adds ch_viewmats warp l)
  /\ stores_to BViewmats p (thread_ops H k g warp l) = [].
Proof.
  intros Hv. unfold thread_ops.
  rewrite sparse_ops_channels, dense_ops_channels, viewmat_ops_channel, Hv.
  destruct (sparse_grad k), (non_null (v_means g)), (non_null (v_covars g));
    split; other_channels BViewmats.
Qed.

Lemma buf_foldl_Some b ops : forall g l,
  buf b g = Some l ->
  exists l', buf b (foldl apply_op g ops) = Some l' /\ length l' = length l.
Proof.
  induction ops as [|o ops IH]; intros g l Hb; simpl; [eauto|].
  assert (Hstep : exists l1, buf b (apply_op g o) = Some l1
                             /\ length l1 = length l).
  { rewrite buf_apply_op, Hb.
    destruct o; destruct (buffer_eqb _ _); eauto;
      unfold write; destruct (_ <? 0); simpl; eauto;
      eexists; split; try reflexivity; apply length_alter. }
  destruct Hstep as (l1 & Hb1 & Hl1).
  destruct (IH _ _ Hb1) as (l' & Hb' & Hl'). exists l'. split; congruence.
Qed.

Lemma zero_lookup rows stride r j :
  0 <= r < rows -> 0 <= j < stride ->
  replicate (Z.to_nat (rows * stride)) lit_0 !! Z.to_nat (r * stride + j)
  = Some lit_0.
Proof. intros Hr Hj. apply lookup_replicate_2. nia. Qed.

Context {SL : SumLaws Sc}.

Ltac pick_channel ok :=
  split; [reflexivity|]; split; [reflexivity|]; split; [reflexivity|];
  split; [lia|]; split; [exact ok|]; split; [reflexivity|];
  split; [reflexivity|];
  intros rows'; split; [try reflexivity|].

(** The channel behind a buffer of the primitives' gradients. *)
Lemma primitive_channel b stride rows wv l0 :
  In (b, stride) primitive_buffers ->
  buf b (zero_grads k rows wv) = Some l0 ->
  exists ch n,
    ch_buf ch = b /\ ch_stride ch = stride /\ stride = Z.of_nat n
    /\ stride <= 6 /\ channel_ok ch n /\ ch_label ch = gid
    /\ (forall l, ch_one ch l = BwdRows.sparse_row H b l)
    /\ forall rows',
         buf b (zero_grads k rows' wv)
         = Some (replicate (Z.to_nat (rows' * stride)) lit_0)
         /\ active H (zero_grads k rows' wv) ch.
Proof.
  intros Hin Hb.
  simpl in Hin.
  destruct Hin as [E|[E|[E|[E|[]]]]]; injection E as <- <-; simpl in Hb;
    destruct (non_null (covars k)) eqn:Hc; try discriminate.
  1, 2: exists ch_means, 3%nat; pick_channel ch_means_ok; now constructor.
  - exists ch_covars, 6%nat. pick_channel ch_covars_ok.
    + simpl. now rewrite Hc.
    + apply active_covars. simpl. now rewrite Hc.
  - exists (ch_quats H), 4%nat. pick_channel (ch_quats_ok H).
    + simpl. now rewrite Hc.
    + apply active_quats. simpl. now rewrite Hc.
  - exists (ch_scales H), 3%nat. pick_channel (ch_scales_ok H).
    + simpl. now rewrite Hc.
    + apply active_scales. simpl. now rewrite Hc.
Qed.

End Layouts.

Section Refinement.
Context {Sc : Scalar} {SL : SumLaws Sc}.
Variable H : helpers.
Variable k : kernel_args.
Variables N_THREADS n_blocks : Z.
Hypothesis Hnn : no_null_read k.
Hypothesis Hlaunch : launch_ok k N_THREADS n_blocks.

Lemma kernel_runs layout schedule g :
  kernel H (with_layout layout k) N_THREADS n_blocks schedule g <> None.
Proof.
  unfold kernel.
  rewrite (kernel_ops_Some H (with_layout layout k) N_THREADS n_blocks g Hnn).
  discriminate.
Qed.

Lemma kernel_keeps_buffers layout schedule g g' b l :
  kernel H (with_layout layout k) N_THREADS n_blocks schedule g = Some g' ->
  buf b g = Some l ->
  exists l', buf b g' = Some l' /\ length l' = length l.
Proof.
  unfold kernel.
  rewrite (kernel_ops_Some H (with_layout layout k) N_THREADS n_blocks g Hnn).
  cbn [mbind option_bind]. intros [= <-]. apply buf_foldl_Some.
Qed.

Lemma kernel_keeps_null layout schedule g g' b :
  kernel H (with_layout layout k) N_THREADS n_blocks schedule g = Some g' ->
  buf b g = None -> buf b g' = None.
Proof.
  unfold kernel.
  rewrite (kernel_ops_Some H (with_layout layout k) N_THREADS n_blocks g Hnn).
  cbn [mbind option_bind]. intros [= <-]. apply buf_foldl_None.
Qed.


Variables sched_s sched_d : list op -> list op.
Hypothesis Hsched_s : forall ops, Permutation ops (sched_s ops).
Hypothesis Hsched_d : forall ops, Permutation ops (sched_d ops).
Variable with_viewmats : bool.

(** One buffer of the primitives' gradients in the sparse layout: row
    [i] holds the values the thread of record [i] computed. *)
Lemma sparse_buffer_rows b stride gs ls :
  In (b, stride) primitive_buffers ->
  kernel H (with_layout true k) N_THREADS n_blocks sched_s
         (zero_grads k (nnz k) with_viewmats) = Some gs ->
  buf b gs = Some ls ->
  forall i j, 0 <= i < nnz k -> 0 <= j < stride ->
    ls !! Z.to_nat (i * stride + j)
    = BwdRows.sparse_row H b (record_locals H k i) !! Z.to_nat j.
Proof.
  intros Hin Hks Hls i j Hi Hj.
  destruct (buf b (zero_grads k (nnz k) with_viewmats)) as [l0|] eqn:Hb0.
  2: { rewrite (kernel_keeps_null _ _ _ _ _ Hks Hb0) in Hls. discriminate. }
  destruct (primitive_channel H k b stride _ _ l0 Hin Hb0)
    as (ch & n & <- & <- & Hn & H6 & Hch & Hlab & Hrow & Hz).
  destruct (Hz (nnz k)) as [Hbn Hactn].
  set (j' := Z.to_nat j).
  assert (Ej : j = Z.of_nat j') by (unfold j'; lia). rewrite Ej at 1.
  destruct (store_channel_slot H (with_layout true k) N_THREADS n_blocks
              Hnn Hlaunch sched_s Hsched_s _ ch n i j' _ lit_0 Hch H6
              (fun warp l p =>
                 proj1 (sparse_thread_ops H (with_layout true k)
                          _ ch warp l p eq_refl Hactn))
              (fun warp l p =>
                 proj2 (sparse_thread_ops H (with_layout true k)
                          _ ch warp l p eq_refl Hactn))
              Hbn ltac:(simpl; lia) ltac:(lia)
              (zero_lookup (nnz k) (ch_stride ch) i (Z.of_nat j')
                           ltac:(lia) ltac:(lia)))
    as (g' & l' & Hk' & Hb' & _ & Hslot').
  rewrite Hks in Hk'. injection Hk' as <-.
  rewrite Hls in Hb'. injection Hb' as <-.
  rewrite Hslot', <- Hrow.
  change (record_locals H (with_layout true k) i)
    with (record_locals H k i).
  destruct Hch as (_ & Hone & _).
  destruct (lookup_lt_is_Some_2 (ch_one ch (record_locals H k i)) j')
    as [v Hv]; [rewrite Hone; lia|].
  now rewrite Hv.
Qed.

(** One buffer of the primitives' gradients: row [r] of the dense result
    is the sum of the sparse rows of the records of primitive [r]. *)
Lemma dense_buffer_grouped b stride gs gd ls :
  In (b, stride) primitive_buffers ->
  kernel H (with_layout true k) N_THREADS n_blocks sched_s
         (zero_grads k (nnz k) with_viewmats) = Some gs ->
  kernel H (with_layout false k) N_THREADS n_blocks sched_d
         (zero_grads k (N k) with_viewmats) = Some gd ->
  buf b gs = Some ls ->
  exists ld,
    buf b gd = Some ld /\ length ld = Z.to_nat (N k * stride)
    /\ forall r j, 0 <= r < N k -> 0 <= j < stride ->
         ld !! Z.to_nat (r * stride + j)
         = Some (grouped_sum k stride ls r j).
Proof.
  intros Hin Hks Hkd Hls.
  destruct (buf b (zero_grads k (nnz k) with_viewmats)) as [l0|] eqn:Hb0.
  2: { rewrite (kernel_keeps_null _ _ _ _ _ Hks Hb0) in Hls. discriminate. }
  destruct (primitive_channel H k b stride _ _ l0 Hin Hb0)
    as (ch & n & <- & <- & Hn & H6 & Hch & Hlab & _ & Hz).
  destruct (Hz (N k)) as [HbN HactN]. destruct (Hz (nnz k)) as [Hbn Hactn].
  destruct (kernel_keeps_buffers _ _ _ _ _ _ Hkd HbN) as (ld & Hld & Hlen).
  exists ld. split; [exact Hld|].
  split; [rewrite Hlen; apply length_replicate|].
  intros r j Hr Hj.
  set (j' := Z.to_nat j).
  assert (Ej : j = Z.of_nat j') by (unfold j'; lia). rewrite Ej.
  destruct (atomic_channel_slot H (with_layout false k) N_THREADS n_blocks
              Hnn Hlaunch sched_d Hsched_d _ ch n r j' _ Hch
              (fun warp l p =>
                 proj1 (dense_thread_ops H (with_layout false k)
                          _ ch warp l p eq_refl HactN))
              (fun warp l p =>
                 proj2 (dense_thread_ops H (with_layout false k)
                          _ ch warp l p eq_refl HactN))
              HbN ltac:(lia) ltac:(lia)
              (zero_lookup (N k) (ch_stride ch) r (Z.of_nat j') Hr ltac:(lia)))
    as (g' & l' & Hk' & Hb' & _ & Hslot).
  rewrite Hkd in Hk'. injection Hk' as <-.
  rewrite Hld in Hb'. injection Hb' as <-.
  rewrite Hslot. f_equal. unfold channel_sum, grouped_sum.
  rewrite Hlab.
  rewrite (List.filter_ext _ (fun i => gaussian_ids k i =? r)).
  2: { intros i. destruct (thread_locals_Some H k i Hnn) as (_ & _ & _ & Hg).
       change (record_locals H (with_layout false k) i)
         with (record_locals H k i). now rewrite Hg. }
  f_equal. apply map_ext_in. intros i Hi.
  apply filter_In in Hi as [Hi _].
  apply list_elem_of_In, elem_of_seqZ in Hi.
  destruct (store_channel_slot H (with_layout true k) N_THREADS n_blocks
              Hnn Hlaunch sched_s Hsched_s _ ch n i j' _ lit_0 Hch H6
              (fun warp l p =>
                 proj1 (sparse_thread_ops H (with_layout true k)
                          _ ch warp l p eq_refl Hactn))
              (fun warp l p =>
                 proj2 (sparse_thread_ops H (with_layout true k)
                          _ ch warp l p eq_refl Hactn))
              Hbn ltac:(simpl; lia) ltac:(lia)
              (zero_lookup (nnz k) (ch_stride ch) i (Z.of_nat j') ltac:(lia) ltac:(lia)))
    as (g' & l' & Hk' & Hb' & _ & Hslot').
  rewrite Hks in Hk'. injection Hk' as <-.
  rewrite Hls in Hb'. injection Hb' as <-.
  rewrite Hslot'. reflexivity.
Qed.

End Refinement.

(** ** The extrinsics' gradient *)

Section Cameras.
Context {Sc : Scalar} {SL : SumLaws Sc}.
Variable H : helpers.
Variable k : kernel_args.
Variables N_THREADS n_blocks : Z.
Hypothesis Hnn : no_null_read k.
Hypothesis Hlaunch : launch_ok k N_THREADS n_blocks.
Variable schedule : list op -> list op.
Hypothesis Hsched : forall ops, Permutation ops (schedule ops).

Lemma camera_sum_padding c j :
  (12 <= j)%nat -> camera_sum H k c j = lit_0.
Proof.
  intros Hj. unfold camera_sum.
  rewrite (map_ext _ (fun _ => lit_0)); [apply fsum_zeros|].
  intros i. rewrite lookup_ge_None_2; [reflexivity|].
  exact Hj.
Qed.

(** Whatever the layout flag of [k]: from a zero-filled block per camera,
    the launch leaves in slot [j] of camera [c]'s block the sum of value
    [j] over the records of camera [c]. *)
Lemma camera_block g g' :
  v_viewmats g = Some (replicate (Z.to_nat (C k * 16)) lit_0) ->
  kernel H k N_THREADS n_blocks schedule g = Some g' ->
  exists lv,
    v_viewmats g' = Some lv /\ length lv = Z.to_nat (C k * 16)
    /\ forall c j, 0 <= c < C k -> 0 <= j < 16 ->
         lv !! Z.to_nat (c * 16 + j) = Some (camera_sum H k c (Z.to_nat j)).
Proof.
  intros Hv Hk.
  assert (Hkeep : exists lv, buf BViewmats g' = Some lv
                             /\ length lv = Z.to_nat (C k * 16)).
  { revert Hk. unfold kernel.
    rewrite (kernel_ops_Some H k N_THREADS n_blocks g Hnn).
    cbn [mbind option_bind]. intros [= <-].
    destruct (buf_foldl_Some BViewmats (schedule
               (concat (map (fun lanes =>
                  flat_map (thread_ops H k g (map (record_locals H k) lanes))
                           (map (record_locals H k) lanes))
                  (warps k N_THREADS n_blocks)))) g _ Hv) as (lv & E1 & E2).
    exists lv. split; [exact E1|]. now rewrite E2, length_replicate. }
  destruct Hkeep as (lv & Hlv & Hlen).
  exists lv. split; [exact Hlv|]. split; [exact Hlen|].
  intros c j Hc Hj.
  set (j' := Z.to_nat j).
  assert (Ej : j = Z.of_nat j') by (unfold j'; lia). rewrite Ej.
  assert (Hvn : non_null (v_viewmats g) = true) by now rewrite Hv.
  destruct (atomic_channel_slot H k N_THREADS n_blocks
              Hnn Hlaunch schedule Hsched g ch_viewmats 12 c j' _
              ch_viewmats_ok
              (fun warp l p => proj1 (viewmat_thread_ops H k g warp l p Hvn))
              (fun warp l p => proj2 (viewmat_thread_ops H k g warp l p Hvn))
              Hv ltac:(lia) ltac:(simpl; lia)
              (zero_lookup (C k) 16 c (Z.of_nat j') Hc ltac:(lia)))
    as (g1 & l1 & Hk1 & Hb1 & _ & Hslot).
  rewrite Hk in Hk1. injection Hk1 as <-.
  simpl in Hb1. simpl in Hlv. rewrite Hlv in Hb1. injection Hb1 as <-.
  simpl in Hslot. rewrite Hslot. f_equal.
  unfold channel_sum, camera_sum. simpl.
  rewrite (List.filter_ext _ (fun i => camera_ids k i =? c)); [reflexivity|].
  intros i. destruct (thread_locals_Some H k i Hnn) as (_ & _ & Hcid & _).
  now rewrite Hcid.
Qed.

End Cameras.

(** ** Dense against sparse *)


End BwdFacts.
(** * The extrinsics' gradient through the entry point *)

Module BwdEntryFacts.
Import Host BwdHost Bwd BwdProp BwdFacts.

Section Entry.
Context {Sc : Scalar} {SL : SumLaws Sc}.
Variable CHECK_INPUT : forall A, tensor A -> option string.
Variable N_THREADS : Z.
Variable NDEBUG : bool.
Variable H : Bwd.helpers.
Variable schedule : list Bwd.op -> list Bwd.op.
Hypothesis Hsched : forall ops, Permutation ops (schedule ops).
Variables (means : tensor F) (covars quats scales : option (tensor F))
    (viewmats Ks : tensor F)
    (image_width image_height : Z) (eps2d : F)
    (camera_ids gaussian_ids : tensor Z) (conics : tensor F)
    (compensations : option (tensor F))
    (v_means2d v_depths v_conics : tensor F)
    (v_compensations : option (tensor F)).
Variable sparse_grad : bool.
Hypothesis Hchecks :
  checks_ok CHECK_INPUT means covars quats scales viewmats Ks
            camera_ids gaussian_ids conics compensations
            v_means2d v_depths v_conics v_compensations.
Variable Cz : Z.
Hypothesis HC : sizes viewmats = [Cz; 4; 4].
Hypothesis HCr : 0 <= Cz < 2 ^ 32.
Hypothesis Hmeans : sizes means <> [].
Hypothesis Hcams : sizes camera_ids <> [].
Local Abbreviation args :=
  (BwdHostProp.entry_args means covars quats scales viewmats Ks image_width image_height
     eps2d camera_ids gaussian_ids conics compensations
     v_means2d v_depths v_conics v_compensations sparse_grad).
Hypothesis Hnn : no_null_read args.
Hypothesis Hlaunch :
  launch_ok args N_THREADS (u32 (nnz args + N_THREADS - 1) / N_THREADS).

Lemma size_0 {E A} (t : tensor A) (tr : list E) :
  sizes t <> [] -> size t 0 tr = (tr, Returned (nth 0 (sizes t) 0)).
Proof.
  intros Ht. unfold size, dim. destruct (sizes t) as [|n ns]; [congruence|].
  simpl length. replace (0 <? Z.of_nat (Datatypes.S (length ns))) with true
    by (symmetry; apply Z.ltb_lt; lia).
  reflexivity.
Qed.

Lemma C_args : C args = Cz.
Proof. simpl. rewrite HC. simpl. unfold u32. apply Z.mod_small. lia. Qed.

Lemma viewmats_zeros :
  replicate (Z.to_nat (numel (if sparse_grad
                              then [u32 (nth 0 (sizes viewmats) 0); 4; 4]
                              else sizes viewmats))) lit_0
  = replicate (Z.to_nat (C args * 16)) lit_0.
Proof.
  rewrite C_args. rewrite HC. simpl nth.
  replace (u32 Cz) with Cz by (unfold u32; rewrite Z.mod_small; lia).
  f_equal. f_equal. destruct sparse_grad; unfold numel; simpl; lia.
Qed.

Lemma viewmats_shape :
  (if sparse_grad then [u32 (nth 0 (sizes viewmats) 0); 4; 4]
   else sizes viewmats) = [Cz; 4; 4].
Proof.
  rewrite HC. simpl nth.
  replace (u32 Cz) with Cz by (unfold u32; rewrite Z.mod_small; lia).
  now destruct sparse_grad.
Qed.

(** What the call returns for the extrinsics, from what the launch (if
    any) leaves in the buffer. *)
Lemma viewmats_returned (g0 : grads) (g : option grads) (shape : list Z) :
  v_viewmats g0 = Some (replicate (Z.to_nat (C args * 16)) lit_0) ->
  (nnz args = 0 /\ g = Some g0)
  \/ g = kernel H args N_THREADS
                (u32 (nnz args + N_THREADS - 1) / N_THREADS) schedule g0 ->
  exists lv,
    match v_viewmats (default g0 g) with
    | Some data => Some (shape, data)
    | None => Some (shape, replicate (Z.to_nat (C args * 16)) lit_0)
    end = Some (shape, lv)
    /\ negb (non_null g) = false
    /\ forall c j, 0 <= c < Cz -> 0 <= j < 16 ->
         lv !! Z.to_nat (c * 16 + j) = Some (camera_sum H args c (Z.to_nat j)).
Proof.
  intros Hv [[Hz ->] | ->].
  - simpl default. rewrite Hv. eexists. split; [reflexivity|].
    split; [reflexivity|]. intros c j Hc Hj.
    rewrite <- C_args in Hc. rewrite (zero_lookup _ _ c j Hc Hj).
    unfold camera_sum. rewrite Hz. reflexivity.
  - destruct (kernel H args N_THREADS _ schedule g0) as [g'|] eqn:Hk.
    2: { exfalso. revert Hk. unfold kernel.
         rewrite (kernel_ops_Some H args N_THREADS _ g0 Hnn). discriminate. }
    destruct (camera_block H args N_THREADS _ Hnn Hlaunch schedule Hsched
                g0 g' Hv Hk) as (lv & Hlv & _ & Hslots).
    simpl default. rewrite Hlv. exists lv. split; [reflexivity|].
    split; [reflexivity|]. intros c j Hc Hj. apply Hslots; [|exact Hj].
    now rewrite C_args.
Qed.

(** The call returns, and its extrinsics' gradient holds the per-camera
    sums. *)
Lemma entry_viewmats :
  exists events r lv,
    run (fully_fused_projection_packed_bwd_tensor
           CHECK_INPUT N_THREADS NDEBUG H schedule
           means covars quats scales viewmats Ks image_width image_height
           eps2d camera_ids gaussian_ids conics compensations
           v_means2d v_depths v_conics v_compensations true sparse_grad)
    = (events, Returned r)
    /\ r_viewmats r = Some ([Cz; 4; 4], lv)
    /\ r_fault r = false
    /\ forall c j, 0 <= c < Cz -> 0 <= j < 16 ->
         lv !! Z.to_nat (c * 16 + j) = Some (camera_sum H args c (Z.to_nat j)).
Proof.
  destruct Hchecks as (H1 & Hc & H3 & H4 & H5 & H6 & H7 & H8 & H9 & H10 & H11 & H12).
  unfold fully_fused_projection_packed_bwd_tensor, run.
  unfold bind, check.
  rewrite H1, H3, H4, H5, H6, H7, H8, H9, H10.
  assert (Hcomp : match compensations with
                  | Some c => CHECK_INPUT F c = None | None => True end).
  { destruct compensations; auto. }
  assert (Hvcomp : match v_compensations with
                   | Some c => CHECK_INPUT F c = None
                               /\ non_null compensations = true
                   | None => True end).
  { destruct v_compensations; auto. split; auto.
    pose proof (proj1 Hnn eq_refl) as E. simpl in E.
    destruct compensations; [reflexivity|discriminate]. }
  clear H11 H12.
  pose proof viewmats_zeros as Hz. pose proof viewmats_returned as Hret.
  pose proof viewmats_shape as Hshape.
  assert (Hvm : sizes viewmats <> []) by (rewrite HC; discriminate).
  destruct covars as [cv|];
    [|destruct Hc as (q & s & -> & -> & Hq & Hs)];
    destruct compensations as [cm|];
    (destruct v_compensations as [vc|];
     [destruct Hvcomp as [Hvc Hcm]; try discriminate Hcm|]);
    destruct NDEBUG;
    do 3 (cbn -[Bwd.kernel u32 Z.div replicate Z.to_nat numel Z.eqb Z.add
                Z.sub size];
          rewrite ?Hc, ?Hq, ?Hs, ?Hcomp, ?Hvc);
    rewrite (size_0 means) by assumption;
    rewrite (size_0 viewmats) by assumption;
    rewrite (size_0 camera_ids) by assumption;
    destruct (u32 (nth 0 (sizes camera_ids) 0) =? 0) eqn:Hnz;
    cbn -[Bwd.kernel u32 Z.div replicate Z.to_nat numel Z.eqb Z.add Z.sub size].
  all: rewrite ?Hz, ?Hshape.
  all: try match goal with
    | |- context [kernel H ?a N_THREADS ?nb schedule ?g0] =>
        destruct (Hret g0 (kernel H a N_THREADS nb schedule g0) [Cz; 4; 4]
                    eq_refl (or_intror eq_refl)) as (lv & E1 & E2 & E3);
        eexists _, _, lv; split; [reflexivity|];
        cbn [r_viewmats r_fault];
        split; [exact E1|]; split; [exact E2|exact E3]
    end.
  all: apply Z.eqb_eq in Hnz.
  all: match goal with
    | |- context [camera_sum H ?a] =>
        destruct (Hret {| v_means := None; v_covars := None; v_quats := None;
                          v_scales := None;
                          v_viewmats :=
                            Some (replicate (Z.to_nat (C a * 16)) lit_0) |}
                    _ [Cz; 4; 4] eq_refl (or_introl (conj Hnz eq_refl)))
          as (lv & E1 & E2 & E3)
    end.
  all: eexists _, _, lv; split; [reflexivity|]; cbn [r_viewmats r_fault].
  all: split; [exact E1|]; split; [reflexivity|exact E3].
Qed.
End Entry.

Section EntryClaim.
Context {Sc : Scalar} {SL : SumLaws Sc}.
Variable CHECK_INPUT : forall A, tensor A -> option string.
Variable N_THREADS : Z.
Variable NDEBUG : bool.
Variable H : Bwd.helpers.
Variable schedule : list Bwd.op -> list Bwd.op.
Variables (means : tensor F) (covars quats scales : option (tensor F))
    (viewmats Ks : tensor F)
    (image_width image_height : Z) (eps2d : F)
    (camera_ids gaussian_ids : tensor Z) (conics : tensor F)
    (compensations : option (tensor F))
    (v_means2d v_depths v_conics : tensor F)
    (v_compensations : option (tensor F)).
Variable sparse_grad : bool.
Variable Cz : Z.

Local Abbreviation args :=
  (BwdHostProp.entry_args means covars quats scales viewmats Ks
     image_width image_height eps2d camera_ids gaussian_ids conics
     compensations v_means2d v_depths v_conics v_compensations sparse_grad).


End EntryClaim.

End BwdEntryFacts.
(** * The backward pass on a concrete launch, in exact arithmetic *)

Module BwdWitness.
Import Host BwdHost Bwd BwdProp.

Section ExactLaunch.
#[local] Existing Instance exactQ.



End ExactLaunch.

Section FloatLaunch.
#[local] Existing Instance binary32.

(** The same launch in binary32, with the writes of the dense layout taken
    in reverse: the sums of this scene are exact, and every row of the
    dense result is the sum of the sparse rows of its primitive. *)
Lemma float_launch_grouped b stride :
  In (b, stride) primitive_buffers ->
  match buf b <$> kernel HostScene.plain_helpers
                         (with_layout true (HostScene.bwd_args false)) 256 1
                         (fun ops => ops)
                         (zero_grads (HostScene.bwd_args false) 3 true),
        buf b <$> kernel HostScene.plain_helpers
                         (with_layout false (HostScene.bwd_args false)) 256 1
                         (@rev op)
                         (zero_grads (HostScene.bwd_args false) 2 true) with
  | Some (Some ls), Some (Some ld) =>
    ld = flat_map (fun r =>
                     map (grouped_sum (HostScene.bwd_args false) stride ls r)
                         (seqZ 0 stride))
                  (seqZ 0 2)
  | Some None, Some None => True
  | _, _ => False
  end.
Proof.
  intros [E|[E|[E|[E|[]]]]]; injection E as <- <-; vm_compute;
    try exact I; reflexivity.
Qed.

(** The extrinsics' gradient in binary32 is the same under both layout
    flags. *)
Lemma float_call_viewmats :
  let call sparse :=
    run (fully_fused_projection_packed_bwd_tensor
           HostScene.check_input 256 false HostScene.plain_helpers (@rev op)
           (HostScene.filled [2; 3] lit_1)
           (Some (HostScene.filled [2; 6] lit_1)) None None
           (HostScene.filled [1; 4; 4] lit_1)
           (HostScene.filled [1; 3; 3] lit_1)
           2 2 lit_0
           (HostScene.filled [3] 0) (HostScene.alternating 3)
           (HostScene.filled [3; 3] lit_1)
           None
           (HostScene.ramp [3; 2]) (HostScene.filled [3] lit_1)
           (HostScene.ramp [3; 3])
           None true sparse) in
  match snd (call true), snd (call false) with
  | Returned rs, Returned rd =>
    r_viewmats rs = r_viewmats rd
    /\ fst <$> r_viewmats rs = Some [1; 4; 4]
    /\ r_means rs <> r_means rd
  | _, _ => False
  end.
Proof.
  vm_compute. split; [reflexivity|]. split; [reflexivity|]. discriminate.
Qed.

End FloatLaunch.

End BwdWitness.
(** * Further properties of the forward compositor *)

Module FwdExtra.
Import Fwd FwdProp FwdFacts FwdSeq.

Section Sequential.
Context {Sc : Scalar}.
Variable B : block.
Hypothesis Hok : range_ok B.
Variable ti : thread_index.

Lemma records_loop_done n idx st :
  done st = true -> records_loop B ti n idx st = st.
Proof. intros Hd. destruct n; simpl; [reflexivity | now rewrite Hd]. Qed.

Lemma direct_step_done_mono idx st :
  done st = true -> done (snd (direct_step B ti idx st)) = true.
Proof.
  intros Hd. unfold direct_step.
  destruct (skipped _ _ _ _); [assumption|].
  destruct (fle _ _); simpl; [reflexivity | assumption].
Qed.

Lemma records_loop_app n : forall m idx st,
  records_loop B ti (n + m) idx st
  = records_loop B ti m (idx + Z.of_nat n) (records_loop B ti n idx st).
Proof.
  induction n as [|n IH]; intros m idx st.
  - simpl. now rewrite Z.add_0_r.
  - change (S n + m)%nat with (S (n + m)). simpl.
    destruct (done st) eqn:Hd; [now rewrite records_loop_done|].
    destruct (direct_step B ti idx st) as [[|] st'] eqn:Hs.
    + rewrite IH. f_equal. lia.
    + rewrite records_loop_done; [reflexivity|].
      unfold direct_step in Hs.
      destruct (skipped _ _ _ _); [discriminate|].
      destruct (fle _ _); [|discriminate].
      injection Hs as <-. reflexivity.
Qed.

(** On a slot loaded in this batch the loop body sees the record of the
    range that the slot stands for. *)
Lemma record_step_direct b t sh st :
  0 <= b < num_batches B -> 0 <= t < batch_size B b ->
  record_step B ti (load_batch B b sh) b t st
  = direct_step B ti (batch_start B b + t) st.
Proof.
  intros Hb Ht.
  destruct (load_batch_slot B Hok b t sh Hb Ht) as (Hc & Hx & Hi).
  destruct (slot_index B Hok b t Hb Ht) as (Hu & _ & _).
  unfold record_step, direct_step. rewrite Hc, Hx, Hi, Hu. reflexivity.
Qed.

Lemma batch_loop_direct b sh n : forall t st,
  0 <= b < num_batches B -> 0 <= t -> t + Z.of_nat n <= batch_size B b ->
  batch_loop B ti (load_batch B b sh) b n t st
  = records_loop B ti n (batch_start B b + t) st.
Proof.
  induction n as [|n IH]; intros t st Hb Ht Hn; simpl; [reflexivity|].
  destruct (done st); [reflexivity|].
  rewrite record_step_direct by lia.
  destruct (direct_step B ti (batch_start B b + t) st) as [[|] st'];
    [|reflexivity].
  rewrite IH by lia. f_equal. lia.
Qed.

Lemma batch_size_eq b :
  0 <= b < num_batches B ->
  batch_size B b
  = Z.min (block_size B) (range_end B - (range_start B + block_size B * b)).
Proof.
  intros Hb. destruct (batch_start_eq B Hok b Hb) as [Hbs Hlt].
  pose proof (block_size_range B Hok). destruct Hok as (Hr & He & _).
  unfold batch_size. rewrite Hbs. rewrite u32_small by lia. reflexivity.
Qed.

Lemma thread_batches_records n : forall b sh st,
  0 <= b -> b + Z.of_nat n = num_batches B ->
  thread_batches B ti n b sh st
  = records_loop B ti
      (Z.to_nat (range_end B - (range_start B + block_size B * b)))
      (range_start B + block_size B * b) st.
Proof.
  pose proof (block_size_range B Hok) as HB.
  pose proof (num_batches_eq B Hok) as Hnb.
  induction n as [|n IH]; intros b sh st Hb Hn.
  - simpl.
    assert (Hle : range_end B - (range_start B + block_size B * b) <= 0).
    { assert (b = num_batches B) by lia. subst b. rewrite Hnb.
      pose proof (Z.mul_succ_div_gt
                    (range_end B - range_start B + block_size B - 1)
                    (block_size B) ltac:(lia)). lia. }
    replace (Z.to_nat _) with 0%nat by lia. reflexivity.
  - assert (Hbn : 0 <= b < num_batches B) by lia.
    destruct (batch_start_eq B Hok b Hbn) as [Hbs Hlt].
    pose proof (batch_size_eq b Hbn) as Hsz.
    cbn [thread_batches]. unfold process_batch.
    rewrite batch_loop_direct by lia.
    rewrite IH by lia.
    rewrite Hbs, Hsz.
    set (rem := range_end B - (range_start B + block_size B * b)) in *.
    destruct (Z.le_ge_cases (block_size B) rem) as [Hfull | Hpart].
    + rewrite Z.min_l by lia.
      replace (Z.to_nat rem)
        with (Z.to_nat (block_size B) + Z.to_nat (rem - block_size B))%nat
        by lia.
      rewrite records_loop_app, Z.add_0_r. unfold rem. f_equal; lia.
    + rewrite Z.min_r by lia.
      replace (Z.to_nat (range_end B - (range_start B + block_size B * (b + 1))))
        with 0%nat by (unfold rem in Hpart; lia).
      rewrite Z.add_0_r. reflexivity.
Qed.

Lemma direct_step_tidy idx st :
  range_start B <= idx < range_end B -> tidy B ti st ->
  tidy B ti (snd (direct_step B ti idx st)).
Proof.
  intros Hidx [Hlen Hcur]. unfold direct_step.
  destruct (skipped B ti (record_conic B idx) (record_xy_opac B idx)) eqn:Hs;
    [split; assumption|].
  destruct (fle _ _); simpl; [split; assumption|].
  split; simpl.
  - unfold accumulate. now rewrite length_imap.
  - right. split; assumption.
Qed.

Lemma records_loop_tidy n : forall idx st,
  range_start B <= idx -> idx + Z.of_nat n <= range_end B -> tidy B ti st ->
  tidy B ti (records_loop B ti n idx st).
Proof.
  induction n as [|n IH]; intros idx st Hlo Hhi Hst; simpl; [assumption|].
  destruct (done st); [assumption|].
  pose proof (direct_step_tidy idx st ltac:(lia) Hst) as Hstep.
  destruct (direct_step B ti idx st) as [[|] st']; simpl in Hstep;
    [|assumption].
  apply IH; [lia | lia | assumption].
Qed.

Lemma init_state_tidy : tidy B ti (init_state B ti).
Proof. split; simpl; [apply length_replicate | now left]. Qed.

Lemma composite_tidy : tidy B ti (composite B ti).
Proof.
  destruct Hok as (Hr & _). unfold composite.
  apply records_loop_tidy; [lia | lia | apply init_state_tidy].
Qed.

End Sequential.

Section Block.
Context {Sc : Scalar}.
Variable B : block.
Hypothesis Hok : range_ok B.

Lemma run_block_composite sh0 :
  run_block B sh0
  = map (fun th => {| th_idx := th_idx th;
                      th_st := composite B (th_idx th) |})
        (block_threads B).
Proof.
  rewrite (run_block_threads B Hok).
  apply map_ext_in. intros th Hin. unfold thread_run. f_equal.
  rewrite (thread_batches_records B Hok).
  - rewrite (block_threads_init B th) by now apply list_elem_of_In.
    unfold composite. f_equal; [f_equal|]; lia.
  - lia.
  - rewrite Z2Nat.id; [lia|].
    rewrite (num_batches_eq B Hok).
    pose proof (block_size_range B Hok). destruct Hok as (? & ? & ?).
    apply Z.div_pos; lia.
Qed.

Lemma run_block_elem sh0 th :
  th ∈ run_block B sh0 ->
  th_st th = composite B (th_idx th)
  /\ {| th_idx := th_idx th; th_st := init_state B (th_idx th) |}
     ∈ block_threads B.
Proof.
  rewrite run_block_composite. intros Hin.
  apply list_elem_of_fmap in Hin as (th0 & -> & Hin0). simpl.
  split; [reflexivity|].
  rewrite <- (block_threads_init B th0 Hin0). now destruct th0.
Qed.

End Block.

(** X1.  The block's lock-step run, with its batches staged through the
    shared arrays and its tile-wide early exit, leaves in every thread
    what offering the records of the tile's range to the thread's pixel
    one by one, front to back, leaves. *)
Theorem block_composites_in_order {Sc : Scalar} (B : block) sh0 :
  range_ok B ->
  run_block B sh0
  = map (fun th => {| th_idx := th_idx th;
                      th_st := composite B (th_idx th) |})
        (block_threads B).
Proof. intros Hok. now apply run_block_composite. Qed.

(** X2.  What the shared arrays hold when the kernel starts (the source
    leaves them uninitialised) has no effect on any thread: a slot is read
    only after it was loaded in the same batch. *)
Theorem shared_arrays_never_stale {Sc : Scalar} (B : block) sh0 sh0' :
  range_ok B -> run_block B sh0 = run_block B sh0'.
Proof.
  intros Hok. now rewrite (run_block_composite B Hok sh0),
                          (run_block_composite B Hok sh0').
Qed.

(** X3.  Every thread that owns a pixel stores one: its colour has
    [COLOR_DIM] channels, its coverage is one minus the final
    transmittance, and its last-contributor index is either the initial
    zero or the index of a record of the tile's range that passed the test
    of line 120 at this pixel. *)
Theorem pixel_well_formed {Sc : Scalar} (B : block) sh0 th :
  range_ok B ->
  th ∈ run_block B sh0 ->
  inside B (th_idx th) = true ->
  exists p,
    finalize B (th_idx th) (th_st th) = Some p
    /\ length (render_color p) = Z.to_nat (COLOR_DIM B)
    /\ render_alpha p = fsub lit_1 (T (th_st th))
    /\ (last_id p = 0
        \/ (range_start B <= last_id p < range_end B
            /\ skipped B (th_idx th) (record_conic B (last_id p))
                       (record_xy_opac B (last_id p)) = false)).
Proof.
  intros Hok Hin Hins.
  destruct (run_block_elem B Hok sh0 th Hin) as [Hst _].
  destruct (composite_tidy B Hok (th_idx th)) as [Hlen Hcur].
  rewrite <- Hst in Hlen, Hcur.
  unfold finalize. rewrite Hins. eexists. split; [reflexivity|]. simpl.
  split; [now rewrite length_imap|]. split; [reflexivity|].
  assert (Hi : i32 (cur_idx (th_st th)) = cur_idx (th_st th)).
  { destruct Hok as (Hr & He & _).
    destruct Hcur as [-> | [Hc _]]; [reflexivity|].
    unfold i32. rewrite Z.mod_small; lia. }
  rewrite Hi. exact Hcur.
Qed.

(** X4.  A thread whose pixel lies outside the image takes part in the
    block's run without compositing anything, and stores nothing. *)
Theorem outside_thread_idle {Sc : Scalar} (B : block) sh0 th :
  range_ok B ->
  th ∈ run_block B sh0 ->
  inside B (th_idx th) = false ->
  th_st th = init_state B (th_idx th)
  /\ finalize B (th_idx th) (th_st th) = None.
Proof.
  intros Hok Hin Hout.
  destruct (run_block_elem B Hok sh0 th Hin) as [Hst _].
  split.
  - rewrite Hst. unfold composite. apply records_loop_done.
    simpl. now rewrite Hout.
  - unfold finalize. now rewrite Hout.
Qed.

End FwdExtra.

(** * Where the pixels are stored *)

Module FwdStoreFacts.
Import Fwd FwdStores.

Section Geometry.
Context {Sc : Scalar}.
Variable B : block.
Variable ti : thread_index.
Hypothesis Hframe : frame_ok (args B) (COLOR_DIM B).
Hypothesis Hgrid : in_grid B ti.

Lemma pixels_fit :
  0 < C (args B) ->
  0 <= C (args B) * image_height (args B) * image_width (args B) < 2 ^ 31.
Proof.
  intros HC.
  destruct Hframe as (_ & HH & HW & Hcd & Hsz & _).
  set (n := C (args B) * image_height (args B) * image_width (args B)) in *.
  assert (0 <= n) by (unfold n; apply Z.mul_nonneg_nonneg; nia).
  split; [assumption | nia].
Qed.

Lemma row_col :
  i B ti = by_ B * tile_size (args B) + ty ti
  /\ j B ti = bz B * tile_size (args B) + tx ti.
Proof.
  destruct Hframe as (Hts & _ & _ & _ & _ & _ & Hth & Htw).
  destruct Hgrid as (_ & Hby & Hbz & Htx & Hty).
  unfold i, j, u32. rewrite !Z.mod_small; [auto | nia | nia].
Qed.

Hypothesis Hin : inside B ti = true.

Lemma inside_bounds :
  0 <= i B ti < image_height (args B) /\ 0 <= j B ti < image_width (args B).
Proof.
  destruct row_col as [Hi Hj].
  destruct Hframe as (Hts & _). destruct Hgrid as (_ & Hby & Hbz & Htx & Hty).
  unfold inside in Hin. apply andb_true_iff in Hin as [H1 H2].
  apply Z.ltb_lt in H1, H2. rewrite Hi, Hj in *. split; nia.
Qed.

Lemma pixel_count :
  0 <= (bx B * image_height (args B) + i B ti) * image_width (args B)
       + j B ti
    < C (args B) * image_height (args B) * image_width (args B).
Proof.
  destruct inside_bounds as [Hi Hj].
  destruct Hgrid as (Hbx & _).
  set (H := image_height (args B)) in *. set (W := image_width (args B)) in *.
  assert (Hrow : 0 <= bx B * H + i B ti < C (args B) * H) by nia.
  split; [nia|].
  assert ((bx B * H + i B ti + 1) * W <= C (args B) * H * W) by nia.
  nia.
Qed.

Lemma alpha_index_eq :
  alpha_index B ti
  = (bx B * image_height (args B) + i B ti) * image_width (args B) + j B ti.
Proof.
  pose proof pixel_count as Hp. destruct inside_bounds as [Hi Hj].
  destruct Hframe as (_ & _ & _ & Hcd & Hsz & HC & _).
  destruct Hgrid as (Hbx & _).
  set (H := image_height (args B)) in *. set (W := image_width (args B)) in *.
  assert (HCHW : 0 <= C (args B) * H * W < 2 ^ 31) by (apply pixels_fit; lia).
  assert (Hcam : camera_id B = bx B).
  { unfold camera_id, i32. rewrite Z.mod_small; lia. }
  assert (Hrow : 0 <= i B ti * W + j B ti < H * W) by nia.
  assert (Hbase : 0 <= bx B * H * W <= C (args B) * H * W - H * W) by nia.
  assert (HHW : 0 <= H * W) by nia.
  unfold alpha_index, pix_id. fold H W. rewrite Hcam.
  unfold u32, i32.
  rewrite (Z.mod_small (bx B * H * W)) by lia.
  rewrite (Z.mod_small (i B ti * W + j B ti)) by lia.
  rewrite Z.mod_small by lia. lia.
Qed.

Lemma color_index_eq k :
  0 <= k < COLOR_DIM B ->
  color_index B ti k = alpha_index B ti * COLOR_DIM B + k.
Proof.
  intros Hk. rewrite alpha_index_eq.
  pose proof pixel_count as Hp. destruct inside_bounds as [Hi Hj].
  destruct Hframe as (_ & _ & _ & Hcd & Hsz & HC & _).
  destruct Hgrid as (Hbx & _).
  set (H := image_height (args B)) in *. set (W := image_width (args B)) in *.
  set (D := COLOR_DIM B) in *.
  assert (HCHW : 0 <= C (args B) * H * W < 2 ^ 31) by (apply pixels_fit; lia).
  assert (Hcam : camera_id B = bx B).
  { unfold camera_id, i32. rewrite Z.mod_small; lia. }
  assert (Hrow : 0 <= i B ti * W + j B ti < H * W) by nia.
  assert (Hbase : 0 <= bx B * H * W <= C (args B) * H * W - H * W) by nia.
  assert (HHW : 0 <= H * W) by nia.
  assert (Hpix : pix_id B ti = i B ti * W + j B ti).
  { unfold pix_id. fold W. unfold u32, i32.
    rewrite (Z.mod_small (i B ti * W + j B ti)) by lia.
    rewrite Z.mod_small by lia. lia. }
  unfold color_index. fold H W D. rewrite Hcam, Hpix.
  assert (0 <= (i B ti * W + j B ti) * D + k < H * W * D) by nia.
  assert (0 <= bx B * H * W * D <= C (args B) * H * W * D - H * W * D) by nia.
  assert (0 <= H * W * D) by nia.
  unfold u32. rewrite !Z.mod_small by lia. lia.
Qed.

End Geometry.

Lemma div_mod_pair (w a r a' r' : Z) :
  0 <= r < w -> 0 <= r' < w -> a * w + r = a' * w + r' -> a = a' /\ r = r'.
Proof. intros Hr Hr' Heq. assert (a = a') by nia. subst. lia. Qed.

(** X5.  A thread of the launch that owns a pixel stores its coverage and
    last-contributor index at the row-major position of pixel [(i, j)] of
    camera [bx], inside the [C x image_height x image_width] tensors, and
    its channel [k] at that position times [COLOR_DIM] plus [k]. *)
Theorem pixel_store_position {Sc : Scalar} (B : block) (ti : thread_index) :
  frame_ok (args B) (COLOR_DIM B) -> in_grid B ti -> inside B ti = true ->
  i B ti = by_ B * tile_size (args B) + ty ti
  /\ j B ti = bz B * tile_size (args B) + tx ti
  /\ alpha_index B ti
     = (bx B * image_height (args B) + i B ti) * image_width (args B)
       + j B ti
  /\ 0 <= alpha_index B ti
       < C (args B) * image_height (args B) * image_width (args B)
  /\ forall k, 0 <= k < COLOR_DIM B ->
       color_index B ti k = alpha_index B ti * COLOR_DIM B + k.
Proof.
  intros Hframe Hgrid Hin.
  destruct (row_col B ti Hframe Hgrid) as [Hi Hj].
  split; [exact Hi|]. split; [exact Hj|].
  split; [now apply alpha_index_eq|].
  split; [rewrite alpha_index_eq by assumption; now apply pixel_count|].
  intros k Hk. now apply color_index_eq.
Qed.

(** Two threads that own pixels and store their coverage at the same
    position are the same thread of the same block. *)
Lemma alpha_index_inj {Sc : Scalar} (B B' : block) (ti ti' : thread_index) :
  args B' = args B -> COLOR_DIM B' = COLOR_DIM B ->
  frame_ok (args B) (COLOR_DIM B) ->
  in_grid B ti -> in_grid B' ti' ->
  inside B ti = true -> inside B' ti' = true ->
  alpha_index B ti = alpha_index B' ti' ->
  bx B = bx B' /\ by_ B = by_ B' /\ bz B = bz B' /\ ti = ti'.
Proof.
  intros Ha Hd Hframe Hg Hg' Hin Hin' Heq.
  assert (Hframe' : frame_ok (args B') (COLOR_DIM B')) by now rewrite Ha, Hd.
  rewrite (alpha_index_eq B ti Hframe Hg Hin) in Heq.
  rewrite (alpha_index_eq B' ti' Hframe' Hg' Hin') in Heq.
  destruct (inside_bounds B ti Hframe Hg Hin) as [Hi Hj].
  destruct (inside_bounds B' ti' Hframe' Hg' Hin') as [Hi' Hj'].
  destruct (row_col B ti Hframe Hg) as [Ei Ej].
  destruct (row_col B' ti' Hframe' Hg') as [Ei' Ej'].
  rewrite Ha in *.
  destruct (div_mod_pair _ _ _ _ _ Hj Hj' Heq) as [Hrow Hcol].
  destruct (div_mod_pair _ _ _ _ _ Hi Hi' Hrow) as [Hcam Hr].
  destruct Hg as (_ & _ & _ & Htx & Hty).
  destruct Hg' as (_ & _ & _ & Htx' & Hty'). rewrite Ha in Htx', Hty'.
  rewrite Ei, Ei' in Hr. rewrite Ej, Ej' in Hcol.
  destruct (div_mod_pair _ _ _ _ _ Hty Hty' Hr) as [Hby Hy].
  destruct (div_mod_pair _ _ _ _ _ Htx Htx' Hcol) as [Hbz Hx].
  repeat split; try assumption.
  destruct ti, ti'; simpl in *; congruence.
Qed.

(** X6.  While the sizes of the launch stay in the range where the
    32-bit index arithmetic does not wrap ([frame_ok]), no two threads of
    a launch store to the same element: the threads of two different
    pixels store coverage and last-contributor index at different
    positions and every channel of the one at a position different from
    every channel of the other, and the channels of one thread go to
    different positions. *)
Theorem pixel_stores_disjoint {Sc : Scalar} (B B' : block)
    (ti ti' : thread_index) :
  args B' = args B -> COLOR_DIM B' = COLOR_DIM B ->
  frame_ok (args B) (COLOR_DIM B) ->
  in_grid B ti -> in_grid B' ti' ->
  inside B ti = true -> inside B' ti' = true ->
  (bx B, by_ B, bz B, ti) <> (bx B', by_ B', bz B', ti') ->
  alpha_index B ti <> alpha_index B' ti'
  /\ (forall k k', 0 <= k < COLOR_DIM B -> 0 <= k' < COLOR_DIM B ->
        color_index B ti k <> color_index B' ti' k')
  /\ (forall k k', 0 <= k < COLOR_DIM B -> 0 <= k' < COLOR_DIM B ->
        k <> k' -> color_index B ti k <> color_index B ti k').
Proof.
  intros Ha Hd Hframe Hg Hg' Hin Hin' Hne.
  assert (Hframe' : frame_ok (args B') (COLOR_DIM B')) by now rewrite Ha, Hd.
  assert (Halpha : alpha_index B ti <> alpha_index B' ti').
  { intros Heq. apply Hne.
    destruct (alpha_index_inj B B' ti ti' Ha Hd Hframe Hg Hg' Hin Hin' Heq)
      as (E1 & E2 & E3 & E4).
    now rewrite E1, E2, E3, E4. }
  split; [exact Halpha|]. split.
  - intros k k' Hk Hk' Heq.
    rewrite (color_index_eq B ti Hframe Hg Hin k Hk) in Heq.
    rewrite (color_index_eq B' ti' Hframe' Hg' Hin' k') in Heq
      by (rewrite Hd; exact Hk').
    rewrite Hd in Heq.
    now destruct (div_mod_pair _ _ _ _ _ Hk Hk' Heq).
  - intros k k' Hk Hk' Hkk Heq.
    rewrite !(color_index_eq B ti Hframe Hg Hin) in Heq by assumption.
    lia.
Qed.

(** X7.  While the sizes of the launch stay in the range where the
    32-bit index arithmetic does not wrap ([frame_ok]) and the tiles
    cover the image, every element of the outputs is stored: for every
    camera, row and column a thread of the launch stores coverage and
    last-contributor index at the row-major position of that pixel and
    channel [k] at that position times [COLOR_DIM] plus [k]. *)
Theorem every_pixel_stored {Sc : Scalar} (a : kernel_args) (D : Z)
    (c r col : Z) :
  frame_ok a D -> tiles_cover_image a ->
  0 <= c < C a -> 0 <= r < image_height a -> 0 <= col < image_width a ->
  exists B ti,
    args B = a /\ COLOR_DIM B = D /\ bx B = c
    /\ in_grid B ti /\ inside B ti = true
    /\ alpha_index B ti = (c * image_height a + r) * image_width a + col
    /\ forall k, 0 <= k < D ->
         color_index B ti k
         = ((c * image_height a + r) * image_width a + col) * D + k.
Proof.
  intros Hframe [Hch Hcw] Hc Hr Hcol.
  pose proof Hframe as (Hts & _).
  set (ts := tile_size a) in *.
  set (B := {| args := a; COLOR_DIM := D; bx := c;
               by_ := r / ts; bz := col / ts |}).
  set (ti := {| tx := col mod ts; ty := r mod ts |}).
  exists B, ti.
  assert (HfB : frame_ok (args B) (COLOR_DIM B)) by exact Hframe.
  assert (Hg : in_grid B ti).
  { unfold in_grid. simpl. fold ts.
    pose proof (Z.mod_pos_bound r ts Hts).
    pose proof (Z.mod_pos_bound col ts Hts).
    repeat split; try lia.
    - apply Z.div_pos; lia.
    - apply Z.div_lt_upper_bound; nia.
    - apply Z.div_pos; lia.
    - apply Z.div_lt_upper_bound; nia. }
  destruct (row_col B ti HfB Hg) as [Ei Ej].
  simpl in Ei, Ej. fold ts in Ei, Ej.
  assert (Ei' : i B ti = r).
  { rewrite Ei. pose proof (Z.div_mod r ts ltac:(lia)). lia. }
  assert (Ej' : j B ti = col).
  { rewrite Ej. pose proof (Z.div_mod col ts ltac:(lia)). lia. }
  assert (Hin : inside B ti = true).
  { unfold inside. rewrite Ei', Ej'. simpl.
    apply andb_true_iff. split; apply Z.ltb_lt; lia. }
  split; [reflexivity|]. split; [reflexivity|]. split; [reflexivity|].
  split; [exact Hg|]. split; [exact Hin|].
  assert (Ealpha : alpha_index B ti
                   = (c * image_height a + r) * image_width a + col).
  { rewrite (alpha_index_eq B ti HfB Hg Hin), Ei', Ej'. reflexivity. }
  split; [exact Ealpha|].
  intros k Hk.
  rewrite (color_index_eq B ti HfB Hg Hin k Hk), Ealpha. reflexivity.
Qed.

End FwdStoreFacts.

(** * Further properties of the projection's backward kernel *)

Module BwdExtra.
Import Bwd BwdProp BwdFacts BwdRows.

Section Reads.
Context {Sc : Scalar}.
Variable H : helpers.

Ltac split_forall :=
  repeat match goal with
         | Hf : Forall _ (_ :: _) |- _ =>
             apply Forall_cons in Hf; destruct Hf as [? Hf]
         | Hf : Forall _ [] |- _ => clear Hf
         end.

Lemma thread_locals_same_reads k k' i :
  same_reads k k' i -> thread_locals H k i = thread_locals H k' i.
Proof.
  intros (Hc & Hg & Hm & Hv & HK & Hcn & Hm2 & Hd & Hvc & Hw & Hh & He
          & Hcov & Hcomp).
  unfold thread_locals. rewrite Hc, Hg, <- Hw, <- Hh, <- He.
  clear Hc Hg Hw Hh He.
  unfold agree_opt in *.
  destruct (v_compensations k) as [v|], (v_compensations k') as [v'|];
    try contradiction;
    [destruct Hcomp as [Hvi Hcomp];
     destruct (compensations k) as [c|], (compensations k') as [c'|];
     try contradiction|];
    (destruct (covars k) as [cv|], (covars k') as [cv'|];
     try contradiction;
     [|destruct Hcov as [Hq Hs];
       destruct (quats k) as [q|], (quats k') as [q'|]; try contradiction;
       destruct (scales k) as [sc|], (scales k') as [sc'|];
       try contradiction]);
    repeat match goal with
           | Hf : Forall _ (seqZ _ _) |- _ => vm_compute seqZ in Hf
           end;
    split_forall; rewrite ?Z.add_0_r in *; cbn [mbind option_bind];
    repeat match goal with E : _ = _ |- _ => rewrite E; clear E end;
    reflexivity.
Qed.

End Reads.

(** X12.  The thread of a record computes its gradients from the record's
    own rows, its primitive's rows and its camera's rows alone: arguments
    that agree there (whatever they hold elsewhere, whatever the layout
    flag and the sizes, and whatever [compensations] holds when no
    gradient is given for it) give the thread the same locals. *)
Theorem thread_reads_own_rows {Sc : Scalar} (H : helpers)
    (k k' : kernel_args) (i : Z) :
  same_reads k k' i -> thread_locals H k i = thread_locals H k' i.
Proof. apply thread_locals_same_reads. Qed.

Section Launch.
Context {Sc : Scalar}.
Variable H : helpers.
Variable k : kernel_args.
Variables N_THREADS n_blocks : Z.
Hypothesis Hnn : no_null_read k.
Hypothesis Hlaunch : launch_ok k N_THREADS n_blocks.

Lemma warp_lanes_length b w :
  (length (warp_lanes k N_THREADS b w) <= 32)%nat.
Proof.
  unfold warp_lanes.
  etransitivity; [apply List.filter_length_le|].
  rewrite length_map, length_seqZ. lia.
Qed.

Lemma warps_length :
  Forall (fun lanes => (length lanes <= 32)%nat) (warps k N_THREADS n_blocks).
Proof.
  apply Forall_forall. intros lanes Hin.
  apply list_elem_of_In in Hin. unfold warps in Hin.
  apply in_flat_map in Hin as (b & _ & Hin).
  apply in_map_iff in Hin as (w & <- & _). apply warp_lanes_length.
Qed.

Lemma lane_in_range lanes i :
  In lanes (warps k N_THREADS n_blocks) -> In i lanes -> 0 <= i < nnz k.
Proof.
  intros Hl Hi.
  assert (Hc : In i (concat (warps k N_THREADS n_blocks)))
    by (apply in_concat; eauto).
  rewrite (warps_cover k N_THREADS n_blocks Hlaunch) in Hc.
  apply list_elem_of_In, elem_of_seqZ in Hc. lia.
Qed.

(** The writes of the launch, each with the warp and lane it comes from. *)
Lemma kernel_ops_elem g ops o :
  kernel_ops H k N_THREADS n_blocks g = Some ops -> In o ops ->
  exists lanes i,
    In lanes (warps k N_THREADS n_blocks) /\ In i lanes
    /\ In o (thread_ops H k g (map (record_locals H k) lanes)
                        (record_locals H k i)).
Proof.
  rewrite (kernel_ops_Some H k N_THREADS n_blocks g Hnn).
  intros [= <-] Ho.
  apply in_concat in Ho as (xs & Hxs & Ho).
  apply in_map_iff in Hxs as (lanes & <- & Hl).
  apply in_flat_map in Ho as (l & Hl' & Ho).
  apply in_map_iff in Hl' as (i & <- & Hi).
  eauto.
Qed.

End Launch.

Section Bounds.
Context {Sc : Scalar}.
Variable H : helpers.

Lemma record_stores_in_bounds ch (n : nat) rows g l o :
  length (ch_one ch l) = n ->
  Z.of_nat n <= ch_stride ch <= 6 ->
  0 <= idx l < rows -> 6 * rows <= 2 ^ 32 ->
  buf (ch_buf ch) g
  = Some (replicate (Z.to_nat (rows * ch_stride ch)) lit_0) ->
  In o (record_stores ch l) -> op_in_bounds g o.
Proof.
  intros Hone Hs Hidx Hrows Hb Ho. unfold record_stores in Ho.
  apply list_elem_of_In, elem_of_lookup_imap in Ho as (j & v & -> & Hj).
  apply lookup_lt_Some in Hj. rewrite Hone in Hj.
  unfold op_in_bounds. eexists. split; [exact Hb|].
  rewrite length_replicate. unfold u32. rewrite Z.mod_small by nia. nia.
Qed.

Lemma leader_adds_in_bounds ch (n : nat) rows g warp l o :
  (forall grp, length (ch_group ch grp) = n) ->
  Z.of_nat n <= ch_stride ch ->
  0 <= ch_label ch l < rows ->
  buf (ch_buf ch) g
  = Some (replicate (Z.to_nat (rows * ch_stride ch)) lit_0) ->
  In o (leader_adds ch warp l) -> op_in_bounds g o.
Proof.
  intros Hgrp Hs Hlab Hb Ho. unfold leader_adds in Ho.
  destruct (is_leader _ _ _); [|contradiction].
  apply list_elem_of_In, elem_of_lookup_imap in Ho as (j & v & -> & Hj).
  apply lookup_lt_Some in Hj. rewrite Hgrp in Hj.
  unfold op_in_bounds. eexists. split; [exact Hb|].
  rewrite length_replicate. nia.
Qed.

Lemma ids_in_range_elem k i :
  ids_in_range k = true -> 0 <= i < nnz k ->
  0 <= camera_ids k i < C k /\ 0 <= gaussian_ids k i < N k.
Proof.
  unfold ids_in_range. rewrite forallb_forall. intros Hall Hi.
  specialize (Hall i). rewrite <- list_elem_of_In, elem_of_seqZ in Hall.
  specialize (Hall ltac:(lia)).
  repeat (apply andb_true_iff in Hall as [Hall ?]). lia.
Qed.

Variable k : kernel_args.
Hypothesis Hnn : no_null_read k.
Hypothesis Hids : ids_in_range k = true.
Hypothesis H6 : 6 * nnz k <= 2 ^ 32.
Variable with_viewmats : bool.

Lemma thread_ops_in_bounds warp i o :
  0 <= i < nnz k ->
  In o (thread_ops H k
          (zero_grads k (if sparse_grad k then nnz k else N k) with_viewmats)
          warp (record_locals H k i)) ->
  op_in_bounds
    (zero_grads k (if sparse_grad k then nnz k else N k) with_viewmats) o.
Proof.
  intros Hi Ho.
  destruct (thread_locals_Some H k i Hnn) as (_ & Hidx & Hcid & Hgid).
  destruct (ids_in_range_elem k i Hids Hi) as [Hc Hg].
  set (l := record_locals H k i) in *.
  set (g := zero_grads k (if sparse_grad k then nnz k else N k)
                       with_viewmats) in *.
  assert (Hgm : non_null (v_means g) = true) by reflexivity.
  assert (Hgc : non_null (v_covars g) = non_null (covars k))
    by (unfold g; simpl; now destruct (non_null (covars k))).
  assert (Hgv : non_null (v_viewmats g) = with_viewmats)
    by (unfold g; simpl; now destruct with_viewmats).
  unfold thread_ops in Ho. apply in_app_or in Ho as [Ho | Ho].
  - destruct (sparse_grad k) eqn:Hsp.
    + rewrite sparse_ops_channels, Hgm, Hgc in Ho.
      apply in_app_or in Ho as [Ho | Ho].
      * apply (record_stores_in_bounds ch_means 3 (nnz k) g l);
          try reflexivity; try assumption; simpl; lia.
      * destruct (non_null (covars k)) eqn:Hcov.
        -- apply (record_stores_in_bounds ch_covars 6 (nnz k) g l);
             try reflexivity; try assumption; simpl; rewrite ?Hcov;
             try reflexivity; lia.
        -- apply in_app_or in Ho as [Ho | Ho].
           ++ apply (record_stores_in_bounds (ch_quats H) 4 (nnz k) g l);
                try reflexivity; try assumption; simpl; rewrite ?Hcov;
                try reflexivity; lia.
           ++ apply (record_stores_in_bounds (ch_scales H) 3 (nnz k) g l);
                try reflexivity; try assumption; simpl; rewrite ?Hcov;
                try reflexivity; lia.
    + rewrite dense_ops_channels, Hgm, Hgc in Ho.
      apply in_app_or in Ho as [Ho | Ho].
      * apply (leader_adds_in_bounds ch_means 3 (N k) g warp l);
          try reflexivity; try assumption; simpl; lia.
      * destruct (non_null (covars k)) eqn:Hcov.
        -- apply (leader_adds_in_bounds ch_covars 6 (N k) g warp l);
             try reflexivity; try assumption; simpl; rewrite ?Hcov;
             try reflexivity; lia.
        -- apply in_app_or in Ho as [Ho | Ho].
           ++ apply (leader_adds_in_bounds (ch_quats H) 4 (N k) g warp l);
                try reflexivity; try assumption; simpl; rewrite ?Hcov;
                try reflexivity; lia.
           ++ apply (leader_adds_in_bounds (ch_scales H) 3 (N k) g warp l);
                try reflexivity; try assumption; simpl; rewrite ?Hcov;
                try reflexivity; lia.
  - rewrite viewmat_ops_channel, Hgv in Ho.
    destruct with_viewmats; [|contradiction].
    apply (leader_adds_in_bounds ch_viewmats 12 (C k) g warp l);
      try reflexivity; try assumption; simpl; lia.
Qed.

End Bounds.

(** X9.  The grid of the launch, [(nnz + N_THREADS - 1) / N_THREADS]
    blocks of [N_THREADS] threads cut into warps of 32: the lanes that
    pass the test [idx >= nnz], taken warp by warp, are the records
    [0 .. nnz - 1], each once and in order, and no warp holds more than 32
    of them. *)
Theorem launch_covers_records {Sc : Scalar} (k : kernel_args)
    (N_THREADS n_blocks : Z) :
  launch_ok k N_THREADS n_blocks ->
  concat (warps k N_THREADS n_blocks) = seqZ 0 (nnz k)
  /\ Forall (fun lanes => (length lanes <= 32)%nat)
            (warps k N_THREADS n_blocks).
Proof.
  intros Hlaunch. split; [now apply warps_cover | apply warps_length].
Qed.

Section Slots.
Context {Sc : Scalar}.

(** The adds of one lane that reach slot [j] of row [base]. *)
Lemma adds_to_leader ch (n : nat) warp l base j :
  Z.of_nat n <= ch_stride ch ->
  (forall grp, length (ch_group ch grp) = n) ->
  Z.of_nat j < ch_stride ch ->
  adds_to (ch_buf ch) (base * ch_stride ch + Z.of_nat j) (leader_adds ch warp l)
  = if is_leader (ch_label ch) warp l && (ch_label ch l =? base)
    then option_list
           (ch_group ch (List.filter (fun l' => ch_label ch l' =? base) warp)
            !! j)
    else [].
Proof.
  intros Hs Hlen Hj.
  unfold leader_adds. destruct (is_leader (ch_label ch) warp l); [|reflexivity].
  rewrite adds_to_imap, buffer_eqb_refl. simpl.
  destruct (ch_label ch l =? base) eqn:E.
  - apply Z.eqb_eq in E. unfold group. rewrite E.
    replace (base * ch_stride ch <=? base * ch_stride ch + Z.of_nat j)
      with true by (symmetry; apply Z.leb_le; lia).
    replace (Z.to_nat (base * ch_stride ch + Z.of_nat j - base * ch_stride ch))
      with j by lia.
    reflexivity.
  - apply Z.eqb_neq in E.
    destruct (ch_label ch l * ch_stride ch
              <=? base * ch_stride ch + Z.of_nat j) eqn:E2; [|reflexivity].
    apply Z.leb_le in E2.
    rewrite lookup_ge_None_2; [reflexivity|].
    rewrite Hlen. nia.
Qed.

Variable H : helpers.
Variable k : kernel_args.
Variables N_THREADS n_blocks : Z.
Hypothesis Hnn : no_null_read k.
Hypothesis Hlaunch : launch_ok k N_THREADS n_blocks.
Variable schedule : list op -> list op.
Hypothesis Hsched : forall ops, Permutation ops (schedule ops).
Variable g : grads.

(** A channel written with one store per record and value: whatever the
    buffer held, the slot of record [i] holds what the record stores. *)
Lemma store_slot (ch : channel) (n : nat) i (j : nat) l0 x :
  Z.of_nat n <= ch_stride ch <= 6 ->
  (forall l, length (ch_one ch l) = n) ->
  (forall warp l p,
     stores_to (ch_buf ch) p (thread_ops H k g warp l)
     = stores_to (ch_buf ch) p (record_stores ch l)) ->
  (forall warp l p, adds_to (ch_buf ch) p (thread_ops H k g warp l) = []) ->
  buf (ch_buf ch) g = Some l0 ->
  0 <= i < nnz k -> (j < n)%nat ->
  l0 !! Z.to_nat (i * ch_stride ch + Z.of_nat j) = Some x ->
  exists g' l',
    kernel H k N_THREADS n_blocks schedule g = Some g'
    /\ buf (ch_buf ch) g' = Some l' /\ length l' = length l0
    /\ l' !! Z.to_nat (i * ch_stride ch + Z.of_nat j)
       = Some (default lit_0 (ch_one ch (record_locals H k i) !! j)).
Proof.
  intros Hs Hone Hstores Hadds Hb Hi Hj Hx0.
  unfold kernel. rewrite (kernel_ops_Some H k N_THREADS n_blocks g Hnn).
  set (ops := concat _). cbn [mbind option_bind].
  assert (Hp : 0 <= i * ch_stride ch + Z.of_nat j) by nia.
  destruct (slot_after_ops (ch_buf ch) _ (schedule ops) g l0 x Hb Hp Hx0)
    as (l' & Hb' & Hl' & Hx').
  exists (foldl apply_op g (schedule ops)), l'.
  split; [reflexivity|]. split; [exact Hb'|]. split; [exact Hl'|].
  rewrite Hx'. f_equal.
  set (p := i * ch_stride ch + Z.of_nat j) in *.
  assert (Had : adds_to (ch_buf ch) p ops = []).
  { unfold ops. rewrite adds_to_concat, map_map.
    apply concat_nil_Forall, Forall_forall. intros y Hy.
    apply list_elem_of_In, in_map_iff in Hy as (lanes & <- & _).
    rewrite adds_to_flat_map. apply flat_map_nowhere.
    intros l _. apply Hadds. }
  destruct (lookup_lt_is_Some_2 (ch_one ch (record_locals H k i)) j)
    as [v Hv]; [rewrite Hone; exact Hj|].
  rewrite Hv. simpl.
  assert (Hst : stores_to (ch_buf ch) p ops = [v]).
  { unfold ops. rewrite stores_to_concat, map_map.
    rewrite (map_ext _ (flat_map (fun i' =>
               stores_to (ch_buf ch) p
                 (record_stores ch (record_locals H k i'))))).
    2: { intros lanes. rewrite stores_to_flat_map, flat_map_map.
         apply flat_map_ext. intros i'. apply Hstores. }
    rewrite concat_map_flat_map, (warps_cover k N_THREADS n_blocks Hlaunch).
    rewrite <- (flat_map_once_Z (seqZ 0 (nnz k)) i [v]).
    2: apply NoDup_seqZ.
    2: { apply list_elem_of_In, elem_of_seqZ. lia. }
    apply flat_map_agree. intros i' Hi'.
    apply list_elem_of_In, elem_of_seqZ in Hi'.
    unfold record_stores. rewrite stores_to_imap, buffer_eqb_refl. simpl.
    destruct (thread_locals_Some H k i' Hnn) as (_ & -> & _).
    destruct Hlaunch as (_ & _ & _ & H6 & _).
    unfold u32. rewrite Z.mod_small by nia.
    destruct (i' =? i) eqn:E.
    - apply Z.eqb_eq in E. subst i'.
      replace (i * ch_stride ch <=? p) with true
        by (symmetry; apply Z.leb_le; unfold p; lia).
      replace (Z.to_nat (p - i * ch_stride ch)) with j by (unfold p; lia).
      rewrite Hv. reflexivity.
    - apply Z.eqb_neq in E.
      destruct (i' * ch_stride ch <=? p) eqn:E2; [|reflexivity].
      apply Z.leb_le in E2. unfold p in *.
      rewrite lookup_ge_None_2; [reflexivity|].
      rewrite Hone. nia. }
  apply slot_after_store.
  - apply Permutation_nil. rewrite <- Had. apply adds_to_perm, Hsched.
  - apply Permutation_length_1_inv. rewrite <- Hst.
    apply stores_to_perm, Hsched.
Qed.

(** The channel behind a buffer of the primitives' gradients that the
    write-out reaches. *)
Lemma written_channel b stride :
  In (b, stride) primitive_buffers -> written g b = true ->
  exists ch n,
    ch_buf ch = b /\ ch_stride ch = stride /\ stride = Z.of_nat n
    /\ stride <= 6
    /\ (forall l, length (ch_one ch l) = n)
    /\ (forall grp, length (ch_group ch grp) = n)
    /\ ch_label ch = gid /\ active H g ch
    /\ forall l, ch_one ch l = sparse_row H b l.
Proof.
  intros Hin Hw. simpl in Hin.
  destruct Hin as [E|[E|[E|[E|[]]]]]; injection E as <- <-; simpl in Hw.
  - exists ch_means, 3%nat. repeat split; try lia. now constructor.
  - exists ch_covars, 6%nat. repeat split; try lia. now apply active_covars.
  - exists (ch_quats H), 4%nat. repeat split; try lia.
    apply active_quats. now destruct (non_null (v_covars g)).
  - exists (ch_scales H), 3%nat. repeat split; try lia.
    apply active_scales. now destruct (non_null (v_covars g)).
Qed.

End Slots.

(** X10.  Memory safety of the write-out.  With every record naming a
    camera below [C] and a primitive below [N], and the buffers sized as
    the entry point sizes them ([nnz] rows in the sparse layout, [N] in
    the dense one, one 4x4 block per camera), no thread faults and every
    store and every atomic add of the launch lands inside the buffer it
    names. *)
Theorem writes_in_bounds {Sc : Scalar} (H : helpers) (k : kernel_args)
    (N_THREADS n_blocks : Z) (with_viewmats : bool) :
  no_null_read k -> launch_ok k N_THREADS n_blocks ->
  ids_in_range k = true ->
  exists ops,
    kernel_ops H k N_THREADS n_blocks
      (zero_grads k (if sparse_grad k then nnz k else N k) with_viewmats)
    = Some ops
    /\ Forall (op_in_bounds
                 (zero_grads k (if sparse_grad k then nnz k else N k)
                             with_viewmats)) ops.
Proof.
  intros Hnn Hlaunch Hids.
  destruct (kernel_ops H k N_THREADS n_blocks _) as [ops|] eqn:Hops.
  2: { rewrite (kernel_ops_Some H k N_THREADS n_blocks _ Hnn) in Hops.
       discriminate. }
  exists ops. split; [reflexivity|].
  apply Forall_forall. intros o Ho. apply list_elem_of_In in Ho.
  destruct (kernel_ops_elem H k N_THREADS n_blocks Hnn _ ops o Hops Ho)
    as (lanes & i & Hl & Hi & Hin).
  pose proof (lane_in_range k N_THREADS n_blocks Hlaunch lanes i Hl Hi) as Hr.
  destruct Hlaunch as (_ & _ & _ & H6 & _).
  exact (thread_ops_in_bounds H k Hnn Hids H6 with_viewmats _ i o Hr Hin).
Qed.


(** X13.  The dense layout.  The row of a primitive that no record
    names is left as it was (zero, when the buffer comes from the entry
    point), in every buffer of the primitives' gradients that the
    write-out reaches. *)
Theorem unseen_primitive_untouched {Sc : Scalar} (H : helpers)
    (k : kernel_args) (N_THREADS n_blocks : Z)
    (schedule : list op -> list op) (g : grads) b stride l0 r :
  no_null_read k -> launch_ok k N_THREADS n_blocks ->
  sparse_grad k = false ->
  (forall ops, Permutation ops (schedule ops)) ->
  In (b, stride) primitive_buffers -> written g b = true ->
  buf b g = Some l0 ->
  0 <= r -> (forall i, 0 <= i < nnz k -> gaussian_ids k i <> r) ->
  exists g' l',
    kernel H k N_THREADS n_blocks schedule g = Some g'
    /\ buf b g' = Some l' /\ length l' = length l0
    /\ forall j, 0 <= j < stride ->
         l' !! Z.to_nat (r * stride + j) = l0 !! Z.to_nat (r * stride + j).
Proof.
  intros Hnn Hlaunch Hsp Hsched Hin Hw Hb Hr Hunseen.
  destruct (written_channel H g b stride Hin Hw)
    as (ch & n & <- & <- & Hn & H6 & _ & Hgrp & Hlab & Hact & _).
  unfold kernel. rewrite (kernel_ops_Some H k N_THREADS n_blocks g Hnn).
  set (ops := concat _). cbn [mbind option_bind].
  destruct (buf_foldl_Some (ch_buf ch) (schedule ops) g l0 Hb)
    as (l' & Hb' & Hl').
  exists (foldl apply_op g (schedule ops)), l'.
  split; [reflexivity|]. split; [exact Hb'|]. split; [exact Hl'|].
  intros j Hj.
  set (j' := Z.to_nat j).
  assert (Ej : j = Z.of_nat j') by (unfold j'; lia). rewrite Ej.
  set (p := r * ch_stride ch + Z.of_nat j').
  destruct (l0 !! Z.to_nat p) as [x|] eqn:Hx.
  2: { apply lookup_ge_None in Hx. apply lookup_ge_None. lia. }
  destruct (slot_after_ops (ch_buf ch) p (schedule ops) g l0 x Hb
              ltac:(unfold p; nia) Hx) as (l1 & Hb1 & _ & Hx1).
  rewrite Hb' in Hb1. injection Hb1 as <-. rewrite Hx1. f_equal.
  assert (Had : adds_to (ch_buf ch) p ops = []).
  { unfold ops. rewrite adds_to_concat, map_map.
    apply concat_nil_Forall, Forall_forall. intros y Hy.
    apply list_elem_of_In, in_map_iff in Hy as (lanes & <- & Hl).
    rewrite adds_to_flat_map. apply flat_map_nowhere.
    intros l Hlin. apply in_map_iff in Hlin as (i & <- & Hi).
    rewrite (proj1 (dense_thread_ops H k g ch _ _ p Hsp Hact)).
    unfold p. rewrite (adds_to_leader ch n) by (try exact Hgrp; lia).
    rewrite Hlab.
    destruct (thread_locals_Some H k i Hnn) as (_ & _ & _ & ->).
    pose proof (lane_in_range k N_THREADS n_blocks Hlaunch lanes i Hl Hi).
    destruct (gaussian_ids k i =? r) eqn:E; [|now rewrite andb_false_r].
    apply Z.eqb_eq in E. exfalso. now apply (Hunseen i). }
  assert (Hst : stores_to (ch_buf ch) p ops = []).
  { unfold ops. rewrite stores_to_concat, map_map.
    apply concat_nil_Forall, Forall_forall. intros y Hy.
    apply list_elem_of_In, in_map_iff in Hy as (lanes & <- & _).
    rewrite stores_to_flat_map. apply flat_map_nowhere.
    intros l _. apply (dense_thread_ops H k g ch _ _ p Hsp Hact). }
  apply slot_after_untouched.
  - apply Permutation_nil. rewrite <- Had. apply adds_to_perm, Hsched.
  - apply Permutation_nil. rewrite <- Hst. apply stores_to_perm, Hsched.
Qed.

(** X14.  One atomic add per group.  In the dense layout the lanes of a
    warp that name the same primitive add to each value of its row once
    between them (the group's first lane, after [warpSum]), and not at
    all when no lane of the warp names it. *)
Theorem one_add_per_group {Sc : Scalar} (H : helpers) (k : kernel_args)
    (N_THREADS n_blocks : Z) (g : grads) b stride lanes r j :
  no_null_read k -> launch_ok k N_THREADS n_blocks ->
  sparse_grad k = false ->
  In (b, stride) primitive_buffers -> written g b = true ->
  In lanes (warps k N_THREADS n_blocks) ->
  0 <= j < stride ->
  exists ops,
    warp_ops H k g lanes = Some ops
    /\ length (adds_to b (r * stride + j) ops)
       = if existsb (fun i => gaussian_ids k i =? r) lanes
         then 1%nat else 0%nat.
Proof.
  intros Hnn Hlaunch Hsp Hin Hw Hl Hj.
  destruct (written_channel H g b stride Hin Hw)
    as (ch & n & <- & <- & Hn & H6 & _ & Hgrp & Hlab & Hact & _).
  unfold warp_ops.
  rewrite (mapM_thread_locals H k lanes Hnn).
  cbn [mbind option_bind]. eexists. split; [reflexivity|].
  set (warp := map (record_locals H k) lanes).
  set (j' := Z.to_nat j).
  assert (Ej : j = Z.of_nat j') by (unfold j'; lia). rewrite Ej.
  rewrite adds_to_flat_map.
  rewrite (flat_map_agree _
             (fun l => if is_leader (ch_label ch) warp l
                          && (ch_label ch l =? r)
                       then option_list
                              (ch_group ch
                                 (List.filter
                                    (fun l' => ch_label ch l' =? r) warp)
                               !! j')
                       else [])).
  2: { intros l _.
       rewrite (proj1 (dense_thread_ops H k g ch warp l _ Hsp Hact)).
       apply (adds_to_leader ch n); [lia | exact Hgrp | lia]. }
  rewrite leader_once
    by (unfold warp; rewrite idx_record_locals by exact Hnn;
        exact (warp_NoDup k N_THREADS n_blocks Hlaunch lanes Hl)).
  assert (Hfilter : List.filter (fun l' => ch_label ch l' =? r) warp
                    = map (record_locals H k)
                          (List.filter (fun i => gaussian_ids k i =? r) lanes)).
  { unfold warp. rewrite Hlab. clear -Hnn. induction lanes as [|i lanes IH];
      simpl; [reflexivity|].
    destruct (thread_locals_Some H k i Hnn) as (_ & _ & _ & ->).
    destruct (gaussian_ids k i =? r); simpl; now rewrite IH. }
  rewrite Hfilter.
  assert (Hex : existsb (fun i => gaussian_ids k i =? r) lanes
                = match List.filter (fun i => gaussian_ids k i =? r) lanes with
                  | [] => false | _ :: _ => true end).
  { clear. induction lanes as [|i lanes IH]; simpl; [reflexivity|].
    destruct (gaussian_ids k i =? r); simpl; [reflexivity | exact IH]. }
  rewrite Hex.
  destruct (List.filter (fun i => gaussian_ids k i =? r) lanes) as [|i0 rest];
    [reflexivity|].
  destruct (lookup_lt_is_Some_2
              (ch_group ch (map (record_locals H k) (i0 :: rest))) j')
    as [v Hv]; [rewrite Hgrp; lia|].
  simpl map in *. rewrite Hv. reflexivity.
Qed.

End BwdExtra.

(** * Further properties of the entry points *)

Module HostExtra.
Import Host HostProp.

Section Sizes.
Context {E A : Type}.

(** [t.size(k)] either returns the size or raises, and emits nothing. *)
Lemma size_nat_cases (t : tensor A) (k : nat) (tr : list E) :
  ((k < length (sizes t))%nat
   /\ size t (Z.of_nat k) tr = (tr, Returned (nth k (sizes t) 0)))
  \/ ((length (sizes t) <= k)%nat
      /\ size t (Z.of_nat k) tr = (tr, Thrown "Dimension out of range")).
Proof.
  destruct (Nat.lt_ge_cases k (length (sizes t))) as [Hlt | Hge].
  - left. split; [exact Hlt|]. now apply FwdHostFacts.size_nth.
  - right. split; [exact Hge|]. unfold size, dim.
    replace (Z.of_nat k <? 0) with false by (symmetry; apply Z.ltb_ge; lia).
    replace (Z.of_nat k <? Z.of_nat (length (sizes t))) with false
      by (symmetry; apply Z.ltb_ge; lia).
    now rewrite andb_false_r.
Qed.

Lemma size_last_cases (t : tensor A) (tr : list E) :
  ((1 <= length (sizes t))%nat
   /\ size t (-1) tr = (tr, Returned (List.last (sizes t) 0)))
  \/ (length (sizes t) = 0%nat
      /\ size t (-1) tr = (tr, Thrown "Dimension out of range")).
Proof.
  destruct (sizes t) as [|x l] eqn:Hs.
  - right. split; [reflexivity|]. unfold size, dim. rewrite Hs. reflexivity.
  - left. rewrite <- Hs. split; [rewrite Hs; simpl; lia|].
    apply FwdHostFacts.size_last. rewrite Hs. simpl. lia.
Qed.

End Sizes.

Section Fwd.
Import FwdHost.
Context {Sc : Scalar}.
Variable CHECK_INPUT : forall A, tensor A -> option string.
Variable cudaFuncSetAttribute : Z -> Z -> bool.

Ltac size_case t k R :=
  let Hc := fresh "Hc" in
  pose proof (size_nat_cases t k (@nil event)) as Hc;
  change (Z.of_nat 0) with 0 in Hc; change (Z.of_nat 1) with 1 in Hc;
  change (Z.of_nat 2) with 2 in Hc;
  destruct Hc as [[R ->]|[R ->]];
  [|split; [reflexivity | eexists; reflexivity]].

Ltac fwd_check t :=
  destruct (CHECK_INPUT _ t) as [?msg|] eqn:?Hchk;
  [split; [reflexivity | eexists; reflexivity]|].

(** X8.  Unless every [CHECK_INPUT] of the forward entry point passes
    and the tensors have the dimensions whose sizes it reads, the call
    raises before it allocates an output, sets a kernel attribute or
    launches. *)
Theorem forward_rejects_early (means2d conics colors opacities : tensor F)
    (backgrounds : option (tensor F))
    (image_width image_height tile_size : Z)
    (tile_offsets flatten_ids : tensor Z) :
  ~ (fwd_checks_pass CHECK_INPUT means2d conics colors opacities backgrounds
                     tile_offsets flatten_ids
     /\ fwd_ranks_ok means2d colors tile_offsets flatten_ids) ->
  fst (run (rasterize_to_pixels_fwd_tensor CHECK_INPUT cudaFuncSetAttribute
             means2d conics colors opacities backgrounds
             image_width image_height tile_size tile_offsets flatten_ids))
  = []
  /\ exists msg,
       snd (run (rasterize_to_pixels_fwd_tensor
                   CHECK_INPUT cudaFuncSetAttribute
                   means2d conics colors opacities backgrounds
                   image_width image_height tile_size
                   tile_offsets flatten_ids))
       = Thrown msg.
Proof.
  intros Hbad.
  unfold rasterize_to_pixels_fwd_tensor, run, bind, check.
  fwd_check means2d. fwd_check conics. fwd_check colors.
  fwd_check opacities. fwd_check tile_offsets. fwd_check flatten_ids.
  assert (Hbg : (match backgrounds with
                 | Some bg => CHECK_INPUT F bg
                 | None => None end) = None
                -> forall bg, backgrounds = Some bg -> CHECK_INPUT F bg = None).
  { intros Hn bg ->. exact Hn. }
  destruct backgrounds as [bg|];
    [destruct (CHECK_INPUT F bg) as [msg|] eqn:Hchk5;
     [split; [reflexivity | eexists; reflexivity]|]|];
    cbn [ret];
    size_case tile_offsets 0%nat R0;
    (destruct (dim means2d =? 2) eqn:Hpk;
     [|size_case means2d 1%nat R1]);
    cbn [ret];
    (destruct (size_last_cases colors (@nil event)) as [[R2 ->]|[R2 ->]];
     [|split; [reflexivity | eexists; reflexivity]]);
    size_case tile_offsets 1%nat R3;
    size_case tile_offsets 2%nat R4;
    size_case flatten_ids 0%nat R5;
    exfalso; apply Hbad; (split; [repeat split; auto|]);
    try (intros bg' [= <-]; assumption); try (intros bg' [=]);
    unfold fwd_ranks_ok; try (apply Z.eqb_eq in Hpk; unfold dim in Hpk); lia.
Qed.

End Fwd.

Section Bwd.
Import BwdHost.
Context {Sc : Scalar}.
Variable CHECK_INPUT : forall A, tensor A -> option string.
Variable N_THREADS : Z.
Variable NDEBUG : bool.
Variable H : Bwd.helpers.
Variable schedule : list Bwd.op -> list Bwd.op.

Ltac ends_early := split; [reflexivity | intros r; discriminate].

Ltac bwd_check t :=
  destruct (CHECK_INPUT _ t) as [?msg|] eqn:?Hchk; [ends_early|].

(** X15.  Unless every [CHECK_INPUT] of the backward entry point passes,
    quaternions and scales are there when no covariance is, and the
    tensors have the dimension whose size is read, the call ends (raising,
    or aborting on a failed assertion) before it allocates a gradient or
    launches, and returns nothing. *)
Theorem backward_rejects_early (means : tensor F)
    (covars quats scales : option (tensor F))
    (viewmats Ks : tensor F) (image_width image_height : Z) (eps2d : F)
    (camera_ids gaussian_ids : tensor Z) (conics : tensor F)
    (compensations : option (tensor F))
    (v_means2d v_depths v_conics : tensor F)
    (v_compensations : option (tensor F))
    (viewmats_requires_grad sparse_grad : bool) :
  ~ (checks_ok CHECK_INPUT means covars quats scales viewmats Ks
               camera_ids gaussian_ids conics compensations
               v_means2d v_depths v_conics v_compensations
     /\ bwd_ranks_ok means viewmats camera_ids) ->
  fst (run (fully_fused_projection_packed_bwd_tensor
              CHECK_INPUT N_THREADS NDEBUG H schedule
              means covars quats scales viewmats Ks
              image_width image_height eps2d
              camera_ids gaussian_ids conics compensations
              v_means2d v_depths v_conics v_compensations
              viewmats_requires_grad sparse_grad)) = []
  /\ forall r,
       snd (run (fully_fused_projection_packed_bwd_tensor
                   CHECK_INPUT N_THREADS NDEBUG H schedule
                   means covars quats scales viewmats Ks
                   image_width image_height eps2d
                   camera_ids gaussian_ids conics compensations
                   v_means2d v_depths v_conics v_compensations
                   viewmats_requires_grad sparse_grad))
       <> Returned r.
Proof.
  intros Hbad.
  unfold fully_fused_projection_packed_bwd_tensor, run, bind, check.
  bwd_check means.
  destruct covars as [cv|];
    [destruct (CHECK_INPUT F cv) as [msg|] eqn:Hcv; [ends_early|]
    |destruct quats as [q|], scales as [s|], NDEBUG;
     cbn [Host.assert Bwd.non_null andb value ret throw abort];
     try ends_early;
     (destruct (CHECK_INPUT F q) as [msg|] eqn:Hq; [ends_early|]);
     cbn [Host.assert Bwd.non_null andb value ret throw abort];
     try ends_early;
     (destruct (CHECK_INPUT F s) as [msg|] eqn:Hs; [ends_early|])].
  all: cbn [ret].
  all: bwd_check viewmats; bwd_check Ks; bwd_check camera_ids;
       bwd_check gaussian_ids; bwd_check conics; bwd_check v_means2d;
       bwd_check v_depths; bwd_check v_conics.
  all: destruct compensations as [cm|];
       [destruct (CHECK_INPUT F cm) as [msg|] eqn:Hcm; [ends_early|]|];
       cbn [ret].
  all: destruct v_compensations as [vc|];
       [destruct (CHECK_INPUT F vc) as [msg|] eqn:Hvc; [ends_early|]|];
       cbn [ret Host.assert Bwd.non_null].
  all: try destruct NDEBUG; cbn [ret abort Host.assert]; try ends_early.
  all: pose proof (size_nat_cases means 0 (@nil event)) as Hc0;
       change (Z.of_nat 0) with 0 in Hc0;
       destruct Hc0 as [[R0 ->]|[R0 ->]]; [|ends_early].
  all: pose proof (size_nat_cases viewmats 0 (@nil event)) as Hc1;
       change (Z.of_nat 0) with 0 in Hc1;
       destruct Hc1 as [[R1 ->]|[R1 ->]]; [|ends_early].
  all: pose proof (size_nat_cases camera_ids 0 (@nil event)) as Hc2;
       change (Z.of_nat 0) with 0 in Hc2;
       destruct Hc2 as [[R2 ->]|[R2 ->]]; [|ends_early].
  all: exfalso; apply Hbad; split;
       [unfold checks_ok; repeat split; auto;
        try (do 2 eexists; repeat split; eauto; fail);
        try (intros ? [= <-]; assumption); try (intros ? [=])
       |unfold bwd_ranks_ok; repeat split; intros Hnil;
        rewrite Hnil in *; simpl in *; lia].
Qed.

Section Outputs.
Variables (means : tensor F) (covars quats scales : option (tensor F))
    (viewmats Ks : tensor F)
    (image_width image_height : Z) (eps2d : F)
    (camera_ids gaussian_ids : tensor Z) (conics : tensor F)
    (compensations : option (tensor F))
    (v_means2d v_depths v_conics : tensor F)
    (v_compensations : option (tensor F)).
Variables viewmats_requires_grad sparse_grad : bool.
Hypothesis Hchecks :
  checks_ok CHECK_INPUT means covars quats scales viewmats Ks
            camera_ids gaussian_ids conics compensations
            v_means2d v_depths v_conics v_compensations.
Hypothesis Hranks : bwd_ranks_ok means viewmats camera_ids.
Hypothesis Hcomp_there :
  Bwd.non_null v_compensations = true -> Bwd.non_null compensations = true.

Local Abbreviation nnz := (u32 (nth 0 (sizes camera_ids) 0)).
Local Abbreviation Cz := (u32 (nth 0 (sizes viewmats) 0)).
Local Abbreviation args :=
  (BwdHostProp.entry_args means covars quats scales viewmats Ks
     image_width image_height eps2d camera_ids gaussian_ids conics
     compensations v_means2d v_depths v_conics v_compensations sparse_grad).

(** What a call that passes the checks allocates, launches and returns. *)
Lemma bwd_outputs :
  exists r,
    run (fully_fused_projection_packed_bwd_tensor
           CHECK_INPUT N_THREADS NDEBUG H schedule
           means covars quats scales viewmats Ks image_width image_height
           eps2d camera_ids gaussian_ids conics compensations
           v_means2d v_depths v_conics v_compensations
           viewmats_requires_grad sparse_grad)
    = (map Zeros
         ([grad_shape sparse_grad nnz 3 means]
          ++ match covars, quats, scales with
             | Some c, _, _ => [grad_shape sparse_grad nnz 6 c]
             | None, Some q, Some s =>
               [grad_shape sparse_grad nnz 4 q; grad_shape sparse_grad nnz 3 s]
             | None, _, _ => []
             end
          ++ (if viewmats_requires_grad
              then [if sparse_grad then [Cz; 4; 4] else sizes viewmats]
              else []))
       ++ (if nnz =? 0 then []
           else [Launch (u32 (nnz + N_THREADS - 1) / N_THREADS) N_THREADS
                        args]),
       Returned r)
    /\ fst <$> r_means r = Some (grad_shape sparse_grad nnz 3 means)
    /\ fst <$> r_covars r = grad_shape sparse_grad nnz 6 <$> covars
    /\ fst <$> r_quats r
       = (if Bwd.non_null covars then None
          else grad_shape sparse_grad nnz 4 <$> quats)
    /\ fst <$> r_scales r
       = (if Bwd.non_null covars then None
          else grad_shape sparse_grad nnz 3 <$> scales)
    /\ fst <$> r_viewmats r
       = (if viewmats_requires_grad
          then Some (if sparse_grad then [Cz; 4; 4] else sizes viewmats)
          else None)
    /\ (nnz = 0 ->
        r_fault r = false
        /\ zero_or_undefined (r_means r) /\ zero_or_undefined (r_covars r)
        /\ zero_or_undefined (r_quats r) /\ zero_or_undefined (r_scales r)
        /\ zero_or_undefined (r_viewmats r)).
Proof.
  destruct Hchecks as (H1 & Hc & H3 & H4 & H5 & H6 & H7 & H8 & H9 & H10
                       & H11 & H12).
  destruct Hranks as (Rm & Rv & Rc).
  unfold fully_fused_projection_packed_bwd_tensor, run.
  unfold bind, check.
  rewrite H1, H3, H4, H5, H6, H7, H8, H9, H10.
  assert (Hcomp : match compensations with
                  | Some c => CHECK_INPUT F c = None | None => True end).
  { destruct compensations; auto. }
  assert (Hvcomp : match v_compensations with
                   | Some c => CHECK_INPUT F c = None
                               /\ Bwd.non_null compensations = true
                   | None => True end).
  { destruct v_compensations; auto. }
  clear H11 H12 Hcomp_there.
  destruct covars as [cv|];
    [|destruct Hc as (q & s & -> & -> & Hq & Hs)];
    destruct compensations as [cm|];
    (destruct v_compensations as [vc|];
     [destruct Hvcomp as [Hvc Hcm]; try discriminate Hcm|]);
    destruct NDEBUG, viewmats_requires_grad;
    do 3 (cbn -[Bwd.kernel u32 Z.div replicate Z.to_nat numel Z.eqb Z.add
                Z.sub size];
          rewrite ?Hc, ?Hq, ?Hs, ?Hcomp, ?Hvc);
    rewrite (BwdEntryFacts.size_0 means) by assumption;
    rewrite (BwdEntryFacts.size_0 viewmats) by assumption;
    rewrite (BwdEntryFacts.size_0 camera_ids) by assumption;
    destruct (u32 (nth 0 (sizes camera_ids) 0) =? 0) eqn:Hnz;
    cbn -[Bwd.kernel u32 Z.div replicate Z.to_nat numel Z.eqb Z.add Z.sub size];
    eexists; (split; [reflexivity|]);
    cbn [r_means r_covars r_quats r_scales r_viewmats r_fault].
  all: repeat match goal with |- _ /\ _ => split end.
  all: unfold grad_shape, zero_or_undefined;
       cbn [fmap option_fmap option_map fst Bwd.non_null].
  all: try reflexivity.
  all: try (match goal with
            | |- context [match ?x with Some _ => _ | None => _ end] =>
                destruct x
            end; reflexivity).
  all: intros Hz0;
       first [apply Z.eqb_neq in Hnz; contradiction | repeat split].
Qed.

End Outputs.

Lemma no_launch_among_zeros (shapes : list (list Z)) :
  existsb is_launch (map Zeros shapes) = false.
Proof. induction shapes as [|x l IH]; simpl; [reflexivity | exact IH]. Qed.

Section Outcome.
Variables (means : tensor F) (covars quats scales : option (tensor F))
    (viewmats Ks : tensor F)
    (image_width image_height : Z) (eps2d : F)
    (camera_ids gaussian_ids : tensor Z) (conics : tensor F)
    (compensations : option (tensor F))
    (v_means2d v_depths v_conics : tensor F)
    (v_compensations : option (tensor F)).
Variables viewmats_requires_grad sparse_grad : bool.

Local Abbreviation nnz := (u32 (nth 0 (sizes camera_ids) 0)).
Local Abbreviation Cz := (u32 (nth 0 (sizes viewmats) 0)).

(** X16.  A call that passes the checks returns.  It allocates, in this
    order, [v_means], then [v_covars] or else [v_quats] and [v_scales],
    then [v_viewmats] when it is asked for, each [nnz] rows long in the
    sparse layout and shaped like its input in the dense one, and then
    launches once, on [(nnz + N_THREADS - 1) / N_THREADS] blocks, unless
    there is no record.  Exactly the tensors it allocated are returned
    defined, with the shapes they were allocated with. *)
Theorem backward_allocates_and_launches :
  checks_ok CHECK_INPUT means covars quats scales viewmats Ks
            camera_ids gaussian_ids conics compensations
            v_means2d v_depths v_conics v_compensations ->
  bwd_ranks_ok means viewmats camera_ids ->
  (Bwd.non_null v_compensations = true ->
   Bwd.non_null compensations = true) ->
  exists r,
    run (fully_fused_projection_packed_bwd_tensor
           CHECK_INPUT N_THREADS NDEBUG H schedule
           means covars quats scales viewmats Ks image_width image_height
           eps2d camera_ids gaussian_ids conics compensations
           v_means2d v_depths v_conics v_compensations
           viewmats_requires_grad sparse_grad)
    = (map Zeros
         ([grad_shape sparse_grad nnz 3 means]
          ++ match covars, quats, scales with
             | Some c, _, _ => [grad_shape sparse_grad nnz 6 c]
             | None, Some q, Some s =>
               [grad_shape sparse_grad nnz 4 q; grad_shape sparse_grad nnz 3 s]
             | None, _, _ => []
             end
          ++ (if viewmats_requires_grad
              then [if sparse_grad then [Cz; 4; 4] else sizes viewmats]
              else []))
       ++ (if nnz =? 0 then []
           else [Launch (u32 (nnz + N_THREADS - 1) / N_THREADS) N_THREADS
                   (BwdHostProp.entry_args
                      means covars quats scales viewmats Ks
                      image_width image_height eps2d camera_ids gaussian_ids
                      conics compensations v_means2d v_depths v_conics
                      v_compensations sparse_grad)]),
       Returned r)
    /\ fst <$> r_means r = Some (grad_shape sparse_grad nnz 3 means)
    /\ fst <$> r_covars r = grad_shape sparse_grad nnz 6 <$> covars
    /\ fst <$> r_quats r
       = (if Bwd.non_null covars then None
          else grad_shape sparse_grad nnz 4 <$> quats)
    /\ fst <$> r_scales r
       = (if Bwd.non_null covars then None
          else grad_shape sparse_grad nnz 3 <$> scales)
    /\ fst <$> r_viewmats r
       = (if viewmats_requires_grad
          then Some (if sparse_grad then [Cz; 4; 4] else sizes viewmats)
          else None).
Proof.
  intros Hchecks Hranks Hcomp.
  destruct (bwd_outputs means covars quats scales viewmats Ks
              image_width image_height eps2d camera_ids gaussian_ids conics
              compensations v_means2d v_depths v_conics v_compensations
              viewmats_requires_grad sparse_grad Hchecks Hranks Hcomp)
    as (r & Hrun & Hm & Hc & Hq & Hs & Hv & _).
  exists r. repeat split; assumption.
Qed.

(** X17.  A call with no record ([camera_ids] of length zero) that
    passes the checks launches nothing and returns, without a fault, a
    [v_means] and whatever other gradients it allocated, all zero. *)
Theorem empty_call_returns_zeros :
  checks_ok CHECK_INPUT means covars quats scales viewmats Ks
            camera_ids gaussian_ids conics compensations
            v_means2d v_depths v_conics v_compensations ->
  bwd_ranks_ok means viewmats camera_ids ->
  (Bwd.non_null v_compensations = true ->
   Bwd.non_null compensations = true) ->
  nnz = 0 ->
  exists events r,
    run (fully_fused_projection_packed_bwd_tensor
           CHECK_INPUT N_THREADS NDEBUG H schedule
           means covars quats scales viewmats Ks image_width image_height
           eps2d camera_ids gaussian_ids conics compensations
           v_means2d v_depths v_conics v_compensations
           viewmats_requires_grad sparse_grad)
    = (events, Returned r)
    /\ existsb is_launch events = false
    /\ r_fault r = false
    /\ r_means r <> None
    /\ zero_or_undefined (r_means r) /\ zero_or_undefined (r_covars r)
    /\ zero_or_undefined (r_quats r) /\ zero_or_undefined (r_scales r)
    /\ zero_or_undefined (r_viewmats r).
Proof.
  intros Hchecks Hranks Hcomp Hz.
  destruct (bwd_outputs means covars quats scales viewmats Ks
              image_width image_height eps2d camera_ids gaussian_ids conics
              compensations v_means2d v_depths v_conics v_compensations
              viewmats_requires_grad sparse_grad Hchecks Hranks Hcomp)
    as (r & Hrun & Hm & _ & _ & _ & _ & Hzero).
  destruct (Hzero Hz) as (Hf & Z1 & Z2 & Z3 & Z4 & Z5).
  eexists _, r. split; [exact Hrun|].
  split.
  { rewrite Hz. simpl (0 =? 0). rewrite app_nil_r.
    apply no_launch_among_zeros. }
  split; [exact Hf|]. split.
  { intros Hn. rewrite Hn in Hm. discriminate. }
  repeat split; assumption.
Qed.

(** X18.  A call without covariances that lacks quaternions or scales:
    in a build that keeps assertions it aborts on
    [quats.has_value() && scales.has_value()], and in one that does not,
    a missing [quats] raises at [quats.value()]; either way nothing has
    been allocated or launched. *)
Theorem missing_quats_scales_caught :
  CHECK_INPUT F means = None ->
  quats = None \/ scales = None ->
  let call :=
    run (fully_fused_projection_packed_bwd_tensor
           CHECK_INPUT N_THREADS NDEBUG H schedule
           means None quats scales viewmats Ks image_width image_height
           eps2d camera_ids gaussian_ids conics compensations
           v_means2d v_depths v_conics v_compensations
           viewmats_requires_grad sparse_grad) in
  (NDEBUG = false ->
   call = ([], Aborted "Assertion `quats.has_value() && scales.has_value()' failed."))
  /\ (NDEBUG = true -> quats = None ->
      call = ([], Thrown "bad optional access")).
Proof.
  intros Hm Hmiss call. subst call.
  unfold fully_fused_projection_packed_bwd_tensor, run, bind, check.
  rewrite Hm. split.
  - intros ->. destruct Hmiss as [-> | ->]; [reflexivity|].
    destruct quats; reflexivity.
  - intros -> ->. reflexivity.
Qed.

End Outcome.

End Bwd.
End HostExtra.

(** * The further properties on concrete inputs *)

Module ExtraWitness.

Section ForwardScene.
Import Fwd FwdProp FwdSeq FwdStores.
#[local] Existing Instance exactQ.

Lemma block_composites_in_order_witness :
  run_block Scene.scene Scene.sh0
  = map (fun th => {| th_idx := th_idx th;
                      th_st := composite Scene.scene (th_idx th) |})
        (block_threads Scene.scene).
Proof.
  apply (FwdExtra.block_composites_in_order Scene.scene Scene.sh0).
  repeat split; vm_compute; congruence.
Defined.

Lemma shared_arrays_never_stale_witness :
  run_block Scene.scene Scene.sh0 = run_block Scene.scene Scene.sh1.
Proof.
  apply (FwdExtra.shared_arrays_never_stale Scene.scene Scene.sh0 Scene.sh1).
  repeat split; vm_compute; congruence.
Defined.

Lemma pixel_well_formed_witness :
  exists p,
    finalize Scene.scene Scene.corner (init_state Scene.scene Scene.corner)
    = Some p
    /\ length (render_color p) = Z.to_nat (COLOR_DIM Scene.scene)
    /\ render_alpha p
       = fsub lit_1 (T (init_state Scene.scene Scene.corner))
    /\ (last_id p = 0
        \/ (range_start Scene.scene <= last_id p < range_end Scene.scene
            /\ skipped Scene.scene Scene.corner
                       (record_conic Scene.scene (last_id p))
                       (record_xy_opac Scene.scene (last_id p)) = false)).
Proof.
  apply (FwdExtra.pixel_well_formed Scene.scene Scene.sh0
           {| th_idx := Scene.corner;
              th_st := init_state Scene.scene Scene.corner |}).
  - repeat split; vm_compute; congruence.
  - apply (list_elem_of_lookup_2 _ 3%nat). vm_compute. reflexivity.
  - vm_compute. reflexivity.
Defined.

Lemma outside_thread_idle_witness :
  init_state EdgeScene.edge {| tx := 1; ty := 0 |}
  = init_state EdgeScene.edge {| tx := 1; ty := 0 |}
  /\ finalize EdgeScene.edge {| tx := 1; ty := 0 |}
              (init_state EdgeScene.edge {| tx := 1; ty := 0 |}) = None.
Proof.
  apply (FwdExtra.outside_thread_idle EdgeScene.edge Scene.sh0
           {| th_idx := {| tx := 1; ty := 0 |};
              th_st := init_state EdgeScene.edge {| tx := 1; ty := 0 |} |}).
  - repeat split; vm_compute; congruence.
  - apply (list_elem_of_lookup_2 _ 1%nat). vm_compute. reflexivity.
  - vm_compute. reflexivity.
Defined.

Lemma pixel_store_position_witness :
  i Scene.scene Scene.corner
  = by_ Scene.scene * tile_size (args Scene.scene) + ty Scene.corner
  /\ j Scene.scene Scene.corner
     = bz Scene.scene * tile_size (args Scene.scene) + tx Scene.corner
  /\ alpha_index Scene.scene Scene.corner
     = (bx Scene.scene * image_height (args Scene.scene)
        + i Scene.scene Scene.corner) * image_width (args Scene.scene)
       + j Scene.scene Scene.corner
  /\ 0 <= alpha_index Scene.scene Scene.corner
       < C (args Scene.scene) * image_height (args Scene.scene)
         * image_width (args Scene.scene)
  /\ forall k, 0 <= k < COLOR_DIM Scene.scene ->
       color_index Scene.scene Scene.corner k
       = alpha_index Scene.scene Scene.corner * COLOR_DIM Scene.scene + k.
Proof.
  apply (FwdStoreFacts.pixel_store_position Scene.scene Scene.corner).
  - repeat split; vm_compute; congruence.
  - repeat split; vm_compute; congruence.
  - vm_compute. reflexivity.
Defined.

Lemma pixel_stores_disjoint_witness :
  alpha_index Scene.scene Scene.centre <> alpha_index Scene.scene Scene.corner
  /\ (forall k k', 0 <= k < COLOR_DIM Scene.scene ->
        0 <= k' < COLOR_DIM Scene.scene ->
        color_index Scene.scene Scene.centre k
        <> color_index Scene.scene Scene.corner k')
  /\ (forall k k', 0 <= k < COLOR_DIM Scene.scene ->
        0 <= k' < COLOR_DIM Scene.scene -> k <> k' ->
        color_index Scene.scene Scene.centre k
        <> color_index Scene.scene Scene.centre k').
Proof.
  apply (FwdStoreFacts.pixel_stores_disjoint Scene.scene Scene.scene
           Scene.centre Scene.corner).
  - reflexivity.
  - reflexivity.
  - repeat split; vm_compute; congruence.
  - repeat split; vm_compute; congruence.
  - repeat split; vm_compute; congruence.
  - vm_compute. reflexivity.
  - vm_compute. reflexivity.
  - intros E. discriminate E.
Defined.

Lemma every_pixel_stored_witness :
  exists B ti,
    args B = Scene.scene_args /\ COLOR_DIM B = 3 /\ bx B = 0
    /\ in_grid B ti /\ inside B ti = true
    /\ alpha_index B ti
       = (0 * image_height Scene.scene_args + 1)
         * image_width Scene.scene_args + 1
    /\ forall k, 0 <= k < 3 ->
         color_index B ti k
         = ((0 * image_height Scene.scene_args + 1)
            * image_width Scene.scene_args + 1) * 3 + k.
Proof.
  apply (FwdStoreFacts.every_pixel_stored Scene.scene_args 3 0 1 1).
  - repeat split; vm_compute; congruence.
  - split; vm_compute; congruence.
  - vm_compute. split; congruence.
  - vm_compute. split; congruence.
  - vm_compute. split; congruence.
Defined.

End ForwardScene.

Section BackwardLaunch.
Import Host BwdHost Bwd BwdProp BwdRows.
#[local] Existing Instance exactQ.

Lemma launch_covers_records_witness :
  concat (warps (HostScene.bwd_args false) 256 1)
  = seqZ 0 (nnz (HostScene.bwd_args false))
  /\ Forall (fun lanes => (length lanes <= 32)%nat)
            (warps (HostScene.bwd_args false) 256 1).
Proof.
  apply (BwdExtra.launch_covers_records (HostScene.bwd_args false) 256 1).
  unfold launch_ok. vm_compute. repeat apply conj; try reflexivity; discriminate.
Defined.

Lemma writes_in_bounds_witness :
  exists ops,
    kernel_ops HostScene.plain_helpers (HostScene.bwd_args false) 256 1
      (zero_grads (HostScene.bwd_args false)
                  (if sparse_grad (HostScene.bwd_args false)
                   then nnz (HostScene.bwd_args false)
                   else N (HostScene.bwd_args false)) true)
    = Some ops
    /\ Forall (op_in_bounds
                 (zero_grads (HostScene.bwd_args false)
                             (if sparse_grad (HostScene.bwd_args false)
                              then nnz (HostScene.bwd_args false)
                              else N (HostScene.bwd_args false)) true)) ops.
Proof.
  apply (BwdExtra.writes_in_bounds HostScene.plain_helpers
           (HostScene.bwd_args false) 256 1 true).
  - split; intros Hn; [discriminate Hn|discriminate Hn].
  - unfold launch_ok. vm_compute.
    repeat apply conj; try reflexivity; discriminate.
  - reflexivity.
Defined.


Lemma thread_reads_own_rows_witness :
  thread_locals HostScene.plain_helpers (HostScene.bwd_args false) 1
  = thread_locals HostScene.plain_helpers (HostScene.bwd_args true) 1.
Proof.
  apply (BwdExtra.thread_reads_own_rows HostScene.plain_helpers
           (HostScene.bwd_args false) (HostScene.bwd_args true) 1).
  unfold same_reads. simpl.
  repeat apply conj; try reflexivity; repeat constructor.
Defined.

Lemma unseen_primitive_untouched_witness :
  exists g' l',
    kernel HostScene.plain_helpers (HostScene.bwd_args false) 256 1 (@rev op)
           (zero_grads (HostScene.bwd_args false) 3 true) = Some g'
    /\ buf BMeans g' = Some l'
    /\ length l' = length (replicate 9 (lit_0 : F))
    /\ forall j, 0 <= j < 3 ->
         l' !! Z.to_nat (2 * 3 + j)
         = replicate 9 (lit_0 : F) !! Z.to_nat (2 * 3 + j).
Proof.
  apply (BwdExtra.unseen_primitive_untouched HostScene.plain_helpers
           (HostScene.bwd_args false) 256 1 (@rev op)
           (zero_grads (HostScene.bwd_args false) 3 true) BMeans 3
           (replicate 9 lit_0) 2).
  - split; intros Hn; [discriminate Hn|discriminate Hn].
  - unfold launch_ok. vm_compute.
    repeat apply conj; try reflexivity; discriminate.
  - reflexivity.
  - intros ops. apply Permutation_rev.
  - left. reflexivity.
  - reflexivity.
  - reflexivity.
  - lia.
  - intros i Hi. simpl. pose proof (Z.mod_pos_bound i 2). lia.
Defined.

Lemma one_add_per_group_witness :
  exists ops,
    warp_ops HostScene.plain_helpers (HostScene.bwd_args false)
             (zero_grads (HostScene.bwd_args false) 2 true) [0; 1; 2]
    = Some ops
    /\ length (adds_to BMeans (0 * 3 + 1) ops)
       = if existsb (fun i => gaussian_ids (HostScene.bwd_args false) i =? 0)
                    [0; 1; 2]
         then 1%nat else 0%nat.
Proof.
  apply (BwdExtra.one_add_per_group HostScene.plain_helpers
           (HostScene.bwd_args false) 256 1
           (zero_grads (HostScene.bwd_args false) 2 true) BMeans 3
           [0; 1; 2] 0 1).
  - split; intros Hn; [discriminate Hn|discriminate Hn].
  - unfold launch_ok. vm_compute.
    repeat apply conj; try reflexivity; discriminate.
  - reflexivity.
  - left. reflexivity.
  - reflexivity.
  - vm_compute. left. reflexivity.
  - lia.
Defined.

End BackwardLaunch.

Section Calls.
Import Host HostProp.
#[local] Existing Instance exactQ.

Lemma forward_rejects_early_witness :
  fst (run (FwdHost.rasterize_to_pixels_fwd_tensor
              HostScene.check_input (fun _ _ => true)
              (ExtraHostScene.on_host [1; 2; 2] lit_0_5)
              (HostScene.filled [1; 2; 3] lit_1)
              (HostScene.filled [1; 2; 3] lit_1)
              (HostScene.filled [1; 2] lit_1)
              None 2 2 2 (HostScene.filled [1; 1; 1] 0)
              (HostScene.indices 2))) = []
  /\ exists msg,
       snd (run (FwdHost.rasterize_to_pixels_fwd_tensor
                   HostScene.check_input (fun _ _ => true)
                   (ExtraHostScene.on_host [1; 2; 2] lit_0_5)
                   (HostScene.filled [1; 2; 3] lit_1)
                   (HostScene.filled [1; 2; 3] lit_1)
                   (HostScene.filled [1; 2] lit_1)
                   None 2 2 2 (HostScene.filled [1; 1; 1] 0)
                   (HostScene.indices 2)))
       = Thrown msg.
Proof.
  apply (HostExtra.forward_rejects_early HostScene.check_input
           (fun _ _ => true)).
  intros [(Hc & _) _]. vm_compute in Hc. discriminate Hc.
Defined.

Lemma backward_rejects_early_witness :
  fst (run (BwdHost.fully_fused_projection_packed_bwd_tensor
              HostScene.check_input 256 false HostScene.plain_helpers
              (fun ops => ops)
              (ExtraHostScene.on_host [2; 3] lit_1)
              (Some (HostScene.filled [2; 6] lit_1)) None None
              (HostScene.filled [1; 4; 4] lit_1)
              (HostScene.filled [1; 3; 3] lit_1)
              2 2 lit_0
              (HostScene.filled [3] 0) (HostScene.alternating 3)
              (HostScene.filled [3; 3] lit_1)
              None
              (HostScene.ramp [3; 2]) (HostScene.filled [3] lit_1)
              (HostScene.ramp [3; 3])
              None true false)) = []
  /\ forall r,
       snd (run (BwdHost.fully_fused_projection_packed_bwd_tensor
                   HostScene.check_input 256 false HostScene.plain_helpers
                   (fun ops => ops)
                   (ExtraHostScene.on_host [2; 3] lit_1)
                   (Some (HostScene.filled [2; 6] lit_1)) None None
                   (HostScene.filled [1; 4; 4] lit_1)
                   (HostScene.filled [1; 3; 3] lit_1)
                   2 2 lit_0
                   (HostScene.filled [3] 0) (HostScene.alternating 3)
                   (HostScene.filled [3; 3] lit_1)
                   None
                   (HostScene.ramp [3; 2]) (HostScene.filled [3] lit_1)
                   (HostScene.ramp [3; 3])
                   None true false))
       <> Returned r.
Proof.
  apply (HostExtra.backward_rejects_early HostScene.check_input 256 false
           HostScene.plain_helpers (fun ops => ops)).
  intros [(Hc & _) _]. vm_compute in Hc. discriminate Hc.
Defined.

Lemma backward_allocates_and_launches_witness :
  exists r,
    run (BwdHost.fully_fused_projection_packed_bwd_tensor
           HostScene.check_input 256 false HostScene.plain_helpers
           (fun ops => ops)
           (HostScene.filled [2; 3] lit_1)
           (Some (HostScene.filled [2; 6] lit_1)) None None
           (HostScene.filled [1; 4; 4] lit_1)
           (HostScene.filled [1; 3; 3] lit_1)
           2 2 lit_0
           (HostScene.filled [3] 0) (HostScene.alternating 3)
           (HostScene.filled [3; 3] lit_1)
           None
           (HostScene.ramp [3; 2]) (HostScene.filled [3] lit_1)
           (HostScene.ramp [3; 3])
           None true false)
    = ([BwdHost.Zeros [2; 3]; BwdHost.Zeros [2; 6]; BwdHost.Zeros [1; 4; 4];
        BwdHost.Launch 1 256 (HostScene.bwd_args false)],
       Returned r)
    /\ fst <$> BwdHost.r_means r = Some [2; 3]
    /\ fst <$> BwdHost.r_covars r = Some [2; 6]
    /\ fst <$> BwdHost.r_quats r = None
    /\ fst <$> BwdHost.r_scales r = None
    /\ fst <$> BwdHost.r_viewmats r = Some [1; 4; 4].
Proof.
  apply (HostExtra.backward_allocates_and_launches
           HostScene.check_input 256 false HostScene.plain_helpers
           (fun ops => ops)
           (HostScene.filled [2; 3] lit_1)
           (Some (HostScene.filled [2; 6] lit_1)) None None
           (HostScene.filled [1; 4; 4] lit_1)
           (HostScene.filled [1; 3; 3] lit_1)
           2 2 lit_0
           (HostScene.filled [3] 0) (HostScene.alternating 3)
           (HostScene.filled [3; 3] lit_1)
           None
           (HostScene.ramp [3; 2]) (HostScene.filled [3] lit_1)
           (HostScene.ramp [3; 3])
           None true false).
  - repeat split; try reflexivity; intros c Hc; discriminate Hc.
  - repeat split; discriminate.
  - intros Hn. discriminate Hn.
Defined.

Lemma empty_call_returns_zeros_witness :
  exists events r,
    run (BwdHost.fully_fused_projection_packed_bwd_tensor
           HostScene.check_input 256 false HostScene.plain_helpers
           (fun ops => ops)
           (HostScene.filled [2; 3] lit_1)
           (Some (HostScene.filled [2; 6] lit_1)) None None
           (HostScene.filled [1; 4; 4] lit_1)
           (HostScene.filled [1; 3; 3] lit_1)
           2 2 lit_0
           (HostScene.filled [0] 0) (HostScene.filled [0] 0)
           (HostScene.filled [0; 3] lit_1)
           None
           (HostScene.filled [0; 2] lit_1) (HostScene.filled [0] lit_1)
           (HostScene.filled [0; 3] lit_1)
           None true true)
    = (events, Returned r)
    /\ existsb BwdHost.is_launch events = false
    /\ BwdHost.r_fault r = false
    /\ BwdHost.r_means r <> None
    /\ zero_or_undefined (BwdHost.r_means r)
    /\ zero_or_undefined (BwdHost.r_covars r)
    /\ zero_or_undefined (BwdHost.r_quats r)
    /\ zero_or_undefined (BwdHost.r_scales r)
    /\ zero_or_undefined (BwdHost.r_viewmats r).
Proof.
  apply (HostExtra.empty_call_returns_zeros
           HostScene.check_input 256 false HostScene.plain_helpers
           (fun ops => ops)).
  - repeat split; try reflexivity; intros c Hc; discriminate Hc.
  - repeat split; discriminate.
  - intros Hn. discriminate Hn.
  - reflexivity.
Defined.

Lemma missing_quats_scales_caught_witness :
  (false = false ->
   run (BwdHost.fully_fused_projection_packed_bwd_tensor
          HostScene.check_input 256 false HostScene.plain_helpers
          (fun ops => ops)
          (HostScene.filled [2; 3] lit_1) None
          None (Some (HostScene.filled [2; 3] lit_1))
          (HostScene.filled [1; 4; 4] lit_1)
          (HostScene.filled [1; 3; 3] lit_1)
          2 2 lit_0
          (HostScene.filled [3] 0) (HostScene.alternating 3)
          (HostScene.filled [3; 3] lit_1)
          None
          (HostScene.ramp [3; 2]) (HostScene.filled [3] lit_1)
          (HostScene.ramp [3; 3])
          None true false)
   = ([], Aborted "Assertion `quats.has_value() && scales.has_value()' failed."))
  /\ (false = true -> (None : option (tensor F)) = None ->
      run (BwdHost.fully_fused_projection_packed_bwd_tensor
             HostScene.check_input 256 false HostScene.plain_helpers
             (fun ops => ops)
             (HostScene.filled [2; 3] lit_1) None
             None (Some (HostScene.filled [2; 3] lit_1))
             (HostScene.filled [1; 4; 4] lit_1)
             (HostScene.filled [1; 3; 3] lit_1)
             2 2 lit_0
             (HostScene.filled [3] 0) (HostScene.alternating 3)
             (HostScene.filled [3; 3] lit_1)
             None
             (HostScene.ramp [3; 2]) (HostScene.filled [3] lit_1)
             (HostScene.ramp [3; 3])
             None true false)
      = ([], Thrown "bad optional access")).
Proof.
  apply (HostExtra.missing_quats_scales_caught
           HostScene.check_input 256 false HostScene.plain_helpers
           (fun ops => ops)
           (HostScene.filled [2; 3] lit_1)
           None (Some (HostScene.filled [2; 3] lit_1))
           (HostScene.filled [1; 4; 4] lit_1)
           (HostScene.filled [1; 3; 3] lit_1)
           2 2 lit_0
           (HostScene.filled [3] 0) (HostScene.alternating 3)
           (HostScene.filled [3; 3] lit_1)
           None
           (HostScene.ramp [3; 2]) (HostScene.filled [3] lit_1)
           (HostScene.ramp [3; 3])
           None true false).
  - reflexivity.
  - left. reflexivity.
Defined.

End Calls.

End ExtraWitness.
